(** * otel-cli: the MCP trace store, the code analyzer and the OTLP servers

    A shallow embedding of the Go packages [mcpserver] and [otlpserver] of
    otel-cli, and the properties of the trace-correlation store, the code
    context analyzer, the HTTP ingestion handlers and the server shutdown
    protocol.

    Conventions.
    - A Go [string] and a Go [[]byte] are sequences of bytes: [string] and
      [list byte].
    - A Go [int], [int64] and [time.Duration] is a [Z]; where the source can
      wrap around or saturate, the wrap-around is written out.
    - A [time.Time] without monotonic reading is the number of nanoseconds
      since the Unix epoch, a [Z].
    - A Go [map] is a [gmap]; the order in which [range] visits a map is
      chosen by the runtime and is a parameter of the model ([MapRange]).
    - A [*SpanData] is an index into the list of allocated [SpanData]
      objects that the store carries along ([objs]). *)

From Stdlib Require Import ZArith Lia Ascii.
From Stdlib Require String.
From stdpp Require Import gmap strings list fin_maps sorting pretty.

Local Open Scope Z_scope.

(** ** Go runtime and library functions used by the packages *)

Module Go.

(** [int64] bounds and two's complement wrap-around. *)
Definition minInt64 : Z := - 2 ^ 63.
Definition maxInt64 : Z := 2 ^ 63 - 1.

Definition wrap64 (z : Z) : Z := (z + 2 ^ 63) mod 2 ^ 64 - 2 ^ 63.

(** [time.Time] as nanoseconds since the Unix epoch. *)
Definition Time := Z.
Definition Duration := Z.

(** The zero [time.Time] is January 1, year 1, 00:00:00 UTC. *)
Definition zeroTime : Time := -62135596800 * 1000000000.

Definition IsZero (t : Time) : bool := t =? zeroTime.
Definition Before (t u : Time) : bool := t <? u.
Definition After (t u : Time) : bool := t >? u.

(** [t.Sub(u)] saturates at the bounds of [Duration]. *)
Definition Sub (t u : Time) : Duration :=
  if t - u <? minInt64 then minInt64
  else if t - u >? maxInt64 then maxInt64
  else t - u.

(** [t.Add(d)]. *)
Definition Add (t : Time) (d : Duration) : Time := t + d.

(** [d.Milliseconds()]: integer division truncating toward zero. *)
Definition Milliseconds (d : Duration) : Z := Z.quot d 1000000.

(** [time.Unix(0, int64(ns))] for a [uint64] nanosecond count [ns]. *)
Definition Unix0 (ns : Z) : Time := wrap64 ns.

(** [encoding/hex]: lower-case hexadecimal, two digits per byte. The verb
    [%x] of [fmt.Sprintf] prints a byte slice the same way. *)
Definition hexdigit (n : N) : ascii :=
  match n with
  | 0%N => "0" | 1%N => "1" | 2%N => "2" | 3%N => "3"
  | 4%N => "4" | 5%N => "5" | 6%N => "6" | 7%N => "7"
  | 8%N => "8" | 9%N => "9" | 10%N => "a" | 11%N => "b"
  | 12%N => "c" | 13%N => "d" | 14%N => "e" | _ => "f"
  end%char.

Fixpoint EncodeToString (bs : list Byte.byte) : string :=
  match bs with
  | [] => EmptyString
  | b :: bs' =>
      let n := Byte.to_N b in
      String (hexdigit (n / 16)) (String (hexdigit (n mod 16)) (EncodeToString bs'))
  end.

Definition Sprintf_x (bs : list Byte.byte) : string := EncodeToString bs.

(** *** Package strings *)

Fixpoint HasPrefix (s prefix : string) : bool :=
  match prefix, s with
  | EmptyString, _ => true
  | String a prefix', String b s' => Ascii.eqb a b && HasPrefix s' prefix'
  | String _ _, EmptyString => false
  end.

Fixpoint Contains (s substr : string) : bool :=
  HasPrefix s substr ||
  match s with
  | EmptyString => false
  | String _ s' => Contains s' substr
  end.

Definition isASCIIByte (c : ascii) : bool := (N_of_ascii c <? 128)%N.

Definition lowerByte (c : ascii) : ascii :=
  let n := N_of_ascii c in
  if (65 <=? n)%N && (n <=? 90)%N then ascii_of_N (n + 32) else c.

Fixpoint isASCII (s : string) : bool :=
  match s with
  | EmptyString => true
  | String c s' => isASCIIByte c && isASCII s'
  end.

Fixpoint lowerASCII (s : string) : string :=
  match s with
  | EmptyString => EmptyString
  | String c s' => String (lowerByte c) (lowerASCII s')
  end.

(** [strings.ToLower]: byte by byte on an ASCII string; otherwise the
    Unicode mapping [strings.Map(unicode.ToLower, s)], a parameter. *)
Definition ToLower (unicodeToLower : string → string) (s : string) : string :=
  if isASCII s then lowerASCII s else unicodeToLower s.

(** [strings.Join]. *)
Definition Join (elems : list string) (sep : string) : string :=
  String.concat sep elems.

(** [strings.TrimPrefix]: [s] without the leading [prefix], [s] itself when
    it does not start with it. *)
Fixpoint cutPrefix (s prefix : string) : option string :=
  match prefix, s with
  | EmptyString, _ => Some s
  | String a prefix', String b s' =>
      if Ascii.eqb a b then cutPrefix s' prefix' else None
  | String _ _, EmptyString => None
  end.

Definition TrimPrefix (s prefix : string) : string :=
  default s (cutPrefix s prefix).

(** [strings.Split(s, sep)] for a separator of one byte: the pieces of [s]
    between the separators; [cur] is the piece being read. *)
Fixpoint splitAt (sep : ascii) (cur : string) (s : string) : list string :=
  match s with
  | EmptyString => [cur]
  | String c s' =>
      if Ascii.eqb c sep then cur :: splitAt sep EmptyString s'
      else splitAt sep (cur +:+ String c EmptyString) s'
  end.

Definition Split (s : string) (sep : ascii) : list string := splitAt sep EmptyString s.

(** *** Package strconv *)

Definition isDigit (c : ascii) : bool :=
  let n := N_of_ascii c in (48 <=? n)%N && (n <=? 57)%N.

Fixpoint decimal (acc : Z) (s : string) : Z :=
  match s with
  | EmptyString => acc
  | String c s' => decimal (10 * acc + Z.of_N (N_of_ascii c) - 48) s'
  end.

Fixpoint allDigits (s : string) : bool :=
  match s with
  | EmptyString => true
  | String c s' => isDigit c && allDigits s'
  end.

(** [n, _ := strconv.Atoi(s)] for a string of decimal digits, the only
    strings it is applied to: the value, or the largest [int] when the value
    is out of range. Any other string is given the value of a failed
    conversion, 0. *)
Definition Atoi (s : string) : Z :=
  match s with
  | EmptyString => 0
  | _ => if allDigits s then Z.min (decimal 0 s) maxInt64 else 0
  end.

(** [fmt.Sprintf("%d", n)] *)
Definition Itoa (n : Z) : string := pretty n.

(** *** Package path/filepath (Unix) *)

Definition IsAbs (path : string) : bool := HasPrefix path "/".

(** The elements of a path between its separators; [cur] is the element
    being read. *)
Fixpoint elements (cur : string) (path : string) : list string :=
  match path with
  | EmptyString => [cur]
  | String c path' =>
      if Ascii.eqb c "/" then cur :: elements EmptyString path'
      else elements (cur +:+ String c EmptyString) path'
  end.

(** One element of the path in the loop of [filepath.Clean]; [out] holds
    the elements written so far, the last one first. *)
Definition cleanStep (rooted : bool) (out : list string) (elem : string) : list string :=
  if String.eqb elem EmptyString then out          (* empty path element *)
  else if String.eqb elem "." then out             (* . element *)
  else if String.eqb elem ".." then                (* .. element *)
    match out with
    | last :: out' =>
        if String.eqb last ".." then ".." :: out   (* leading ../.. prefix *)
        else out'                                  (* can backtrack *)
    | [] => if rooted then out else [".."]
    end
  else elem :: out.                                (* real path element *)

Definition Clean (path : string) : string :=
  match path with
  | EmptyString => "."
  | String c _ =>
      let rooted := Ascii.eqb c "/" in
      let out := foldl (cleanStep rooted) [] (elements EmptyString path) in
      let body := String.concat "/" (rev out) in
      if rooted then "/" +:+ body
      else if String.eqb body EmptyString then "." else body
  end.

(** [filepath.Join(a, b)]: empty elements are ignored, the rest is joined
    with separators and cleaned. *)
Definition filepath_Join (a b : string) : string :=
  if negb (String.eqb a EmptyString) then Clean (a +:+ "/" +:+ b)
  else if negb (String.eqb b EmptyString) then Clean b
  else EmptyString.

(** [filepath.Ext]: the suffix of the last element from its final dot. *)
Fixpoint Ext (path : string) : string :=
  match path with
  | EmptyString => EmptyString
  | String c path' =>
      let e := Ext path' in
      if Ascii.eqb c "/" then e
      else if negb (String.eqb e EmptyString) then e
      else if Contains path' "/" then EmptyString
      else if Ascii.eqb c "." then path
      else EmptyString
  end.

(** The order in which [for k, v := range m] visits a map is not specified
    by the language. The runtime's choice is a parameter: any function that
    enumerates each entry of the map once. *)
Class MapRange := {
  range : ∀ V : Type, gmap string V → list (string * V);
  range_perm : ∀ (V : Type) (m : gmap string V), range V m ≡ₚ map_to_list m
}.

Arguments range {_ _} _.

(** One possible runtime: the entries in the order of [map_to_list]. *)
Definition canonicalRange : MapRange :=
  {| range := λ V m, map_to_list m; range_perm := λ V m, reflexivity _ |}.

End Go.

Export Go.

(** ** Wire records (the fields of the OTLP protobuf messages that are read) *)

Inductive AnyValue :=
  | StringValue (s : string)
  | BoolValue (b : bool)
  | IntValue (i : Z)
  | BytesValue (bs : list Byte.byte).

Record KeyValue := mkKeyValue {
  Key : string;
  Value : option AnyValue
}.

(** [attr.GetValue().GetStringValue()]: the empty string unless the value
    is present and is a string. *)
Definition GetStringValue (kv : KeyValue) : string :=
  match Value kv with
  | Some (StringValue s) => s
  | _ => EmptyString
  end.

Record Span_Event := mkEvent {
  ev_Name : string;
  ev_Attributes : list KeyValue
}.

Record Span := mkSpan {
  TraceId : list Byte.byte;
  SpanId : list Byte.byte;
  ParentSpanId : list Byte.byte;
  Name : string;
  Attributes : list KeyValue;
  Events : list Span_Event;
  StartTimeUnixNano : Z;
  EndTimeUnixNano : Z
}.

(** ** Package mcpserver: data model *)

Module mcpserver.

(** CodeSpanContext links spans to source code. *)
Record CodeSpanContext := mkCtx {
  FilePath : string;
  LineStart : Z;
  LineEnd : Z;
  FunctionName : string;
  ctx_SpanID : string;
  ctx_TraceID : string;
  Operation : string;
  CodeSnapshot : string
}.

(** SpanData enriches raw spans with context. *)
Record SpanData := mkSpanData {
  SpanProto : Span;
  sd_Events : list Span_Event;
  ParentID : string;
  Children : list string;
  FileContexts : list CodeSpanContext;
  sd_StartTime : Time;
  sd_EndTime : Time;
  sd_Duration : Duration
}.

(** A [*SpanData]. *)
Abbreviation ptr := nat.

(** TraceData holds complete trace information. *)
Record TraceData := mkTraceData {
  TraceID : string;
  RootSpan : option ptr;
  Spans : gmap string ptr;
  Files : gmap string bool;
  StartTime : Time;
  EndTime : Time;
  Status : string;
  ErrorMessage : string
}.

(** TraceStore manages traces. [objs] holds the [SpanData] objects that the
    pointers in [Spans] and [RootSpan] refer to. *)
Record TraceStore := mkStore {
  objs : list SpanData;
  traces : gmap string TraceData;
  spansByFile : gmap string (list CodeSpanContext);
  maxSpans : Z;
  retention : Duration
}.

(** The store that [NewMCPServer] creates. *)
Definition NewTraceStore (max : Z) (ret : Duration) : TraceStore :=
  mkStore [] ∅ ∅ max ret.

Definition set_Children (cs : list string) (sd : SpanData) : SpanData :=
  mkSpanData (SpanProto sd) (sd_Events sd) (ParentID sd) cs (FileContexts sd)
    (sd_StartTime sd) (sd_EndTime sd) (sd_Duration sd).

Definition set_StartTime (t : Time) (tr : TraceData) : TraceData :=
  mkTraceData (TraceID tr) (RootSpan tr) (Spans tr) (Files tr) t (EndTime tr)
    (Status tr) (ErrorMessage tr).

Definition set_EndTime (t : Time) (tr : TraceData) : TraceData :=
  mkTraceData (TraceID tr) (RootSpan tr) (Spans tr) (Files tr) (StartTime tr) t
    (Status tr) (ErrorMessage tr).

Definition set_Spans (m : gmap string ptr) (tr : TraceData) : TraceData :=
  mkTraceData (TraceID tr) (RootSpan tr) m (Files tr) (StartTime tr) (EndTime tr)
    (Status tr) (ErrorMessage tr).

Definition set_RootSpan (p : option ptr) (tr : TraceData) : TraceData :=
  mkTraceData (TraceID tr) p (Spans tr) (Files tr) (StartTime tr) (EndTime tr)
    (Status tr) (ErrorMessage tr).

Definition set_Files (m : gmap string bool) (tr : TraceData) : TraceData :=
  mkTraceData (TraceID tr) (RootSpan tr) (Spans tr) m (StartTime tr) (EndTime tr)
    (Status tr) (ErrorMessage tr).

Definition set_Status (s : string) (tr : TraceData) : TraceData :=
  mkTraceData (TraceID tr) (RootSpan tr) (Spans tr) (Files tr) (StartTime tr)
    (EndTime tr) s (ErrorMessage tr).

(** [ctx.Operation == "error" || ctx.Operation == "exception"]. *)
Definition isErrorOp (op : string) : bool :=
  String.eqb op "error" || String.eqb op "exception".

(** ** Package mcpserver: the code analyzer *)

(** What [os.Stat] returns: an error for which [os.IsNotExist] holds, any
    other error (the [FileInfo] is nil then, too), or the [FileInfo], of
    which the analyzer reads [IsDir()]. *)
Inductive StatResult :=
  | NotExist
  | StatError
  | FileInfo (isDir : bool).

(** The file system as the analyzer sees it: [stat path] is the result of
    [os.Stat(path)]; [scanLines path] is [None] when the file cannot be
    opened and otherwise the lines that [bufio.Scanner] yields. *)
Record FileSystem := mkFS {
  stat : string → StatResult;
  scanLines : string → option (list string)
}.

(** CodeAnalyzer extracts code context from spans. *)
Record CodeAnalyzer := mkAnalyzer { projectRoot : string }.

(** The pattern [([\w\/\.\-]+\.[\w]+):(\d+)] of [processStackTrace]. The
    classes are ASCII classes, so the match works byte by byte. *)
Definition isWordChar (c : ascii) : bool :=
  let n := N_of_ascii c in
  ((48 <=? n) && (n <=? 57) || (65 <=? n) && (n <=? 90)
   || (97 <=? n) && (n <=? 122) || (n =? 95))%N.

Definition isPathChar (c : ascii) : bool :=
  isWordChar c || Ascii.eqb c "/" || Ascii.eqb c "." || Ascii.eqb c "-".

(** The length of the longest prefix of [s] whose characters satisfy [p]. *)
Fixpoint spanLen (p : ascii → bool) (s : list ascii) : nat :=
  match s with
  | c :: s' => if p c then S (spanLen p s') else O
  | [] => O
  end.

(** [:(\d+)] at the start of [s]: the digits and what follows them. *)
Definition matchLine (s : list ascii) : option (list ascii * list ascii) :=
  match s with
  | c :: s' =>
      if Ascii.eqb c ":" then
        match spanLen isDigit s' with
        | O => None
        | n => Some (take n s', drop n s')
        end
      else None
  | [] => None
  end.

(** [[\w]+:(\d+)] with [m], [m-1], ..., 1 characters for [[\w]+]: the
    greedy repetition gives back one character at a time. *)
Fixpoint matchExtFrom (m : nat) (s : list ascii) : option (nat * list ascii * list ascii) :=
  match m with
  | O => None
  | S m' =>
      match matchLine (drop m s) with
      | Some r => Some (m, r.1, r.2)
      | None => matchExtFrom m' s
      end
  end.

(** [\.[\w]+:(\d+)] at the start of [s]. *)
Definition matchExt (s : list ascii) : option (nat * list ascii * list ascii) :=
  match s with
  | c :: s' =>
      if Ascii.eqb c "." then matchExtFrom (spanLen isWordChar s') s' else None
  | [] => None
  end.

(** The whole pattern with [k], [k-1], ..., 1 characters for the first
    repetition: the text of group 1, of group 2, and what follows. *)
Fixpoint matchPathFrom (k : nat) (s : list ascii)
    : option (list ascii * list ascii * list ascii) :=
  match k with
  | O => None
  | S k' =>
      match matchExt (drop k s) with
      | Some r => Some (take (k + 1 + r.1.1) s, r.1.2, r.2)
      | None => matchPathFrom k' s
      end
  end.

Definition matchAt (s : list ascii) : option (list ascii * list ascii * list ascii) :=
  matchPathFrom (spanLen isPathChar s) s.

(** Successive leftmost matches; each entry is the match and its two
    groups. Every step consumes a character, [n] bounds their number. *)
Fixpoint findAll (n : nat) (s : list ascii) : list (list string) :=
  match n with
  | O => []
  | S n' =>
      match matchAt s with
      | Some r =>
          let g1 := String.string_of_list_ascii r.1.1 in
          let g2 := String.string_of_list_ascii r.1.2 in
          [g1 +:+ ":" +:+ g2; g1; g2] :: findAll n' r.2
      | None =>
          match s with
          | [] => []
          | _ :: s' => findAll n' s'
          end
      end
  end.

(** [fileLineRegex.FindAllStringSubmatch(stackTrace, -1)]. *)
Definition fileLineRegex_FindAll (stackTrace : string) : list (list string) :=
  findAll (S (String.length stackTrace)) (String.list_ascii_of_string stackTrace).

Section Analyzer.
(** The Unicode path of [strings.ToLower]. *)
Variable unicodeToLower : string → string.
(** [regexp.MustCompile(pattern).FindStringSubmatch(s)]. *)
Variable FindStringSubmatch : string → string → list string.
Variable fs : FileSystem.

Abbreviation toLower := (ToLower unicodeToLower).

(** fileExists checks if a file exists and is not a directory. It returns
    early only for an error with [os.IsNotExist]; after any other error
    [info] is nil and [info.IsDir()] panics. A panic is [None], here and in
    the functions of the analyzer that call this one. *)
Definition fileExists (filename : string) : option bool :=
  match stat fs filename with
  | NotExist => Some false
  | StatError => None
  | FileInfo isDir => Some (negb isDir)
  end.

(** On this file system [os.Stat] fails for no other reason than that the
    path does not exist. *)
Definition statNeverFails : Prop := ∀ path, stat fs path ≠ StatError.

(** isFileInProject checks if a file is within the project root. *)
Definition isFileInProject (ca : CodeAnalyzer) (path : string) : bool :=
  if String.eqb (projectRoot ca) EmptyString then true
  else HasPrefix path (projectRoot ca).

(** The pattern that [inferFunctionName] picks for an extension. *)
Definition funcPattern (ext : string) : string :=
  if String.eqb ext ".go" then "func\s+([A-Za-z0-9_]+)"
  else if String.eqb ext ".js" || String.eqb ext ".ts"
          || String.eqb ext ".jsx" || String.eqb ext ".tsx"
  then "function\s+([A-Za-z0-9_]+)|([A-Za-z0-9_]+)\s*=\s*\(.*\)\s*=>|([A-Za-z0-9_]+)\s*\(.*\)\s*{"
  else if String.eqb ext ".py" then "def\s+([A-Za-z0-9_]+)"
  else if String.eqb ext ".java" || String.eqb ext ".kt" || String.eqb ext ".c"
          || String.eqb ext ".cpp" || String.eqb ext ".cc"
  then "[A-Za-z0-9_<>]+\s+([A-Za-z0-9_]+)\s*\("
  else if String.eqb ext ".rb" then "def\s+([A-Za-z0-9_]+)"
  else "function\s+([A-Za-z0-9_]+)|\s+([A-Za-z0-9_]+)\s*\(".

Definition set_FunctionName (f : string) (c : CodeSpanContext) : CodeSpanContext :=
  mkCtx (FilePath c) (LineStart c) (LineEnd c) f (ctx_SpanID c) (ctx_TraceID c)
    (Operation c) (CodeSnapshot c).

Definition set_CodeSnapshot (t : string) (c : CodeSpanContext) : CodeSpanContext :=
  mkCtx (FilePath c) (LineStart c) (LineEnd c) (FunctionName c) (ctx_SpanID c)
    (ctx_TraceID c) (Operation c) t.

Definition set_Lines (ls le : Z) (c : CodeSpanContext) : CodeSpanContext :=
  mkCtx (FilePath c) ls le (FunctionName c) (ctx_SpanID c) (ctx_TraceID c)
    (Operation c) (CodeSnapshot c).

(** inferFunctionName attempts to extract the function name from the code. *)
Definition inferFunctionName (context : CodeSpanContext) : CodeSpanContext :=
  if String.eqb (CodeSnapshot context) EmptyString then context
  else
    let ext := toLower (Ext (FilePath context)) in
    let matches := FindStringSubmatch (funcPattern ext) (CodeSnapshot context) in
    match find (λ m, negb (String.eqb m EmptyString)) (tail matches) with
    | Some name => set_FunctionName name context
    | None => context
    end.

(** The scanner loop of [enrichWithFileContents]; [lineNum] is the number
    of the last line read. *)
Fixpoint scanLoop (lineStart lineEnd : Z) (lineNum : Z) (lines : list string)
    (codeLines : list string) : list string :=
  match lines with
  | [] => codeLines
  | text :: lines' =>
      let lineNum := lineNum + 1 in
      let codeLines :=
        if (lineNum >=? wrap64 (lineStart - 5)) && (lineNum <=? lineEnd)
        then codeLines ++ [Itoa lineNum +:+ ": " +:+ text] else codeLines in
      if lineNum >? lineEnd then codeLines
      else scanLoop lineStart lineEnd lineNum lines' codeLines
  end.

(** enrichWithFileContents, from [os.Open] on: the file is known to
    exist. *)
Definition readFileContents (context : CodeSpanContext) : CodeSpanContext :=
  match scanLines fs (FilePath context) with
  | None => context
  | Some lines =>
      let lineStart := if LineStart context <=? 0 then 1 else LineStart context in
      let lineEnd :=
        if LineEnd context <=? lineStart then wrap64 (lineStart + 20)
        else LineEnd context in
      let lineEnd :=
        if wrap64 (lineEnd - lineStart) >? 50 then wrap64 (lineStart + 50)
        else lineEnd in
      let codeLines := scanLoop lineStart lineEnd 0 lines [] in
      inferFunctionName
        (set_CodeSnapshot (Join codeLines (String "010" EmptyString))
           (set_Lines lineStart lineEnd context))
  end.

(** enrichWithFileContents reads the source file to add code context. The
    [||] of its first test does not call [fileExists] for an empty path. *)
Definition enrichWithFileContents (context : CodeSpanContext)
    : option CodeSpanContext :=
  if String.eqb (FilePath context) EmptyString then Some context
  else
    found ← fileExists (FilePath context);
    if negb found then Some context else Some (readFileContents context).

(** The attribute that names an operation, for the two [inferOperation]
    functions. *)
Fixpoint operationAttr (attrs : list KeyValue) : option string :=
  match attrs with
  | [] => None
  | attr :: attrs' =>
      let attrKey := toLower (Key attr) in
      if (Contains attrKey "operation" || Contains attrKey "action")
         && negb (String.eqb (GetStringValue attr) EmptyString)
      then Some (toLower (GetStringValue attr))
      else operationAttr attrs'
  end.

(** inferOperationFromSpan guesses the operation type based on span
    attributes and name. *)
Definition inferOperationFromSpan (span : Span) : string :=
  let spanName := toLower (Name span) in
  if Contains spanName "read" || Contains spanName "get" then "read"
  else if Contains spanName "write" || Contains spanName "put"
          || Contains spanName "save" || Contains spanName "update" then "write"
  else if Contains spanName "exec" || Contains spanName "run" then "exec"
  else if Contains spanName "delete" || Contains spanName "remove" then "delete"
  else default "unknown" (operationAttr (Attributes span)).

(** inferOperationFromEvent guesses the operation type based on event
    attributes and name. *)
Definition inferOperationFromEvent (event : Span_Event) : string :=
  let eventName := toLower (ev_Name event) in
  if Contains eventName "read" || Contains eventName "get" then "read"
  else if Contains eventName "write" || Contains eventName "put"
          || Contains eventName "save" || Contains eventName "update" then "write"
  else if Contains eventName "exec" || Contains eventName "run" then "exec"
  else if Contains eventName "delete" || Contains eventName "remove" then "delete"
  else if Contains eventName "error" || Contains eventName "exception" then "error"
  else default "unknown" (operationAttr (ev_Attributes event)).

(** The test both [extractFilePaths] functions apply to an attribute. *)
Definition isFileAttr (ca : CodeAnalyzer) (attr : KeyValue) : bool :=
  (Contains (toLower (Key attr)) "file" || Contains (toLower (Key attr)) "path")
  && negb (String.eqb (GetStringValue attr) EmptyString)
  && IsAbs (GetStringValue attr) && isFileInProject ca (GetStringValue attr).

(** [ca.enrichWithFileContents(context); contexts = append(contexts,
    context)], the end of an iteration of each loop of the analyzer that
    finds a context: [acc] is [contexts], or [None] after a panic. *)
Definition appendEnriched (acc : option (list CodeSpanContext))
    (context : CodeSpanContext) : option (list CodeSpanContext) :=
  contexts ← acc;
  context ← enrichWithFileContents context;
  Some (contexts ++ [context]).

(** extractFilePathsFromSpan looks for file paths in span attributes. *)
Definition extractFilePathsFromSpan (ca : CodeAnalyzer) (span : Span)
    : option (list CodeSpanContext) :=
  foldl (λ contexts attr,
           if isFileAttr ca attr then
             appendEnriched contexts
               (mkCtx (GetStringValue attr) 0 0 EmptyString
                  (Sprintf_x (SpanId span)) (Sprintf_x (TraceId span))
                  (inferOperationFromSpan span) EmptyString)
           else contexts)
    (Some []) (Attributes span).

(** extractFilePathsFromEvent looks for file paths in event attributes. *)
Definition extractFilePathsFromEvent (ca : CodeAnalyzer) (event : Span_Event)
    : option (list CodeSpanContext) :=
  foldl (λ contexts attr,
           if isFileAttr ca attr then
             appendEnriched contexts
               (mkCtx (GetStringValue attr) 0 0 EmptyString
                  EmptyString EmptyString
                  (inferOperationFromEvent event) EmptyString)
           else contexts)
    (Some []) (ev_Attributes event).

(** "Look for stack trace in event attributes": the value of the first
    attribute with that key. *)
Fixpoint findStackTrace (attrs : list KeyValue) : string :=
  match attrs with
  | [] => EmptyString
  | attr :: attrs' =>
      if String.eqb (toLower (Key attr)) "stack_trace"
         || String.eqb (toLower (Key attr)) "stacktrace"
      then GetStringValue attr
      else findStackTrace attrs'
  end.

(** One match of the pattern in [processStackTrace]. *)
Definition stackTraceStep (ca : CodeAnalyzer)
    (contexts : option (list CodeSpanContext)) (m : list string)
    : option (list CodeSpanContext) :=
  match m with
  | _ :: m1 :: m2 :: _ =>
      let lineNum := Atoi m2 in
      let filePath :=
        if negb (IsAbs m1) then filepath_Join (projectRoot ca) m1 else m1 in
      if isFileInProject ca filePath then
        appendEnriched contexts
          (mkCtx filePath lineNum (wrap64 (lineNum + 10)) EmptyString
             EmptyString EmptyString "exception" EmptyString)
      else contexts
  | _ => contexts
  end.

(** processStackTrace extracts file paths and line numbers from stack
    traces. *)
Definition processStackTrace (ca : CodeAnalyzer) (event : Span_Event)
    : option (list CodeSpanContext) :=
  let stackTrace := findStackTrace (ev_Attributes event) in
  if String.eqb stackTrace EmptyString then Some []
  else foldl (stackTraceStep ca) (Some []) (fileLineRegex_FindAll stackTrace).

(** The contexts one event contributes in [AnalyzeSpan]. *)
Definition analyzeEvent (ca : CodeAnalyzer) (event : Span_Event)
    : option (list CodeSpanContext) :=
  stackTraceContexts ←
    (if String.eqb (ev_Name event) "exception"
        || Contains (toLower (ev_Name event)) "error"
     then processStackTrace ca event else Some []);
  fileOpContexts ← extractFilePathsFromEvent ca event;
  Some (stackTraceContexts ++ fileOpContexts).

(** AnalyzeSpan examines a span and its events to extract code context. *)
Definition AnalyzeSpan (ca : CodeAnalyzer) (span : Span) (events : list Span_Event)
    : option (list CodeSpanContext) :=
  foldl (λ acc event,
           contexts ← acc;
           found ← analyzeEvent ca event;
           Some (contexts ++ found))
    (extractFilePathsFromSpan ca span) events.

End Analyzer.

(** A context carries the hex ids of [span], or no id at all. *)
Definition carriesIds (span : Span) (c : CodeSpanContext) : Prop :=
  ctx_TraceID c = EncodeToString (TraceId span)
  ∧ ctx_SpanID c = EncodeToString (SpanId span).

Definition carriesNoIds (c : CodeSpanContext) : Prop :=
  ctx_TraceID c = EmptyString ∧ ctx_SpanID c = EmptyString.

(** The lines of a file with their numbers; [n] is the number of the line
    before the first of [lines]. *)
Fixpoint numberedFrom (n : Z) (lines : list string) : list (Z * string) :=
  match lines with
  | [] => []
  | text :: lines' => (n + 1, text) :: numberedFrom (n + 1) lines'
  end.

(** The first line of a file is line 1. *)
Definition numbered (lines : list string) : list (Z * string) := numberedFrom 0 lines.

(** A numbered line lies in the window from line [lo] to line [hi]. *)
Definition inWindow (lo hi : Z) (p : Z * string) : Prop := lo ≤ p.1 ∧ p.1 ≤ hi.

Global Instance inWindow_dec lo hi p : Decision (inWindow lo hi p).
Proof. unfold inWindow. apply _. Defined.

(** [fmt.Sprintf("%d: %s", lineNum, scanner.Text())]. *)
Definition snapshotLine (p : Z * string) : string := Itoa p.1 +:+ ": " +:+ p.2.

(** ** Package mcpserver: the trace store *)

(** The ids [AddSpan] files a span under. *)
Abbreviation traceIDOf sd := (EncodeToString (TraceId (SpanProto sd))).
Abbreviation spanIDOf sd := (EncodeToString (SpanId (SpanProto sd))).

Section Store.
Context `{MapRange}.

(** [parent.Children = append(parent.Children, spanID)]. *)
Definition appendChild (spanID : string) (sd : SpanData) : SpanData :=
  set_Children (Children sd ++ [spanID]) sd.

(** One iteration of the loop over [spanData.FileContexts] in [AddSpan]. *)
Definition addFileContext
    (st : gmap string (list CodeSpanContext) * TraceData)
    (fileCtx : CodeSpanContext) : gmap string (list CodeSpanContext) * TraceData :=
  let byFile := st.1 in
  let trace := st.2 in
  let filePath := FilePath fileCtx in
  let byFile := <[filePath := default [] (byFile !! filePath) ++ [fileCtx]]> byFile in
  let trace := set_Files (<[filePath := true]> (Files trace)) trace in
  let trace :=
    if isErrorOp (Operation fileCtx) then set_Status "error" trace else trace in
  (byFile, trace).

(** "Get or create trace". *)
Definition getOrCreateTrace (spanData : SpanData) (store : TraceStore) : TraceData :=
  let traceID := EncodeToString (TraceId (SpanProto spanData)) in
  match traces store !! traceID with
  | Some trace => trace
  | None =>
      mkTraceData traceID None ∅ ∅ (sd_StartTime spanData) (sd_EndTime spanData)
        EmptyString EmptyString
  end.

(** "Update trace start/end times if needed". *)
Definition updateTimes (spanData : SpanData) (trace : TraceData) : TraceData :=
  let trace :=
    if Before (sd_StartTime spanData) (StartTime trace)
    then set_StartTime (sd_StartTime spanData) trace else trace in
  if After (sd_EndTime spanData) (EndTime trace)
  then set_EndTime (sd_EndTime spanData) trace else trace.

Definition isRootSpan (spanData : SpanData) : bool :=
  (String.length (ParentID spanData) =? 0)%nat
  || String.eqb (ParentID spanData) "0000000000000000".

(** The span [p], already stored in [trace.Spans], becomes the root span
    of the trace or a child of its parent, when the parent is stored. *)
Definition linkSpan (spanData : SpanData) (spanID : string) (p : ptr)
    (trace : TraceData) (objs1 : list SpanData) : TraceData * list SpanData :=
  if isRootSpan spanData then (set_RootSpan (Some p) trace, objs1)
  else
    match Spans trace !! ParentID spanData with
    | Some parent => (trace, alter (appendChild spanID) parent objs1)
    | None => (trace, objs1)
    end.

(** [AddSpan] up to the call of [cleanupOldTraces]. The argument is the
    object [spanData] points to; [HandleSpan] allocates one per incoming
    span, and the model allocates it here, at the end of [objs]. *)
Definition AddSpan_write (spanData : SpanData) (store : TraceStore) : TraceStore :=
  let p : ptr := length (objs store) in
  let objs1 := objs store ++ [spanData] in
  let traceID := EncodeToString (TraceId (SpanProto spanData)) in
  let spanID := EncodeToString (SpanId (SpanProto spanData)) in
  let trace := updateTimes spanData (getOrCreateTrace spanData store) in
  (* Add span to trace *)
  let trace := set_Spans (<[spanID := p]> (Spans trace)) trace in
  let linked := linkSpan spanData spanID p trace objs1 in
  (* Process file contexts *)
  let indexed :=
    foldl addFileContext (spansByFile store, linked.1) (FileContexts spanData) in
  mkStore linked.2 (<[traceID := indexed.2]> (traces store)) indexed.1
    (maxSpans store) (retention store).

(** *** Eviction *)

Record traceAge := mkTraceAge { ta_id : string; ta_age : Time }.

(** The sort of [ages] in [cleanupOldTraces] is an exchange sort:
    for each [i], [ages[i]] is compared with every later [ages[j]] and
    swapped with it when it is after it. [sort_inner cur rest] is the inner
    loop for one [i]: [cur] is [ages[i]], [rest] is [ages[i+1..]]; it
    returns the final [ages[i]] and [ages[i+1..]]. *)
Fixpoint sort_inner (cur : traceAge) (rest : list traceAge) : traceAge * list traceAge :=
  match rest with
  | [] => (cur, [])
  | y :: rest' =>
      if After (ta_age cur) (ta_age y)
      then let r := sort_inner y rest' in (r.1, cur :: r.2)
      else let r := sort_inner cur rest' in (r.1, y :: r.2)
  end.

(** The outer loop; [n] bounds the number of positions still to fill. *)
Fixpoint sort_outer (n : nat) (ages : list traceAge) : list traceAge :=
  match n, ages with
  | S n', x :: rest =>
      let r := sort_inner x rest in r.1 :: sort_outer n' r.2
  | _, _ => ages
  end.

Definition sort_ages (ages : list traceAge) : list traceAge :=
  sort_outer (length ages) ages.

(** [len(store.traces[id].Spans)]; [id] is always a key of the map where
    this is used. *)
Definition spanCount (store : TraceStore) (id : string) : Z :=
  match traces store !! id with
  | Some trace => Z.of_nat (size (Spans trace))
  | None => 0
  end.

(** "Check retention time": the age of the trace exceeds the retention. *)
Definition expired (now : Time) (store : TraceStore) (trace : TraceData) : bool :=
  (retention store >? 0) && (Sub now (EndTime trace) >? retention store).

(** The first loop: count spans and find the traces past retention. *)
Definition retentionStep (now : Time) (store : TraceStore)
    (acc : list string * Z) (kv : string * TraceData) : list string * Z :=
  let totalSpans := acc.2 + Z.of_nat (size (Spans kv.2)) in
  if expired now store kv.2
  then (acc.1 ++ [kv.1], totalSpans)
  else (acc.1, totalSpans).

Definition retentionPass (now : Time) (store : TraceStore) : list string * Z :=
  foldl (retentionStep now store) ([], 0) (range (traces store)).

(** "Take enough old traces to get under the limit". *)
Fixpoint takeOldest (store : TraceStore) (ages : list traceAge)
    (totalSpans : Z) (oldTraceIDs : list string) : list string :=
  match ages with
  | [] => oldTraceIDs
  | ta :: ages' =>
      if totalSpans <=? maxSpans store then oldTraceIDs
      else takeOldest store ages' (totalSpans - spanCount store (ta_id ta))
             (oldTraceIDs ++ [ta_id ta])
  end.

(** "Find the oldest traces": the id and end time of every trace. *)
Definition agesOf (store : TraceStore) : list traceAge :=
  (λ kv : string * TraceData, mkTraceAge kv.1 (EndTime kv.2)) <$> range (traces store).

(** The size pass: runs when the cap is exceeded and the retention pass
    found nothing. *)
Definition sizePass (store : TraceStore) (oldTraceIDs : list string)
    (totalSpans : Z) : list string :=
  if (maxSpans store >? 0) && (totalSpans >? maxSpans store) then
    match oldTraceIDs with
    | [] => takeOldest store (sort_ages (agesOf store)) totalSpans oldTraceIDs
    | _ :: _ => oldTraceIDs
    end
  else oldTraceIDs.

(** Removing the contexts of trace [id] from the bucket of one file. *)
Definition removeFromFileIndex (id : string)
    (byFile : gmap string (list CodeSpanContext)) (file : string)
    : gmap string (list CodeSpanContext) :=
  let newSpans := filter (λ sc, ctx_TraceID sc ≠ id) (default [] (byFile !! file)) in
  match newSpans with
  | _ :: _ => <[file := newSpans]> byFile
  | [] => delete file byFile
  end.

(** One iteration of the removal loop. [id] comes from the map, so the
    lookup succeeds. *)
Definition removeTrace (store : TraceStore) (id : string) : TraceStore :=
  match traces store !! id with
  | Some trace =>
      let byFile :=
        foldl (λ bf kv, removeFromFileIndex id bf kv.1)
          (spansByFile store) (range (Files trace)) in
      mkStore (objs store) (delete id (traces store)) byFile
        (maxSpans store) (retention store)
  | None => store
  end.

(** The trace ids that one sweep marks for removal. *)
Definition markedForRemoval (now : Time) (store : TraceStore) : list string :=
  let r := retentionPass now store in
  sizePass store r.1 r.2.

(** cleanupOldTraces removes old traces based on retention time and max
    spans limit. [now] is the reading of [time.Now()]. *)
Definition cleanupOldTraces (now : Time) (store : TraceStore) : TraceStore :=
  if (maxSpans store <=? 0) && (retention store <=? 0) then store
  else foldl removeTrace store (markedForRemoval now store).

(** AddSpan adds a span to the trace store. *)
Definition AddSpan (now : Time) (spanData : SpanData) (store : TraceStore) : TraceStore :=
  cleanupOldTraces now (AddSpan_write spanData store).

(** *** Queries *)

Definition GetTrace (store : TraceStore) (traceID : string) : option TraceData :=
  traces store !! traceID.

Definition GetSpanPtr (store : TraceStore) (traceID spanID : string) : option ptr :=
  match traces store !! traceID with
  | None => None
  | Some trace => Spans trace !! spanID
  end.

(** GetSpan, followed by the dereference of the pointer it returns. *)
Definition GetSpan (store : TraceStore) (traceID spanID : string) : option SpanData :=
  match GetSpanPtr store traceID spanID with
  | None => None
  | Some p => objs store !! p
  end.

Definition GetFileTraces (store : TraceStore) (filePath : string)
    : gmap string (list CodeSpanContext) :=
  foldl (λ result sc,
           <[ctx_TraceID sc := default [] (result !! ctx_TraceID sc) ++ [sc]]> result)
        ∅ (default [] (spansByFile store !! filePath)).

Definition ListFiles (store : TraceStore) : list string :=
  (range (spansByFile store)).*1.

(** *** Digests and search *)

(** TraceDigest provides key information about a trace. [Duration] is a
    [float64] holding a whole number of milliseconds, kept as an integer. *)
Record TraceDigest := mkDigest {
  d_TraceID : string;
  d_Name : string;
  d_Duration : Z;
  d_SpanCount : Z;
  d_ErrorCount : Z;
  d_Files : list string;
  d_StartTime : Time;
  d_KeyEvents : list string
}.

(** FileInsight provides code-centric insights. *)
Record FileInsight := mkInsight {
  fi_FilePath : string;
  HotspotLines : list Z;
  ErrorLines : list Z;
  Related : list string
}.

(** SearchRequest defines parameters for trace queries. *)
Record SearchRequest := mkSearchRequest {
  Query : string;
  req_Files : list string;
  TimeRange : string;
  ErrorsOnly : bool;
  Limit : Z
}.

(** SearchResponse provides AI-friendly trace data. *)
Record SearchResponse := mkSearchResponse {
  resp_Traces : list TraceDigest;
  FileInsights : gmap string FileInsight;
  Summary : string
}.

(** The spans of a trace, in the order [range trace.Spans] visits them. *)
Definition spansOf (store : TraceStore) (trace : TraceData) : list SpanData :=
  omap (λ kv : string * ptr, objs store !! kv.2) (range (Spans trace)).

(** The name of the root span, if the trace has one. *)
Definition rootName (store : TraceStore) (trace : TraceData) : string :=
  match RootSpan trace with
  | Some p =>
      match objs store !! p with
      | Some root => Name (SpanProto root)
      | None => EmptyString
      end
  | None => EmptyString
  end.

Definition newDigest (store : TraceStore) (id : string) (trace : TraceData) : TraceDigest :=
  mkDigest id (rootName store trace)
    (Milliseconds (Sub (EndTime trace) (StartTime trace)))
    (Z.of_nat (size (Spans trace))) 0 [] (StartTime trace) [].

Definition add_Files (file : string) (d : TraceDigest) : TraceDigest :=
  mkDigest (d_TraceID d) (d_Name d) (d_Duration d) (d_SpanCount d) (d_ErrorCount d)
    (d_Files d ++ [file]) (d_StartTime d) (d_KeyEvents d).

Definition incr_ErrorCount (d : TraceDigest) : TraceDigest :=
  mkDigest (d_TraceID d) (d_Name d) (d_Duration d) (d_SpanCount d) (d_ErrorCount d + 1)
    (d_Files d) (d_StartTime d) (d_KeyEvents d).

(** ListTraces returns summaries of all traces. *)
Definition listDigest (store : TraceStore) (kv : string * TraceData) : TraceDigest :=
  let digest := newDigest store kv.1 kv.2 in
  let digest := foldl (λ d fv, add_Files fv.1 d) digest (range (Files kv.2)) in
  foldl (λ d span,
           foldl (λ d ctx, if isErrorOp (Operation ctx) then incr_ErrorCount d else d)
             d (FileContexts span))
    digest (spansOf store kv.2).

Definition ListTraces (store : TraceStore) : list TraceDigest :=
  listDigest store <$> range (traces store).

Section Search.
(** [time.ParseDuration], with [None] for a parse error. *)
Variable ParseDuration : string → option Duration.

(** "Process file filters": [nil] when no file is listed. *)
Definition fileSetOf (req : SearchRequest) : option (gmap string bool) :=
  match req_Files req with
  | [] => None
  | files => Some (foldl (λ fs f, <[f := true]> fs) ∅ files)
  end.

(** "Process time range filter": the zero time unless a range parses. *)
Definition minTimeOf (now : Time) (req : SearchRequest) : Time :=
  if String.eqb (TimeRange req) EmptyString then zeroTime
  else match ParseDuration (TimeRange req) with
       | Some duration => Add now (wrap64 (- duration))
       | None => zeroTime
       end.

(** The loop that sets [hasMatchingFile]. *)
Definition hasMatchingFile (fileSet : gmap string bool) (trace : TraceData) : bool :=
  existsb (λ fv : string * bool, default false (fileSet !! fv.1)) (range (Files trace)).

(** The three filters of the search loop, in the order of the source. *)
Definition outsideTimeRange (minTime : Time) (trace : TraceData) : bool :=
  negb (IsZero minTime) && Before (EndTime trace) minTime.

Definition failsErrorsOnly (req : SearchRequest) (trace : TraceData) : bool :=
  ErrorsOnly req && negb (String.eqb (Status trace) "error").

Definition failsFileFilter (fileSet : option (gmap string bool)) (trace : TraceData) : bool :=
  match fileSet with
  | Some fs => negb (hasMatchingFile fs trace)
  | None => false
  end.

(** "Collect hotspots and errors" for one context of one span. *)
Definition insightStep (trace : TraceData) (file : string)
    (acc : TraceDigest * FileInsight) (ctx : CodeSpanContext) : TraceDigest * FileInsight :=
  if String.eqb (FilePath ctx) file then
    let '(digest, insight) :=
      if isErrorOp (Operation ctx)
      then (incr_ErrorCount acc.1,
            mkInsight (fi_FilePath acc.2) (HotspotLines acc.2)
              (ErrorLines acc.2 ++ [LineStart ctx]) (Related acc.2))
      else acc in
    let insight :=
      mkInsight (fi_FilePath insight) (HotspotLines insight ++ [LineStart ctx])
        (ErrorLines insight) (Related insight) in
    let related :=
      foldl (λ rel (ov : string * bool),
               if String.eqb ov.1 file then rel else rel ++ [ov.1])
        (Related insight) (range (Files trace)) in
    (digest, mkInsight (fi_FilePath insight) (HotspotLines insight)
               (ErrorLines insight) related)
  else acc.

(** "Get files and build insights" for one file of the trace. *)
Definition fileStep (store : TraceStore) (trace : TraceData)
    (acc : TraceDigest * gmap string FileInsight) (fv : string * bool)
    : TraceDigest * gmap string FileInsight :=
  let file := fv.1 in
  let digest := add_Files file acc.1 in
  let insight := default (mkInsight file [] [] []) (acc.2 !! file) in
  let r :=
    foldl (λ a span, foldl (insightStep trace file) a (FileContexts span))
      (digest, insight) (spansOf store trace) in
  (r.1, <[file := r.2]> acc.2).

(** The body of the search loop; [continue] leaves the accumulators as they
    are, [break] drops the rest of the iteration. *)
Fixpoint searchLoop (store : TraceStore) (req : SearchRequest)
    (fileSet : option (gmap string bool)) (minTime : Time)
    (items : list (string * TraceData))
    (found : list TraceDigest) (fileInsights : gmap string FileInsight)
    : list TraceDigest * gmap string FileInsight :=
  match items with
  | [] => (found, fileInsights)
  | kv :: items' =>
      if outsideTimeRange minTime kv.2
      then searchLoop store req fileSet minTime items' found fileInsights
      else if failsErrorsOnly req kv.2
      then searchLoop store req fileSet minTime items' found fileInsights
      else if failsFileFilter fileSet kv.2
      then searchLoop store req fileSet minTime items' found fileInsights
      else
        let r := foldl (fileStep store kv.2)
                   (newDigest store kv.1 kv.2, fileInsights) (range (Files kv.2)) in
        let found := found ++ [r.1] in
        if (Limit req >? 0) && (Z.of_nat (length found) >=? Limit req)
        then (found, r.2)
        else searchLoop store req fileSet minTime items' found r.2
  end.

(** A trace passes the three filters. *)
Definition matchesSearch (req : SearchRequest) (fileSet : option (gmap string bool))
    (minTime : Time) (trace : TraceData) : bool :=
  negb (outsideTimeRange minTime trace)
  && negb (failsErrorsOnly req trace)
  && negb (failsFileFilter fileSet trace).

(** The first [limit] entries of a list, all of them without a limit. *)
Definition capped {A : Type} (limit : Z) (l : list A) : list A :=
  if limit >? 0 then take (Z.to_nat limit) l else l.

(** SearchTraces performs a search across traces based on the given
    criteria. *)
Definition SearchTraces (now : Time) (store : TraceStore) (req : SearchRequest)
    : SearchResponse :=
  let r := searchLoop store req (fileSetOf req) (minTimeOf now req)
             (range (traces store)) [] ∅ in
  mkSearchResponse r.1 r.2 EmptyString.

End Search.

(** *** Notions used to state the properties of the store *)

(** A sequence of [AddSpan] calls, each with its reading of the clock. *)
Definition AddSpans (adds : list (Time * SpanData)) (store : TraceStore) : TraceStore :=
  foldl (λ st a, AddSpan a.1 a.2 st) store adds.

(** Every pointer of the store refers to an allocated object. *)
Definition ptrsValid (store : TraceStore) : Prop :=
  ∀ id trace sid p,
    traces store !! id = Some trace → Spans trace !! sid = Some p →
    (p < length (objs store))%nat.

(** No stored trace is without spans. *)
Definition tracesNonEmpty (store : TraceStore) : Prop :=
  ∀ id trace, traces store !! id = Some trace → (0 < size (Spans trace))%nat.

(** The record a write stores for the span: the argument, with its own id
    among its children when it names itself as parent. *)
Definition storedRecord (sd : SpanData) : SpanData :=
  if negb (isRootSpan sd) && String.eqb (ParentID sd) (spanIDOf sd)
  then appendChild (spanIDOf sd) sd else sd.

(** How often [id] occurs in a list of children. *)
Definition occurrences (id : string) (children : list string) : nat :=
  length (filter (λ c, c = id) children).

(** The number of spans in a list of traces, and in the store. *)
Definition sumSpans (l : list (string * TraceData)) : Z :=
  foldr (λ kv acc, Z.of_nat (size (Spans kv.2)) + acc) 0 l.

Definition totalSpans (store : TraceStore) : Z :=
  sumSpans (map_to_list (traces store)).

(** The spans of the traces with the given ids. *)
Definition sumCounts (store : TraceStore) (ids : list string) : Z :=
  foldr (λ id acc, spanCount store id + acc) 0 ids.

(** The order of the sorted ages. *)
Definition olderEq (a b : traceAge) : Prop := ta_age a ≤ ta_age b.

(** [store.spansByFile[filePath]]: the contexts indexed under a file, none
    for a file that is no key of the index. *)
Definition fileBucket (store : TraceStore) (filePath : string) : list CodeSpanContext :=
  default [] (spansByFile store !! filePath).

(** No file is indexed with an empty list of contexts. *)
Definition noEmptyBucket (store : TraceStore) : Prop :=
  ∀ f l, spansByFile store !! f = Some l → l ≠ [].

(** The window of every trace covers the spans stored in it. *)
Definition windowCovers (store : TraceStore) : Prop :=
  ∀ id trace sid p sd,
    traces store !! id = Some trace → Spans trace !! sid = Some p →
    objs store !! p = Some sd →
    StartTime trace ≤ sd_StartTime sd ∧ sd_EndTime sd ≤ EndTime trace.

(** No object is the span of two traces or of two span ids. *)
Definition ptrsDistinct (store : TraceStore) : Prop :=
  ∀ id1 id2 t1 t2 sid1 sid2 p,
    traces store !! id1 = Some t1 → Spans t1 !! sid1 = Some p →
    traces store !! id2 = Some t2 → Spans t2 !! sid2 = Some p →
    id1 = id2 ∧ sid1 = sid2.

(** The contexts with an error or exception operation among the contexts
    of some spans. *)
Definition errorCount (spans : list SpanData) : Z :=
  Z.of_nat (length (filter (λ c, isErrorOp (Operation c) = true)
                      (spans ≫= FileContexts))).

(** *** The REST handlers *)

(** What a handler writes: [http.Error] with a message and a status code,
    or a JSON document with status 200. *)
Inductive Reply (A : Type) :=
  | httpError (message : string) (code : Z)
  | jsonBody (a : A).
Global Arguments httpError {A} _ _.
Global Arguments jsonBody {A} _.

Definition StatusNotFound : Z := 404.

(** handleListTraces lists all traces in the store. *)
Definition handleListTraces (store : TraceStore) : Reply (list TraceDigest) :=
  jsonBody (ListTraces store).

(** handleListFiles returns all files that have associated spans. *)
Definition handleListFiles (store : TraceStore) : Reply (list string) :=
  jsonBody (ListFiles store).

(** handleGetFileTraces returns all traces associated with a specific
    file; [urlPath] is [r.URL.Path]. *)
Definition handleGetFileTraces (store : TraceStore) (urlPath : string)
    : Reply (gmap string (list CodeSpanContext)) :=
  let filePath := TrimPrefix urlPath "/api/file/" in
  let fileTraces := GetFileTraces store filePath in
  if (size fileTraces =? 0)%nat
  then httpError "File not found in any traces" StatusNotFound
  else jsonBody fileTraces.

(** The [CheckOrigin] function of the websocket upgrader that
    [NewMCPServer] builds from [config.AllowedOrigins]; [requestOrigin] is
    [r.Header.Get("Origin")]. *)
Fixpoint CheckOrigin (allowedOrigins : list string) (requestOrigin : string) : bool :=
  match allowedOrigins with
  | [] => false
  | origin :: rest =>
      if String.eqb origin "*" then true
      else if String.eqb origin requestOrigin then true
      else CheckOrigin rest requestOrigin
  end.

End Store.

(** *** Ingestion *)

Section Ingest.
Variable unicodeToLower : string → string.
Variable FindStringSubmatch : string → string → list string.
Variable fs : FileSystem.
Context `{MapRange}.

(** HandleSpan processes incoming spans from the OTLP server: the span is
    analyzed and added to the store. (The notification of the websocket
    clients does not touch the store and is left out.) When the analyzer
    panics, the store has not been touched: the result is [None]. *)
Definition HandleSpan (ca : CodeAnalyzer) (now : Time) (span : Span)
    (events : list Span_Event) (store : TraceStore) : option TraceStore :=
  let startTime := Unix0 (StartTimeUnixNano span) in
  let endTime := Unix0 (EndTimeUnixNano span) in
  fileContexts ← AnalyzeSpan unicodeToLower FindStringSubmatch fs ca span events;
  let spanData :=
    mkSpanData span events (EncodeToString (ParentSpanId span)) []
      fileContexts startTime endTime (Sub endTime startTime) in
  Some (AddSpan now spanData store).

End Ingest.

End mcpserver.

(** ** Package otlpserver *)

Module otlpserver.

(** The wire envelopes, down to the records the callbacks receive. *)
Record ScopeSpans := mkScopeSpans { Spans : list Span }.
Record ResourceSpans := mkResourceSpans {
  rs_Resource : list KeyValue;
  rs_ScopeSpans : list ScopeSpans
}.
Record ExportTraceServiceRequest := mkTraceRequest {
  req_ResourceSpans : list ResourceSpans
}.

Record LogRecord := mkLogRecord {
  lr_TimeUnixNano : Z;
  lr_SeverityText : string;
  lr_Body : option AnyValue;
  lr_Attributes : list KeyValue
}.
Record ScopeLogs := mkScopeLogs { LogRecords : list LogRecord }.
Record ResourceLogs := mkResourceLogs {
  rl_Resource : list KeyValue;
  rl_ScopeLogs : list ScopeLogs
}.
Record ExportLogsServiceRequest := mkLogsRequest {
  req_ResourceLogs : list ResourceLogs
}.

(** What a callback is called with, kept as a log of the calls made. *)
Inductive Call :=
  | TraceCall (span : Span) (events : list Span_Event) (rs : ResourceSpans)
      (headers meta : gmap string string)
  | LogCall (record : LogRecord) (rl : ResourceLogs)
      (headers meta : gmap string string).

Section Callbacks.
(** The state of the application behind the callbacks. A callback reads
    and updates it and answers whether the server should stop. *)
Context {App : Type}.

Definition TraceCallback : Type :=
  App → Span → list Span_Event → ResourceSpans →
  gmap string string → gmap string string → App * bool.

Definition LogCallback : Type :=
  App → LogRecord → ResourceLogs →
  gmap string string → gmap string string → App * bool.

(** A loop whose body can return from the function: the state after the
    last iteration run, and whether the body returned [true]. *)
Fixpoint untilDone {X S : Type} (body : S → X → S * bool) (xs : list X) (st : S)
    : S * bool :=
  match xs with
  | [] => (st, false)
  | x :: xs' =>
      let r := body st x in
      if r.2 then (r.1, true) else untilDone body xs' r.1
  end.

(** doCallback unwraps the OTLP service request and calls the callback for
    each span in the request. *)
Definition doCallback (cb : TraceCallback) (req : ExportTraceServiceRequest)
    (headers serverMeta : gmap string string) (st : App * list Call)
    : (App * list Call) * bool :=
  untilDone (λ st resource,
    untilDone (λ st ss,
      untilDone (λ (st : App * list Call) span,
        let events := Events span in
        let r := cb st.1 span events resource headers serverMeta in
        ((r.1, st.2 ++ [TraceCall span events resource headers serverMeta]), r.2))
        (Spans ss) st)
      (rs_ScopeSpans resource) st)
    (req_ResourceSpans req) st.

(** doLogCallback unwraps the OTLP logs service request and calls the
    callback for each log record in the request. *)
Definition doLogCallback (cb : LogCallback) (req : ExportLogsServiceRequest)
    (headers serverMeta : gmap string string) (st : App * list Call)
    : (App * list Call) * bool :=
  untilDone (λ st resource,
    untilDone (λ st sl,
      untilDone (λ (st : App * list Call) logRecord,
        let r := cb st.1 logRecord resource headers serverMeta in
        ((r.1, st.2 ++ [LogCall logRecord resource headers serverMeta]), r.2))
        (LogRecords sl) st)
      (rl_ScopeLogs resource) st)
    (req_ResourceLogs req) st.

(** The spans of a request in the order the loops of [doCallback] visit
    them, each with the resource it came under. *)
Definition requestSpans (req : ExportTraceServiceRequest) : list (Span * ResourceSpans) :=
  req_ResourceSpans req ≫= λ resource,
    rs_ScopeSpans resource ≫= λ ss,
      (λ span, (span, resource)) <$> Spans ss.

(** The log records of a request, in the order of [doLogCallback]. *)
Definition requestLogs (req : ExportLogsServiceRequest) : list (LogRecord * ResourceLogs) :=
  req_ResourceLogs req ≫= λ resource,
    rl_ScopeLogs resource ≫= λ sl,
      (λ record, (record, resource)) <$> LogRecords sl.

(** The innermost loop body of [doCallback] and of [doLogCallback]: one
    call of the callback, logged. *)
Definition deliver (cb : TraceCallback) (headers meta : gmap string string)
    (st : App * list Call) (x : Span * ResourceSpans) : (App * list Call) * bool :=
  let r := cb st.1 x.1 (Events x.1) x.2 headers meta in
  ((r.1, st.2 ++ [TraceCall x.1 (Events x.1) x.2 headers meta]), r.2).

Definition deliverLog (cb : LogCallback) (headers meta : gmap string string)
    (st : App * list Call) (x : LogRecord * ResourceLogs) : (App * list Call) * bool :=
  let r := cb st.1 x.1 x.2 headers meta in
  ((r.1, st.2 ++ [LogCall x.1 x.2 headers meta]), r.2).

(** *** The HTTP backend *)

(** An [http.Request]: the fields the handlers read. [Body] is the result
    of [io.ReadAll(req.Body)], [None] when the read fails. The keys of
    [Header] are in canonical form, as the server stores them. *)
Record Request := mkRequest {
  Method : string;
  Proto : string;
  Host : string;
  RequestURI : string;
  Header : gmap string (list string);
  Body : option (list Byte.byte)
}.

(** [req.Header.Get(key)]: the first value of the key, or the empty
    string. *)
Definition Header_Get (h : gmap string (list string)) (key : string) : string :=
  match h !! key with
  | Some (v :: _) => v
  | _ => EmptyString
  end.

(** HttpServer is a handle for otlp over http/protobuf. *)
Record HttpServer := mkHttpServer {
  traceCallback : TraceCallback;
  logCallback : option LogCallback
}.

(** What a handler leaves behind: the status written to the client (200
    when the handler writes none), the application state, the calls made to
    the callbacks, and whether [go hs.StopWait()] was started. *)
Record Response := mkResponse {
  StatusCode : Z;
  app : App;
  invoked : list Call;
  stopWaitStarted : bool
}.

(** [Fatal] is [log.Fatalf]: the process exits. *)
Inductive Outcome :=
  | Fatal
  | Responded (r : Response).

Definition StatusOK : Z := 200.
Definition StatusNotAcceptable : Z := 406.

Section Decoders.
(** [proto.Unmarshal] and [json.Unmarshal] into a fresh message; an error
    is dropped and leaves what was decoded so far. *)
Variable protoUnmarshalTraces jsonUnmarshalTraces : list Byte.byte → ExportTraceServiceRequest.
Variable protoUnmarshalLogs jsonUnmarshalLogs : list Byte.byte → ExportLogsServiceRequest.
Context `{MapRange}.

Definition requestMeta (req : Request) : gmap string string :=
  <["uri" := RequestURI req]>
    (<["host" := Host req]>
       (<["content-type" := Header_Get (Header req) "Content-Type"]>
          (<["proto" := Proto req]> (<["method" := Method req]> ∅)))).

Definition requestHeaders (req : Request) : gmap string string :=
  foldl (λ headers (kv : string * list string),
           <[kv.1 := Header_Get (Header req) kv.1]> headers)
    ∅ (range (Header req)).

(** handleTraces processes trace export requests. *)
Definition handleTraces (hs : HttpServer) (a : App) (req : Request) : Outcome :=
  match Body req with
  | None => Fatal
  | Some data =>
      let ct := Header_Get (Header req) "Content-Type" in
      let decoded :=
        if String.eqb ct "application/x-protobuf" then Some (protoUnmarshalTraces data)
        else if String.eqb ct "application/json" then Some (jsonUnmarshalTraces data)
        else None in
      match decoded with
      | None => Responded (mkResponse StatusNotAcceptable a [] false)
      | Some msg =>
          let r := doCallback (traceCallback hs) msg (requestHeaders req)
                     (requestMeta req) (a, []) in
          Responded (mkResponse StatusOK r.1.1 r.1.2 r.2)
      end
  end.

(** handleLogs processes log export requests. *)
Definition handleLogs (hs : HttpServer) (a : App) (req : Request) : Outcome :=
  match logCallback hs with
  | None => Responded (mkResponse StatusOK a [] false)
  | Some cb =>
      match Body req with
      | None => Fatal
      | Some data =>
          let ct := Header_Get (Header req) "Content-Type" in
          let decoded :=
            if String.eqb ct "application/x-protobuf" then Some (protoUnmarshalLogs data)
            else if String.eqb ct "application/json" then Some (jsonUnmarshalLogs data)
            else None in
          match decoded with
          | None => Responded (mkResponse StatusNotAcceptable a [] false)
          | Some msg =>
              let r := doLogCallback cb msg (requestHeaders req)
                         (requestMeta req) (a, []) in
              Responded (mkResponse StatusOK r.1.1 r.1.2 r.2)
          end
      end
  end.

(** ServeHTTP routes requests to the appropriate handler based on URL
    path. *)
Definition ServeHTTP (hs : HttpServer) (a : App) (req : Request) : Outcome :=
  if String.eqb (RequestURI req) "/v1/traces" then handleTraces hs a req
  else if String.eqb (RequestURI req) "/v1/logs" then handleLogs hs a req
  else handleTraces hs a req.

End Decoders.

(** The request goes to [handleLogs] of a server without a log callback. *)
Definition logsDiscarded (hs : HttpServer) (req : Request) : Prop :=
  RequestURI req = "/v1/logs" ∧ logCallback hs = None.

End Callbacks.

Arguments TraceCallback : clear implicits.
Arguments LogCallback : clear implicits.
Arguments HttpServer : clear implicits.
Arguments Response : clear implicits.
Arguments Outcome : clear implicits.

End otlpserver.

(** ** Package otlpclient: log severities *)

Module otlpclient.

(** [logspb.SeverityNumber], an [int32] enum. The constants the package
    names, with the values the OTLP protocol gives them. *)
Definition SeverityNumber := Z.

Definition SEVERITY_NUMBER_TRACE : SeverityNumber := 1.
Definition SEVERITY_NUMBER_DEBUG : SeverityNumber := 5.
Definition SEVERITY_NUMBER_INFO : SeverityNumber := 9.
Definition SEVERITY_NUMBER_WARN : SeverityNumber := 13.
Definition SEVERITY_NUMBER_ERROR : SeverityNumber := 17.
Definition SEVERITY_NUMBER_FATAL : SeverityNumber := 21.

(** LogSeverityStringToInt takes a supported string log severity and returns
    the otel constant for it. Returns default of INFO on no match. *)
Definition LogSeverityStringToInt (severity : string) : SeverityNumber :=
  if String.eqb severity "TRACE" || String.eqb severity "trace"
  then SEVERITY_NUMBER_TRACE
  else if String.eqb severity "DEBUG" || String.eqb severity "debug"
  then SEVERITY_NUMBER_DEBUG
  else if String.eqb severity "INFO" || String.eqb severity "info"
  then SEVERITY_NUMBER_INFO
  else if String.eqb severity "WARN" || String.eqb severity "warn"
  then SEVERITY_NUMBER_WARN
  else if String.eqb severity "ERROR" || String.eqb severity "error"
  then SEVERITY_NUMBER_ERROR
  else if String.eqb severity "FATAL" || String.eqb severity "fatal"
  then SEVERITY_NUMBER_FATAL
  else SEVERITY_NUMBER_INFO.

(** LogSeverityIntToString takes an integer/constant protobuf log severity
    value and returns the string representation used in otel-cli. *)
Definition LogSeverityIntToString (severity : SeverityNumber) : string :=
  if severity =? SEVERITY_NUMBER_TRACE then "TRACE"
  else if severity =? SEVERITY_NUMBER_DEBUG then "DEBUG"
  else if severity =? SEVERITY_NUMBER_INFO then "INFO"
  else if severity =? SEVERITY_NUMBER_WARN then "WARN"
  else if severity =? SEVERITY_NUMBER_ERROR then "ERROR"
  else if severity =? SEVERITY_NUMBER_FATAL then "FATAL"
  else "INFO".

(** The severities and the names the two functions know. *)
Definition supportedSeverities : list SeverityNumber :=
  [SEVERITY_NUMBER_TRACE; SEVERITY_NUMBER_DEBUG; SEVERITY_NUMBER_INFO;
   SEVERITY_NUMBER_WARN; SEVERITY_NUMBER_ERROR; SEVERITY_NUMBER_FATAL].

Definition severityNames : list string :=
  ["TRACE"; "DEBUG"; "INFO"; "WARN"; "ERROR"; "FATAL"].

End otlpclient.

(** ** Package otelcli: the MCP server command *)

Module otelcli.
Import mcpserver.

(** Split comma-separated list of allowed origins. *)
Definition splitAllowedOrigins (origins : string) : list string :=
  if String.eqb origins "*" then ["*"] else Split origins ",".

(** The origins [doMCPServer] hands to the server for the value of the
    flag [--allow-origins]: "Default to allow all". *)
Definition allowedOriginsOf (allowOrigins : string) : list string :=
  if negb (String.eqb allowOrigins EmptyString)
  then splitAllowedOrigins allowOrigins else ["*"].

(** A string without the byte [sep]. *)
Fixpoint free (sep : ascii) (s : string) : bool :=
  match s with
  | EmptyString => true
  | String c s' => negb (Ascii.eqb c sep) && free sep s'
  end.

End otelcli.

(** ** Package otlpserver: stopping a server *)

Module lifecycle.

Local Open Scope nat_scope.

(** *** Shutdown of the gRPC backend *)

(** The steps of [sync.Once.Do]: the fast path reads [done]; the slow path
    locks the mutex, reads [done] again, runs the function, stores [done]
    and unlocks. *)
Inductive OncePc := OnceCheck | OnceLock | OnceHeld | OnceBody | OnceStore | OnceUnlock.

(** A caller is in [gs.state.stoponce.Do] or in [gs.state.doneonce.Do]. *)
Inductive Phase := InStop | InWait.

Inductive CallerPc :=
  | Running (phase : Phase) (pc : OncePc)
  | Returned.

(** What the caller called. *)
Inductive Entry := CallStop | CallStopWait.

Record Caller := mkCaller { entry : Entry; at_pc : CallerPc }.

(** The goroutine of [NewGrpcServer]: [<-state.stopper], [stop(s)],
    [state.server.GracefulStop()]. *)
Inductive ShutdownPc := AwaitStopper | CallHook | CallGracefulStop | ShutdownDone.

(** [Serve]: [server.Serve(listener)] returns once the server is stopped,
    then [stopdone <- struct{}{}]. *)
Inductive ServePc := Serving | SendStopdone | ServeReturned.

Record Once := mkOnce { done : bool; holder : option nat }.

Record GrpcState := mkGrpcState {
  stoponce : Once;
  doneonce : Once;
  stopdone : nat;              (* values in the channel, capacity 1 *)
  shutdown : ShutdownPc;
  serve : ServePc;
  serverStopped : bool;
  hookCalls : nat;
  gracefulStops : nat;
  callers : list Caller
}.

Global Instance OncePc_eq_dec : EqDecision OncePc.
Proof. solve_decision. Defined.
Global Instance Phase_eq_dec : EqDecision Phase.
Proof. solve_decision. Defined.
Global Instance CallerPc_eq_dec : EqDecision CallerPc.
Proof. solve_decision. Defined.
Global Instance Entry_eq_dec : EqDecision Entry.
Proof. solve_decision. Defined.
Global Instance Caller_eq_dec : EqDecision Caller.
Proof. solve_decision. Defined.
Global Instance ShutdownPc_eq_dec : EqDecision ShutdownPc.
Proof. solve_decision. Defined.
Global Instance ServePc_eq_dec : EqDecision ServePc.
Proof. solve_decision. Defined.
Global Instance Once_eq_dec : EqDecision Once.
Proof. solve_decision. Defined.
Global Instance GrpcState_eq_dec : EqDecision GrpcState.
Proof. solve_decision. Defined.

Definition onceOf (ph : Phase) (s : GrpcState) : Once :=
  match ph with InStop => stoponce s | InWait => doneonce s end.

Definition setOnce (ph : Phase) (o : Once) (s : GrpcState) : GrpcState :=
  match ph with
  | InStop => mkGrpcState o (doneonce s) (stopdone s) (shutdown s) (serve s)
                (serverStopped s) (hookCalls s) (gracefulStops s) (callers s)
  | InWait => mkGrpcState (stoponce s) o (stopdone s) (shutdown s) (serve s)
                (serverStopped s) (hookCalls s) (gracefulStops s) (callers s)
  end.

Definition setCaller (i : nat) (pc : CallerPc) (s : GrpcState) : GrpcState :=
  mkGrpcState (stoponce s) (doneonce s) (stopdone s) (shutdown s) (serve s)
    (serverStopped s) (hookCalls s) (gracefulStops s)
    (alter (λ c, mkCaller (entry c) pc) i (callers s)).

(** Where a caller goes when [Do] returns: [Stop] returns to its caller;
    [StopWait] goes on to [doneonce.Do] and returns after it. *)
Definition afterDo (e : Entry) (ph : Phase) : CallerPc :=
  match ph, e with
  | InStop, CallStop => Returned
  | InStop, CallStopWait => Running InWait OnceCheck
  | InWait, _ => Returned
  end.

(** The function passed to [Do]: [stopper <- struct{}{}] hands a value to
    the goroutine that waits on the unbuffered channel; [<-stopdone] takes a
    value from the channel. [None] when the operation blocks. *)
Definition runBody (ph : Phase) (s : GrpcState) : option GrpcState :=
  match ph with
  | InStop =>
      match shutdown s with
      | AwaitStopper =>
          Some (mkGrpcState (stoponce s) (doneonce s) (stopdone s) CallHook (serve s)
                  (serverStopped s) (hookCalls s) (gracefulStops s) (callers s))
      | _ => None
      end
  | InWait =>
      match stopdone s with
      | S n =>
          Some (mkGrpcState (stoponce s) (doneonce s) n (shutdown s) (serve s)
                  (serverStopped s) (hookCalls s) (gracefulStops s) (callers s))
      | O => None
      end
  end.

(** One step of caller [i], [None] when it is blocked or has returned. *)
Definition callerStep (i : nat) (s : GrpcState) : option GrpcState :=
  match callers s !! i with
  | Some (mkCaller e (Running ph pc)) =>
      let o := onceOf ph s in
      match pc with
      | OnceCheck =>
          if done o then Some (setCaller i (afterDo e ph) s)
          else Some (setCaller i (Running ph OnceLock) s)
      | OnceLock =>
          match holder o with
          | None => Some (setCaller i (Running ph OnceHeld)
                            (setOnce ph (mkOnce (done o) (Some i)) s))
          | Some _ => None
          end
      | OnceHeld =>
          if done o then Some (setCaller i (Running ph OnceUnlock) s)
          else Some (setCaller i (Running ph OnceBody) s)
      | OnceBody =>
          match runBody ph s with
          | Some s' => Some (setCaller i (Running ph OnceStore) s')
          | None => None
          end
      | OnceStore =>
          Some (setCaller i (Running ph OnceUnlock)
                  (setOnce ph (mkOnce true (holder o)) s))
      | OnceUnlock =>
          Some (setCaller i (afterDo e ph) (setOnce ph (mkOnce (done o) None) s))
      end
  | _ => None
  end.

(** One step of the shutdown goroutine past the receive: the hook, then
    [GracefulStop]. *)
Definition shutdownStep (s : GrpcState) : option GrpcState :=
  match shutdown s with
  | CallHook =>
      Some (mkGrpcState (stoponce s) (doneonce s) (stopdone s) CallGracefulStop (serve s)
              (serverStopped s) (S (hookCalls s)) (gracefulStops s) (callers s))
  | CallGracefulStop =>
      Some (mkGrpcState (stoponce s) (doneonce s) (stopdone s) ShutdownDone (serve s)
              true (hookCalls s) (S (gracefulStops s)) (callers s))
  | _ => None
  end.

(** One step of [Serve]. *)
Definition serveStep (s : GrpcState) : option GrpcState :=
  match serve s with
  | Serving =>
      if serverStopped s then
        Some (mkGrpcState (stoponce s) (doneonce s) (stopdone s) (shutdown s) SendStopdone
                (serverStopped s) (hookCalls s) (gracefulStops s) (callers s))
      else None
  | SendStopdone =>
      match stopdone s with
      | O => Some (mkGrpcState (stoponce s) (doneonce s) 1 (shutdown s) ServeReturned
                     (serverStopped s) (hookCalls s) (gracefulStops s) (callers s))
      | S _ => None
      end
  | ServeReturned => None
  end.

(** The states one step away, for any choice of the scheduler. *)
Definition next (s : GrpcState) : list GrpcState :=
  omap (λ i, callerStep i s) (seq 0 (length (callers s)))
  ++ option_list (shutdownStep s) ++ option_list (serveStep s).

Definition step (s s' : GrpcState) : Prop := s' ∈ next s.

(** A server that is serving, and callers that are about to call. *)
Definition serving (entries : list Entry) : GrpcState :=
  mkGrpcState (mkOnce false None) (mkOnce false None) 0 AwaitStopper Serving false 0 0
    ((λ e, mkCaller e (Running InStop OnceCheck)) <$> entries).

Inductive reachable (s0 : GrpcState) : GrpcState → Prop :=
  | reach_start : reachable s0 s0
  | reach_step s s' : reachable s0 s → step s s' → reachable s0 s'.

(** The states found by following [next] from a work list. *)
Fixpoint explore (fuel : nat) (work visited : list GrpcState) : list GrpcState :=
  match fuel with
  | O => visited
  | S fuel' =>
      match work with
      | [] => visited
      | s :: work' =>
          if bool_decide (s ∈ visited) then explore fuel' work' visited
          else explore fuel' (next s ++ work') (s :: visited)
      end
  end.

Definition reachableStates (entries : list Entry) : list GrpcState :=
  explore (100 * 1000) [serving entries] [].

(** The steps a thread has left. *)
Definition oncePcRank (pc : OncePc) : nat :=
  match pc with
  | OnceCheck => 6 | OnceLock => 5 | OnceHeld => 4
  | OnceBody => 3 | OnceStore => 2 | OnceUnlock => 1
  end.

Definition callerRank (c : Caller) : nat :=
  match at_pc c, entry c with
  | Returned, _ => 0
  | Running InWait pc, _ => oncePcRank pc
  | Running InStop pc, CallStop => oncePcRank pc
  | Running InStop pc, CallStopWait => 6 + oncePcRank pc
  end.

Definition shutdownRank (pc : ShutdownPc) : nat :=
  match pc with
  | AwaitStopper => 3 | CallHook => 2 | CallGracefulStop => 1 | ShutdownDone => 0
  end.

Definition serveRank (pc : ServePc) : nat :=
  match pc with Serving => 2 | SendStopdone => 1 | ServeReturned => 0 end.

Definition stepsLeft (s : GrpcState) : nat :=
  sum_list (callerRank <$> callers s) + shutdownRank (shutdown s) + serveRank (serve s).


(** What holds in a state: the hook has run at most once and before
    GracefulStop; a caller that has returned has set off the shutdown, and
    if it called StopWait, the shutdown has completed and Serve has
    returned; every step uses up one of the steps left; and a state without
    a step is one where every caller has returned after one shutdown. *)
Definition callerOk (s : GrpcState) (c : Caller) : bool :=
  match at_pc c with
  | Returned =>
      negb (bool_decide (shutdown s = AwaitStopper))
      && match entry c with
         | CallStop => true
         | CallStopWait =>
             (hookCalls s =? 1) && (gracefulStops s =? 1)
             && bool_decide (serve s = ServeReturned)
         end
  | Running _ _ => true
  end.

Definition finished (s : GrpcState) : bool :=
  forallb (λ c, bool_decide (at_pc c = Returned)) (callers s)
  && (hookCalls s =? 1) && (gracefulStops s =? 1).

Definition checkState (s : GrpcState) : bool :=
  (hookCalls s <=? 1) && (gracefulStops s <=? hookCalls s)
  && forallb (callerOk s) (callers s)
  && forallb (λ s', stepsLeft s' <? stepsLeft s) (next s)
  && match next s with [] => finished s | _ => true end.

Definition closedUnder (V : list GrpcState) : bool :=
  forallb (λ s, forallb (λ s', bool_decide (s' ∈ V)) (next s)) V.

Definition certified (entries : list Entry) : bool :=
  let V := reachableStates entries in
  bool_decide (serving entries ∈ V) && closedUnder V && forallb checkState V.

(** *** The invariant of the shutdown *)

(** The pcs at which a caller holds the mutex of the [Once]. *)
Definition locked (pc : OncePc) : bool :=
  match pc with
  | OnceHeld | OnceBody | OnceStore | OnceUnlock => true
  | _ => false
  end.

(** The holder of the mutex has run the function and not yet stored
    [done]. *)
Definition storing (ph : Phase) (s : GrpcState) : bool :=
  match holder (onceOf ph s) with
  | Some i =>
      match callers s !! i with
      | Some c => bool_decide (at_pc c = Running ph OnceStore)
      | None => false
      end
  | None => false
  end.

(** What [done] is at a pc past the second read of it. *)
Definition doneAt (pc : OncePc) (o : Once) : Prop :=
  match pc with
  | OnceBody | OnceStore => done o = false
  | OnceUnlock => done o = true
  | _ => True
  end.

(** Caller [i] holds the mutex at the locked pcs, and only there. *)
Definition holds (o : Once) (i : nat) (pc : OncePc) : Prop :=
  if locked pc then holder o = Some i else holder o ≠ Some i.

(** What the two [Once] values say about caller [i]. *)
Definition callerInv (so dn : Once) (i : nat) (c : Caller) : Prop :=
  match at_pc c with
  | Running InStop pc =>
      holds so i pc ∧ holder dn ≠ Some i
      ∧ doneAt pc so
  | Running InWait pc =>
      holds dn i pc ∧ holder so ≠ Some i
      ∧ doneAt pc dn ∧ entry c = CallStopWait ∧ done so = true
  | Returned =>
      holder so ≠ Some i ∧ holder dn ≠ Some i ∧ done so = true
      ∧ (entry c = CallStopWait → done dn = true)
  end.

Record Inv (s : GrpcState) : Prop := mkInv {
  inv_hook : hookCalls s = match shutdown s with
                           | CallGracefulStop | ShutdownDone => 1 | _ => 0 end;
  inv_graceful : gracefulStops s = match shutdown s with ShutdownDone => 1 | _ => 0 end;
  inv_stopped : serverStopped s = match shutdown s with ShutdownDone => true | _ => false end;
  inv_serve : serve s ≠ Serving → serverStopped s = true;
  inv_chan : stopdone s = 0 ∨ (stopdone s = 1 ∧ serve s = ServeReturned);
  inv_callers : ∀ i c,
    callers s !! i = Some c → callerInv (stoponce s) (doneonce s) i c;
  inv_holder : ∀ ph i, holder (onceOf ph s) = Some i → is_Some (callers s !! i);
  inv_sent :
    bool_decide (shutdown s = AwaitStopper)
    = negb (done (stoponce s) || storing InStop s);
  inv_received :
    bool_decide (serve s = ServeReturned) && (stopdone s =? 0)
    = (done (doneonce s) || storing InWait s)
}.

(** A step of caller [i] changes a [Once] only where [i] may: the holder
    between nobody and [i], [done] to true while [i] holds the mutex. *)
Definition passes (i : nat) (o o' : Once) : Prop :=
  (holder o' = holder o
   ∨ ((holder o = None ∨ holder o = Some i)
      ∧ (holder o' = None ∨ holder o' = Some i)))
  ∧ (done o' = done o ∨ (holder o = Some i ∧ done o' = true)).

(** *** Shutdown of the HTTP backend *)

(** What has been asked of the [http.Server], and how often the [Stopper]
    given to [NewHttpServer] has been called: [NewHttpServer] does not keep
    it. *)
Record HttpState := mkHttpState {
  closeCalls : nat;
  shutdownCalls : nat;
  stopperCalls : nat
}.

Definition httpServing : HttpState := mkHttpState 0 0 0.

(** Stop closes the http server and all active connections immediately. *)
Definition http_Stop (s : HttpState) : HttpState :=
  mkHttpState (S (closeCalls s)) (shutdownCalls s) (stopperCalls s).

(** StopWait stops the http server gracefully. *)
Definition http_StopWait (s : HttpState) : HttpState :=
  mkHttpState (closeCalls s) (S (shutdownCalls s)) (stopperCalls s).

End lifecycle.

(** ** Example inputs *)

Module Scenario.
Import mcpserver.

(** A span as [HandleSpan] builds it when the analyzer finds nothing. *)
Definition plainSpan (tid sid pid : list Byte.byte) (name : string) (t0 t1 : Z) : SpanData :=
  mkSpanData (mkSpan tid sid pid name [] [] t0 t1) [] (EncodeToString pid) [] []
    (Unix0 t0) (Unix0 t1) (Sub (Unix0 t1) (Unix0 t0)).

Definition traceA : list Byte.byte :=
  [Byte.x01; Byte.x02; Byte.x03; Byte.x04; Byte.x05; Byte.x06; Byte.x07; Byte.x08;
   Byte.x09; Byte.x0a; Byte.x0b; Byte.x0c; Byte.x0d; Byte.x0e; Byte.x0f; Byte.x10].
Definition traceB : list Byte.byte := Byte.xb0 :: tail traceA.
Definition traceC : list Byte.byte := Byte.xc0 :: tail traceA.
Definition traceD : list Byte.byte := Byte.xd0 :: tail traceA.

Definition spanId (b : Byte.byte) : list Byte.byte :=
  [Byte.x00; Byte.x00; Byte.x00; Byte.x00; Byte.x00; Byte.x00; Byte.x00; b].

(** A root span and a child that names it as parent. *)
Definition rootOp : SpanData := plainSpan traceA (spanId Byte.x01) [] "root-op" 1000 5000.
Definition childOp : SpanData :=
  plainSpan traceA (spanId Byte.x02) (spanId Byte.x01) "child-op" 2000 3000.

(** The root span delivered again under another name. *)
Definition rootAgain : SpanData :=
  plainSpan traceA (spanId Byte.x01) [] "root-op-retry" 1000 6000.

(** Ten spans in three traces that end at 100, 200 and 300, and an
    eleventh span in a fourth trace that ends at 400. *)
Definition tenSpans : list (Time * SpanData) :=
  ((λ b, (500, plainSpan traceA (spanId b) [] "a" 10 100))
     <$> [Byte.x01; Byte.x02; Byte.x03; Byte.x04])
  ++ ((λ b, (500, plainSpan traceB (spanId b) [] "b" 10 200))
        <$> [Byte.x11; Byte.x12; Byte.x13])
  ++ ((λ b, (500, plainSpan traceC (spanId b) [] "c" 10 300))
        <$> [Byte.x21; Byte.x22; Byte.x23]).

Definition eleventh : SpanData := plainSpan traceD (spanId Byte.x31) [] "d" 10 400.

Definition tenStored : TraceStore :=
  AddSpans (H := canonicalRange) tenSpans (NewTraceStore 10 0).

(** An analyzer for the project /proj on a machine where no source file
    can be read, with ASCII names only. *)
Definition noFiles : FileSystem := mkFS (λ _, NotExist) (λ _, None).
Definition projAnalyzer : CodeAnalyzer := mkAnalyzer "/proj".

(** A span whose only code context comes from an event attribute. *)
Definition readEvent : Span_Event :=
  mkEvent "cache.lookup" [mkKeyValue "code.filepath" (Some (StringValue "/proj/a.go"))].
Definition eventSpan : Span :=
  mkSpan traceA (spanId Byte.x01) [] "handle" [] [readEvent] 1000 2000.

(** A later span of another trace, with no code context. *)
Definition laterSpan : Span :=
  mkSpan traceB (spanId Byte.x11) [] "handle" [] [] 7200000001000 7200000002000.

Definition oneHour : Duration := 3600 * 1000000000.

Definition ingest (now : Time) (span : Span) (store : TraceStore)
    : option TraceStore :=
  HandleSpan (H := canonicalRange) (λ s, s) (λ _ _, []) noFiles projAnalyzer
    now span (Events span) store.

(** The event of the stack trace scenario. *)
Definition exceptionEvent : Span_Event :=
  mkEvent "exception"
    [mkKeyValue "stack_trace" (Some (StringValue "handler.go:42: nil pointer"))].

(** An HTTP server without a log callback, whose trace callback asks for
    no stop and counts its calls, and a logs request in plain text. *)
Definition countingServer : otlpserver.HttpServer nat :=
  otlpserver.mkHttpServer (λ n _ _ _ _ _, (S n, false)) None.

Definition plainTextLogs : otlpserver.Request :=
  otlpserver.mkRequest "POST" "HTTP/1.1" "localhost:4318" "/v1/logs"
    {[ "Content-Type" := ["text/plain"] ]} (Some []).

Definition noTraces : list Byte.byte → otlpserver.ExportTraceServiceRequest :=
  λ _, otlpserver.mkTraceRequest [].
Definition noLogs : list Byte.byte → otlpserver.ExportLogsServiceRequest :=
  λ _, otlpserver.mkLogsRequest [].

(** A span of the first trace that comes with a context of a failed
    operation. *)
Definition failedContext : CodeSpanContext :=
  mkCtx "/proj/a.go" 0 0 EmptyString EmptyString EmptyString "error" EmptyString.

Definition failedOp : SpanData :=
  mkSpanData (mkSpan traceA (spanId Byte.x03) (spanId Byte.x01) "charge" [] [] 2000 3000)
    [] (EncodeToString (spanId Byte.x01)) [] [failedContext]
    (Unix0 2000) (Unix0 3000) (Sub (Unix0 3000) (Unix0 2000)).

(** A machine with one source file of three lines. *)
Definition mainGoLines : list string := ["package main"; "func main() {"; "}"].

Definition mainGoOnly : FileSystem :=
  mkFS (λ path, if String.eqb path "/proj/main.go" then FileInfo false else NotExist)
       (λ path, if String.eqb path "/proj/main.go" then Some mainGoLines else None).

(** A logs request in JSON, and a decoder that finds two log records. *)
Definition jsonLogs : otlpserver.Request :=
  otlpserver.mkRequest "POST" "HTTP/1.1" "localhost:4318" "/v1/logs"
    {[ "Content-Type" := ["application/json"] ]} (Some []).

Definition twoLogs : list Byte.byte → otlpserver.ExportLogsServiceRequest :=
  λ _, otlpserver.mkLogsRequest
         [otlpserver.mkResourceLogs []
            [otlpserver.mkScopeLogs
               [otlpserver.mkLogRecord 1000 "INFO" None [];
                otlpserver.mkLogRecord 2000 "WARN" None []]]].

End Scenario.
(** * Properties of the trace store *)

Module StoreSpec.
Import mcpserver.

Section StoreLemmas.
Context `{MapRange}.

(** The fields of a trace that the loop over the file contexts leaves alone. *)
Lemma addFileContext_frame byFile trace ctxs :
  Spans (foldl addFileContext (byFile, trace) ctxs).2 = Spans trace
  ∧ RootSpan (foldl addFileContext (byFile, trace) ctxs).2 = RootSpan trace
  ∧ TraceID (foldl addFileContext (byFile, trace) ctxs).2 = TraceID trace
  ∧ StartTime (foldl addFileContext (byFile, trace) ctxs).2 = StartTime trace
  ∧ EndTime (foldl addFileContext (byFile, trace) ctxs).2 = EndTime trace.
Proof.
  revert byFile trace. induction ctxs as [|c ctxs IH]; intros byFile trace; simpl.
  - done.
  - unfold addFileContext at 2 4 6 8 10. simpl.
    destruct (isErrorOp (Operation c)); simpl;
      match goal with |- context [foldl addFileContext (?b, ?t) ctxs] =>
        destruct (IH b t) as (E1 & E2 & E3 & E4 & E5) end;
      rewrite E1, E2, E3, E4, E5; done.
Qed.

Lemma updateTimes_Spans sd trace : Spans (updateTimes sd trace) = Spans trace.
Proof. unfold updateTimes. repeat case_match; done. Qed.

Lemma linkSpan_Spans sd sid p trace os :
  Spans (linkSpan sd sid p trace os).1 = Spans trace.
Proof. unfold linkSpan. repeat case_match; done. Qed.

(** The spans of the trace a write has touched. *)
Lemma AddSpan_write_trace sd store :
  ∃ trace,
    traces (AddSpan_write sd store) !! traceIDOf sd = Some trace
    ∧ Spans trace
      = <[spanIDOf sd := length (objs store)]> (Spans (getOrCreateTrace sd store)).
Proof.
  unfold AddSpan_write. simpl. rewrite lookup_insert_eq.
  eexists. split; [reflexivity|].
  match goal with |- Spans (foldl addFileContext (?b, ?t) ?l).2 = _ =>
    destruct (addFileContext_frame b t l) as (-> & _) end.
  rewrite linkSpan_Spans. simpl. by rewrite updateTimes_Spans.
Qed.

Lemma AddSpan_write_other sd store id :
  id ≠ traceIDOf sd →
  traces (AddSpan_write sd store) !! id = traces store !! id.
Proof. intros Hne. unfold AddSpan_write. simpl. by rewrite lookup_insert_ne. Qed.

Lemma AddSpan_write_dom sd store :
  dom (traces (AddSpan_write sd store)) = {[traceIDOf sd]} ∪ dom (traces store).
Proof. unfold AddSpan_write. simpl. apply dom_insert_L. Qed.

Lemma AddSpan_write_config sd store :
  maxSpans (AddSpan_write sd store) = maxSpans store
  ∧ retention (AddSpan_write sd store) = retention store.
Proof. done. Qed.

(** The objects after a write. *)
Lemma AddSpan_write_objs sd store :
  objs (AddSpan_write sd store)
  = if isRootSpan sd then objs store ++ [sd]
    else match <[spanIDOf sd := length (objs store)]>
                 (Spans (getOrCreateTrace sd store)) !! ParentID sd with
         | Some parent => alter (appendChild (spanIDOf sd)) parent (objs store ++ [sd])
         | None => objs store ++ [sd]
         end.
Proof.
  unfold AddSpan_write, linkSpan. simpl.
  destruct (isRootSpan sd); simpl; [done|].
  rewrite updateTimes_Spans.
  by destruct (_ !! ParentID sd).
Qed.

(** *** The sweep *)

Lemma removeTrace_traces store id :
  traces (removeTrace store id) = delete id (traces store).
Proof.
  unfold removeTrace. destruct (traces store !! id) eqn:E; simpl; [done|].
  symmetry. by apply delete_id.
Qed.

Lemma removeTrace_frame store id :
  objs (removeTrace store id) = objs store
  ∧ maxSpans (removeTrace store id) = maxSpans store
  ∧ retention (removeTrace store id) = retention store.
Proof. unfold removeTrace. by destruct (traces store !! id). Qed.

Lemma removeTraces_frame store ids :
  objs (foldl removeTrace store ids) = objs store
  ∧ maxSpans (foldl removeTrace store ids) = maxSpans store
  ∧ retention (foldl removeTrace store ids) = retention store.
Proof.
  revert store. induction ids as [|id ids IH]; intros store; simpl; [done|].
  destruct (IH (removeTrace store id)) as (-> & -> & ->).
  apply removeTrace_frame.
Qed.

Lemma removeTraces_lookup store ids id :
  traces (foldl removeTrace store ids) !! id
  = if decide (id ∈ ids) then None else traces store !! id.
Proof.
  revert store. induction ids as [|i ids IH]; intros store; cbn [foldl].
  - destruct (decide (id ∈ [])) as [Hin|_]; [by apply elem_of_nil in Hin|done].
  - rewrite IH, removeTrace_traces.
    destruct (decide (id ∈ ids)) as [Hin|Hnin].
    + destruct (decide (id ∈ i :: ids)) as [_|Hn]; [done|].
      exfalso. apply Hn. by right.
    + destruct (decide (id ∈ i :: ids)) as [[->|Hin]%elem_of_cons|Hn].
      * apply lookup_delete_eq.
      * done.
      * apply lookup_delete_ne. intros ->. apply Hn. left.
Qed.

(** A sweep leaves the objects and the limits alone, and every trace it
    keeps is as it was. *)
Lemma cleanup_frame now store :
  objs (cleanupOldTraces now store) = objs store
  ∧ maxSpans (cleanupOldTraces now store) = maxSpans store
  ∧ retention (cleanupOldTraces now store) = retention store.
Proof.
  unfold cleanupOldTraces. case_match; [done|]. apply removeTraces_frame.
Qed.

Lemma cleanup_lookup_Some now store id trace :
  traces (cleanupOldTraces now store) !! id = Some trace →
  traces store !! id = Some trace.
Proof.
  unfold cleanupOldTraces. case_match; [done|].
  rewrite removeTraces_lookup. by case_decide.
Qed.

(** Without limits the sweep does nothing. *)
Lemma cleanup_unlimited now store :
  maxSpans store ≤ 0 → retention store ≤ 0 → cleanupOldTraces now store = store.
Proof.
  intros Hm Hr. unfold cleanupOldTraces.
  rewrite (proj2 (Z.leb_le _ _) Hm), (proj2 (Z.leb_le _ _) Hr). done.
Qed.

(** *** Pointers of the store *)

Lemma ptrsValid_new max ret : ptrsValid (NewTraceStore max ret).
Proof. intros id trace sid p Hid. cbn in Hid. by rewrite lookup_empty in Hid. Qed.

Lemma AddSpan_write_length sd store :
  length (objs (AddSpan_write sd store)) = S (length (objs store)).
Proof.
  rewrite AddSpan_write_objs.
  repeat case_match; rewrite ?length_alter, length_app; simpl; lia.
Qed.

Lemma getOrCreateTrace_valid sd store sid p :
  ptrsValid store →
  Spans (getOrCreateTrace sd store) !! sid = Some p → (p < length (objs store))%nat.
Proof.
  intros Hv. unfold getOrCreateTrace.
  destruct (traces store !! traceIDOf sd) as [trace|] eqn:E; simpl.
  - intros Hs. by eapply Hv.
  - by rewrite lookup_empty.
Qed.

Lemma AddSpan_write_valid sd store :
  ptrsValid store → ptrsValid (AddSpan_write sd store).
Proof.
  intros Hv id trace sid p Hid Hsid. rewrite AddSpan_write_length.
  destruct (decide (id = traceIDOf sd)) as [->|Hne].
  - destruct (AddSpan_write_trace sd store) as (trace' & Htr & Hsp).
    rewrite Htr in Hid. injection Hid as <-. rewrite Hsp in Hsid.
    destruct (decide (sid = spanIDOf sd)) as [->|Hs].
    + rewrite lookup_insert_eq in Hsid. injection Hsid as <-. lia.
    + rewrite lookup_insert_ne in Hsid by done.
      apply getOrCreateTrace_valid in Hsid; [lia|done].
  - rewrite AddSpan_write_other in Hid by done.
    specialize (Hv _ _ _ _ Hid Hsid). lia.
Qed.

Lemma cleanup_valid now store :
  ptrsValid store → ptrsValid (cleanupOldTraces now store).
Proof.
  intros Hv id trace sid p Hid Hsid.
  destruct (cleanup_frame now store) as (-> & _).
  apply cleanup_lookup_Some in Hid. by eapply Hv.
Qed.

Lemma AddSpan_valid now sd store : ptrsValid store → ptrsValid (AddSpan now sd store).
Proof. intros Hv. by apply cleanup_valid, AddSpan_write_valid. Qed.

Lemma AddSpan_write_new_object sd store :
  ptrsValid store →
  objs (AddSpan_write sd store) !! length (objs store) = Some (storedRecord sd).
Proof.
  intros Hv. rewrite AddSpan_write_objs. unfold storedRecord.
  assert (Hlast : (objs store ++ [sd]) !! length (objs store) = Some sd).
  { rewrite lookup_app_r by lia. by rewrite Nat.sub_diag. }
  destruct (isRootSpan sd); simpl; [done|].
  destruct (String.eqb_spec (ParentID sd) (spanIDOf sd)) as [->|Hne].
  - rewrite lookup_insert_eq. rewrite list_lookup_alter_eq, Hlast. done.
  - rewrite lookup_insert_ne by done.
    destruct (Spans (getOrCreateTrace sd store) !! ParentID sd) as [q|] eqn:E; [|done].
    apply getOrCreateTrace_valid in E; [|done].
    rewrite list_lookup_alter_ne by lia. done.
Qed.

(** Objects allocated before a write keep their record, except the parent
    of the new span, which gains a child. *)
Lemma AddSpan_write_old_object sd store p :
  (p < length (objs store))%nat →
  objs (AddSpan_write sd store) !! p
  = if isRootSpan sd then objs store !! p
    else match <[spanIDOf sd := length (objs store)]>
                 (Spans (getOrCreateTrace sd store)) !! ParentID sd with
         | Some parent =>
             if decide (parent = p) then appendChild (spanIDOf sd) <$> objs store !! p
             else objs store !! p
         | None => objs store !! p
         end.
Proof.
  intros Hp. rewrite AddSpan_write_objs.
  assert (Hold : (objs store ++ [sd]) !! p = objs store !! p) by by apply lookup_app_l.
  destruct (isRootSpan sd); [done|].
  destruct (_ !! ParentID sd) as [q|]; [|done].
  case_decide as Hq.
  - subst q. by rewrite list_lookup_alter_eq, Hold.
  - by rewrite list_lookup_alter_ne, Hold.
Qed.

Lemma getOrCreateTrace_stored sd store trace :
  traces store !! traceIDOf sd = Some trace → getOrCreateTrace sd store = trace.
Proof. intros E. unfold getOrCreateTrace. by rewrite E. Qed.

Lemma AddSpan_objs now sd store :
  objs (AddSpan now sd store) = objs (AddSpan_write sd store).
Proof. unfold AddSpan. by destruct (cleanup_frame now (AddSpan_write sd store)) as (-> & _). Qed.

Lemma AddSpan_lookup_Some now sd store id trace :
  traces (AddSpan now sd store) !! id = Some trace →
  traces (AddSpan_write sd store) !! id = Some trace.
Proof. apply cleanup_lookup_Some. Qed.

Lemma spanCount_stored store id trace :
  traces store !! id = Some trace → spanCount store id = Z.of_nat (size (Spans trace)).
Proof. intros E. unfold spanCount. by rewrite E. Qed.

(** C5. With maxSpans = 0 and retention = 0 no sequence of AddSpan calls
    removes a trace: every sweep leaves the store as the write left it, so
    the store is the one the writes alone build, the limits stay unset, and
    every trace that was stored or written is still stored. *)
Theorem unlimited_never_evicts (adds : list (Time * SpanData)) store :
  maxSpans store = 0 → retention store = 0 →
  AddSpans adds store = foldl (λ st a, AddSpan_write a.2 st) store adds
  ∧ (∀ now, cleanupOldTraces now (AddSpans adds store) = AddSpans adds store)
  ∧ maxSpans (AddSpans adds store) = 0 ∧ retention (AddSpans adds store) = 0
  ∧ dom (traces store) ⊆ dom (traces (AddSpans adds store))
  ∧ (∀ a, a ∈ adds → traceIDOf a.2 ∈ dom (traces (AddSpans adds store))).
Proof.
  revert store. induction adds as [|a adds IH]; intros store Hm Hr.
  - unfold AddSpans; simpl. repeat split; try done.
    + intros now. apply cleanup_unlimited; lia.
    + intros a Ha. by apply elem_of_nil in Ha.
  - assert (Hstep : AddSpan a.1 a.2 store = AddSpan_write a.2 store).
    { unfold AddSpan. destruct (AddSpan_write_config a.2 store) as [Em Er].
      apply cleanup_unlimited; [rewrite Em|rewrite Er]; lia. }
    unfold AddSpans in *. cbn [foldl]. rewrite Hstep.
    destruct (IH (AddSpan_write a.2 store)) as (E & Hc & Hm' & Hr' & Hdom & Hin); [done..|].
    repeat split; try done.
    + etrans; [|exact Hdom]. rewrite AddSpan_write_dom. apply union_subseteq_r.
    + intros b [->|Hb]%elem_of_cons; [|by apply Hin].
      apply Hdom. rewrite AddSpan_write_dom. by apply elem_of_union_l, elem_of_singleton.
Qed.

Lemma storedRecord_Children sd :
  Children sd = [] →
  Children (storedRecord sd) = [] ∨ Children (storedRecord sd) = [spanIDOf sd].
Proof.
  intros Hc. unfold storedRecord. case_match; simpl; rewrite Hc; auto.
Qed.

(** C1, as the code has it. Let s2 name s1 as its parent in the same trace
    (a parent id that is neither empty nor the all-zero id, and two
    different span ids), and let s1 arrive with no children. If s1 is added
    first and its trace is still stored when s2 is added, the children of
    s1 contain the id of s2 exactly once. If s2 is added first, the children
    of s1 do not contain the id of s2: a span is linked to its parent only
    when the parent is already stored. *)
Theorem child_linked_when_parent_first now1 now2 s1 s2 store :
  ptrsValid store →
  traceIDOf s2 = traceIDOf s1 →
  ParentID s2 = spanIDOf s1 →
  isRootSpan s2 = false →
  spanIDOf s1 ≠ spanIDOf s2 →
  Children s1 = [] →
  (is_Some (traces (AddSpan now1 s1 store) !! traceIDOf s1) →
   ∃ sd1,
     objs (AddSpan now2 s2 (AddSpan now1 s1 store)) !! length (objs store) = Some sd1
     ∧ SpanProto sd1 = SpanProto s1
     ∧ occurrences (spanIDOf s2) (Children sd1) = 1%nat)
  ∧ (∃ sd1,
       objs (AddSpan now2 s1 (AddSpan now1 s2 store)) !! S (length (objs store)) = Some sd1
       ∧ SpanProto sd1 = SpanProto s1
       ∧ occurrences (spanIDOf s2) (Children sd1) = 0%nat
       ∧ ∀ sd, GetSpan (AddSpan now2 s1 (AddSpan now1 s2 store))
                 (traceIDOf s1) (spanIDOf s1) = Some sd → sd = sd1).
Proof.
  intros Hv Htid Hparent Hroot Hne Hch.
  assert (Hproto : SpanProto (storedRecord s1) = SpanProto s1).
  { unfold storedRecord. by case_match. }
  assert (Hocc : ∀ cs, cs = [] ∨ cs = [spanIDOf s1] →
                   occurrences (spanIDOf s2) cs = 0%nat).
  { intros cs [->| ->]; [done|]. unfold occurrences.
    rewrite filter_cons_False by done. done. }
  split.
  - intros [trace1 Htr1].
    pose proof (AddSpan_lookup_Some _ _ _ _ _ Htr1) as Hw1.
    destruct (AddSpan_write_trace s1 store) as (trace1' & Htr1' & Hsp1).
    rewrite Htr1' in Hw1. injection Hw1 as ->.
    set (st1 := AddSpan now1 s1 store) in *.
    assert (Hlen1 : length (objs st1) = S (length (objs store))).
    { unfold st1. rewrite AddSpan_objs. apply AddSpan_write_length. }
    assert (Hobj1 : objs st1 !! length (objs store) = Some (storedRecord s1)).
    { unfold st1. rewrite AddSpan_objs. by apply AddSpan_write_new_object. }
    rewrite AddSpan_objs, AddSpan_write_old_object by lia.
    rewrite Hroot.
    assert (Hget : getOrCreateTrace s2 st1 = trace1).
    { apply getOrCreateTrace_stored. by rewrite Htid. }
    rewrite Hget, Hsp1, Hparent.
    rewrite lookup_insert_ne by done. rewrite lookup_insert_eq.
    rewrite decide_True by done. rewrite Hobj1. simpl.
    eexists. split; [reflexivity|]. split; [done|].
    simpl. unfold occurrences. rewrite filter_app, length_app.
    fold (occurrences (spanIDOf s2) (Children (storedRecord s1))).
    rewrite Hocc by by apply storedRecord_Children.
    rewrite filter_cons_True by done. done.
  - set (st1 := AddSpan now1 s2 store).
    assert (Hv1 : ptrsValid st1) by by apply AddSpan_valid.
    assert (Hlen1 : length (objs st1) = S (length (objs store))).
    { unfold st1. rewrite AddSpan_objs. apply AddSpan_write_length. }
    assert (Hobj : objs (AddSpan now2 s1 st1) !! S (length (objs store))
                   = Some (storedRecord s1)).
    { rewrite AddSpan_objs, <- Hlen1. by apply AddSpan_write_new_object. }
    exists (storedRecord s1). split; [done|]. split; [done|].
    split; [by apply Hocc, storedRecord_Children|].
    intros sd. unfold GetSpan, GetSpanPtr.
    destruct (traces (AddSpan now2 s1 st1) !! traceIDOf s1) as [tr|] eqn:E; [|done].
    apply AddSpan_lookup_Some in E.
    destruct (AddSpan_write_trace s1 st1) as (tr' & Htr' & Hsp).
    rewrite Htr' in E. injection E as ->.
    rewrite Hsp, lookup_insert_eq, Hlen1, Hobj. congruence.
Qed.

End StoreLemmas.

(** *** The properties at the example inputs *)

Import Scenario.

Lemma unlimited_never_evicts_witness :
  let store := NewTraceStore 0 0 in
  let adds := [(6000, rootOp); (6000, childOp); (9000, rootAgain)] in
  maxSpans store = 0 ∧ retention store = 0
  ∧ dom (traces store) ⊆ dom (traces (AddSpans (H := canonicalRange) adds store))
  ∧ traceIDOf rootOp ∈ dom (traces (AddSpans (H := canonicalRange) adds store)).
Proof.
  intros store adds. split; [reflexivity|]. split; [reflexivity|].
  destruct (unlimited_never_evicts (H := canonicalRange) adds store eq_refl eq_refl)
    as (_ & _ & _ & _ & Hdom & Hin).
  split; [exact Hdom|]. apply (Hin (6000, rootOp)). left.
Defined.

Lemma child_linked_when_parent_first_witness :
  let store := NewTraceStore 0 0 in
  ptrsValid store
  ∧ traceIDOf childOp = traceIDOf rootOp
  ∧ ParentID childOp = spanIDOf rootOp
  ∧ isRootSpan childOp = false
  ∧ spanIDOf rootOp ≠ spanIDOf childOp
  ∧ Children rootOp = []
  ∧ ∃ sd1,
      objs (AddSpan (H := canonicalRange) 6000 childOp
              (AddSpan (H := canonicalRange) 6000 rootOp store)) !! 0%nat = Some sd1
      ∧ SpanProto sd1 = SpanProto rootOp
      ∧ occurrences (spanIDOf childOp) (Children sd1) = 1%nat.
Proof.
  intros store.
  assert (Hv : ptrsValid store) by apply ptrsValid_new.
  assert (Hne : spanIDOf rootOp ≠ spanIDOf childOp) by (vm_compute; discriminate).
  assert (H1 : traceIDOf childOp = traceIDOf rootOp) by (vm_compute; reflexivity).
  assert (H2 : ParentID childOp = spanIDOf rootOp) by (vm_compute; reflexivity).
  assert (H3 : isRootSpan childOp = false) by (vm_compute; reflexivity).
  assert (H4 : Children rootOp = []) by (vm_compute; reflexivity).
  split_and!; [exact Hv|exact H1|exact H2|exact H3|exact Hne|exact H4|].
  destruct (child_linked_when_parent_first (H := canonicalRange) 6000 6000
              rootOp childOp store Hv H1 H2 H3 Hne H4)
    as [Hparent _].
  apply Hparent. vm_compute. by eexists.
Defined.

(** C1, as stated, fails when the child arrives first: the root span is
    stored without children although the stored child names it as parent. *)
Lemma child_first_counterexample :
  let store :=
    AddSpan (H := canonicalRange) 6000 rootOp
      (AddSpan (H := canonicalRange) 6000 childOp (NewTraceStore 0 0)) in
  traceIDOf childOp = traceIDOf rootOp
  ∧ ParentID childOp = spanIDOf rootOp
  ∧ is_Some (GetSpan store (traceIDOf childOp) (spanIDOf childOp))
  ∧ GetSpan store (traceIDOf rootOp) (spanIDOf rootOp) = Some rootOp
  ∧ occurrences (spanIDOf childOp) (Children rootOp) ≠ 1%nat.
Proof.
  vm_compute. split_and!; [reflexivity|reflexivity|by eexists|reflexivity|discriminate].
Qed.


(** C2 at a failing input. A trace whose only code context comes from an
    event attribute is evicted once it is past retention, but the context
    stays in the file index: the analyzer left its TraceID empty, and the
    sweep removes the contexts that carry the id of the evicted trace. *)
Theorem evicted_event_context_stays :
  ∃ before after,
    ingest 2000 eventSpan (NewTraceStore 0 oneHour) = Some before
    ∧ ingest 7200000003000 laterSpan before = Some after
    ∧ is_Some (traces before !! EncodeToString traceA)
    ∧ ListFiles (H := canonicalRange) before = ["/proj/a.go"]
    ∧ traces after !! EncodeToString traceA = None
    ∧ (map_to_list (traces after)).*1 = [EncodeToString traceB]
    ∧ ListFiles (H := canonicalRange) after = ["/proj/a.go"]
    ∧ ctx_TraceID <$> default [] (spansByFile after !! "/proj/a.go") = [EmptyString].
Proof.
  set (empty := NewTraceStore 0 oneHour).
  set (before := default empty (ingest 2000 eventSpan empty)).
  exists before, (default empty (ingest 7200000003000 laterSpan before)).
  vm_compute.
  split_and!; [reflexivity|reflexivity|by eexists|reflexivity|reflexivity|reflexivity
              |reflexivity|reflexivity].
Qed.


End StoreSpec.

(** * Properties of the eviction sweep *)

Module SweepSpec.
Import mcpserver.
Import StoreSpec.

(** *** The exchange sort *)

Lemma sort_inner_perm cur rest :
  (sort_inner cur rest).1 :: (sort_inner cur rest).2 ≡ₚ cur :: rest.
Proof.
  revert cur. induction rest as [|y rest IH]; intros cur; simpl; [done|].
  destruct (After (ta_age cur) (ta_age y)); simpl.
  - etrans; [apply Permutation_swap|]. constructor. apply IH.
  - etrans; [apply Permutation_swap|].
    etrans; [constructor; apply IH|]. apply Permutation_swap.
Qed.

Lemma sort_inner_length cur rest : length (sort_inner cur rest).2 = length rest.
Proof.
  revert cur. induction rest as [|y rest IH]; intros cur; simpl; [done|].
  destruct (After (ta_age cur) (ta_age y)); simpl; by rewrite IH.
Qed.

Lemma sort_inner_le cur rest : olderEq (sort_inner cur rest).1 cur.
Proof.
  unfold olderEq. revert cur. induction rest as [|y rest IH]; intros cur; simpl; [lia|].
  unfold After. destruct (Z.gtb_spec (ta_age cur) (ta_age y)); simpl.
  - specialize (IH y). lia.
  - apply IH.
Qed.

Lemma sort_inner_min cur rest :
  Forall (olderEq (sort_inner cur rest).1) (sort_inner cur rest).2.
Proof.
  revert cur. induction rest as [|y rest IH]; intros cur; simpl; [constructor|].
  unfold After. destruct (Z.gtb_spec (ta_age cur) (ta_age y)); simpl.
  - constructor; [|apply IH].
    pose proof (sort_inner_le y rest). unfold olderEq in *. lia.
  - constructor; [|apply IH].
    pose proof (sort_inner_le cur rest). unfold olderEq in *. lia.
Qed.

Lemma sort_outer_perm n ages : sort_outer n ages ≡ₚ ages.
Proof.
  revert ages. induction n as [|n IH]; intros [|x rest]; simpl; try done.
  rewrite IH. apply sort_inner_perm.
Qed.

Lemma sort_outer_sorted n ages :
  (length ages ≤ n)%nat → StronglySorted olderEq (sort_outer n ages).
Proof.
  revert ages. induction n as [|n IH]; intros ages Hlen.
  - destruct ages; [constructor|simpl in Hlen; lia].
  - destruct ages as [|x rest]; simpl in *; [constructor|].
    constructor.
    + apply IH. rewrite sort_inner_length. lia.
    + rewrite sort_outer_perm. apply sort_inner_min.
Qed.

Lemma sort_ages_perm ages : sort_ages ages ≡ₚ ages.
Proof. apply sort_outer_perm. Qed.

Lemma sort_ages_sorted ages : StronglySorted olderEq (sort_ages ages).
Proof. by apply sort_outer_sorted. Qed.

Section Sweep.
Context `{MapRange}.

Lemma sumSpans_perm l1 l2 : l1 ≡ₚ l2 → sumSpans l1 = sumSpans l2.
Proof.
  induction 1 as [|x l1 l2 _ IH|x y l|l1 l2 l3 _ IH1 _ IH2]; simpl; lia.
Qed.

Lemma sumCounts_app store l1 l2 :
  sumCounts store (l1 ++ l2) = sumCounts store l1 + sumCounts store l2.
Proof. induction l1 as [|x l1 IH]; simpl; lia. Qed.

Lemma sumCounts_cons store id ids :
  sumCounts store (id :: ids) = spanCount store id + sumCounts store ids.
Proof. done. Qed.

(** *** The retention pass *)

Lemma retention_fold now store l old total :
  foldl (retentionStep now store) (old, total) l
  = (old ++ (filter (λ kv, expired now store kv.2 = true) l).*1, total + sumSpans l).
Proof.
  revert old total. induction l as [|kv l IH]; intros old total; simpl.
  - by rewrite app_nil_r, Z.add_0_r.
  - unfold retentionStep at 2. simpl.
    destruct (expired now store kv.2) eqn:E.
    + rewrite IH, filter_cons_True by done. simpl.
      rewrite <- app_assoc. simpl. f_equal. lia.
    + rewrite IH, filter_cons_False by (by rewrite E). f_equal. lia.
Qed.

Lemma retentionPass_total now store : (retentionPass now store).2 = totalSpans store.
Proof.
  unfold retentionPass. rewrite retention_fold. simpl.
  unfold totalSpans. apply sumSpans_perm, range_perm.
Qed.

Lemma elem_of_range {V} (m : gmap string V) id v :
  (id, v) ∈ range m ↔ m !! id = Some v.
Proof. rewrite (range_perm V m). apply elem_of_map_to_list. Qed.

Lemma retentionPass_ids now store id :
  id ∈ (retentionPass now store).1
  ↔ ∃ trace, traces store !! id = Some trace ∧ expired now store trace = true.
Proof.
  unfold retentionPass. rewrite retention_fold. simpl.
  rewrite list_elem_of_fmap. split.
  - intros ([id' trace] & -> & [He Hin]%list_elem_of_filter).
    exists trace. split; [|done]. by apply elem_of_range.
  - intros (trace & Hl & He). exists (id, trace). split; [done|].
    apply list_elem_of_filter. split; [done|]. by apply elem_of_range.
Qed.

Lemma Sub_mono now t u : t ≤ u → Sub now u ≤ Sub now t.
Proof.
  intros Htu. unfold Sub.
  assert (Hb : minInt64 < maxInt64) by reflexivity.
  revert Hb. generalize minInt64 maxInt64. intros lo hi Hb.
  repeat match goal with
  | |- context [?a <? ?b] => destruct (Z.ltb_spec a b)
  | |- context [?a >? ?b] => destruct (Z.gtb_spec a b)
  end; lia.
Qed.

(** An expired trace ended before every trace that is not. *)
Lemma expired_older now store t1 t2 :
  expired now store t1 = true → expired now store t2 = false →
  EndTime t1 < EndTime t2.
Proof.
  unfold expired. intros [Hr H1]%andb_true_iff H2.
  rewrite Hr in H2. simpl in H2.
  destruct (Z.gtb_spec (Sub now (EndTime t1)) (retention store)); [|done].
  destruct (Z.gtb_spec (Sub now (EndTime t2)) (retention store)); [done|].
  destruct (Z.lt_ge_cases (EndTime t1) (EndTime t2)) as [|Hge]; [done|].
  pose proof (Sub_mono now _ _ Hge). lia.
Qed.

(** *** The size pass *)

Lemma takeOldest_spec store ages total old :
  ∃ k, (k ≤ length ages)%nat
    ∧ takeOldest store ages total old = old ++ (ta_id <$> take k ages)
    ∧ (∀ j, (j < k)%nat →
         maxSpans store < total - sumCounts store (ta_id <$> take j ages))
    ∧ (total - sumCounts store (ta_id <$> take k ages) ≤ maxSpans store
       ∨ k = length ages).
Proof.
  revert total old. induction ages as [|ta ages IH]; intros total old; simpl.
  - exists O. simpl. rewrite app_nil_r. split_and!; [done|done|intros j Hj; lia|by right].
  - destruct (Z.leb_spec total (maxSpans store)) as [Hle|Hgt].
    + exists O. simpl. rewrite app_nil_r.
      split_and!; [lia|done|intros j Hj; lia|left; lia].
    + destruct (IH (total - spanCount store (ta_id ta)) (old ++ [ta_id ta]))
        as (k & Hk & Heq & Hbefore & Hstop).
      exists (S k). cbn [take fmap list_fmap length]. split_and!.
      * lia.
      * rewrite Heq, <- app_assoc. done.
      * intros [|j] Hj; cbn [take fmap list_fmap]; [simpl; lia|].
        rewrite sumCounts_cons. specialize (Hbefore j ltac:(lia)). lia.
      * rewrite sumCounts_cons.
        destruct Hstop as [Hstop| ->]; [left; lia|by right].
Qed.

(** *** Removal *)

Lemma spanCount_removeTrace store id id' :
  id' ≠ id → spanCount (removeTrace store id) id' = spanCount store id'.
Proof.
  intros Hne. unfold spanCount. rewrite removeTrace_traces.
  by rewrite lookup_delete_ne.
Qed.

Lemma totalSpans_removeTrace store id :
  totalSpans (removeTrace store id) = totalSpans store - spanCount store id.
Proof.
  unfold totalSpans, spanCount. rewrite removeTrace_traces.
  destruct (traces store !! id) as [trace|] eqn:E.
  - rewrite <- (sumSpans_perm _ _ (map_to_list_delete _ _ _ E)). simpl. lia.
  - rewrite delete_id by done. lia.
Qed.

Lemma sumCounts_removeTrace store id ids :
  id ∉ ids → sumCounts (removeTrace store id) ids = sumCounts store ids.
Proof.
  induction ids as [|i ids IH]; intros Hnin; [done|].
  rewrite !sumCounts_cons, IH, spanCount_removeTrace; [done|..].
  - intros ->. apply Hnin. left.
  - intros Hin. apply Hnin. by right.
Qed.

Lemma totalSpans_removeTraces store ids :
  NoDup ids →
  totalSpans (foldl removeTrace store ids) = totalSpans store - sumCounts store ids.
Proof.
  intros Hnd. revert store. induction Hnd as [|id ids Hnin _ IH]; intros store.
  - simpl. lia.
  - cbn [foldl]. rewrite IH, totalSpans_removeTrace, sumCounts_removeTrace by done.
    rewrite sumCounts_cons. lia.
Qed.

Lemma sumCounts_perm store l1 l2 : l1 ≡ₚ l2 → sumCounts store l1 = sumCounts store l2.
Proof.
  induction 1 as [|x l1 l2 _ IH|x y l|l1 l2 l3 _ IH1 _ IH2]; simpl; lia.
Qed.

Lemma sumCounts_entries store (l : list (string * TraceData)) :
  (∀ kv, kv ∈ l → traces store !! kv.1 = Some kv.2) →
  sumCounts store l.*1 = sumSpans l.
Proof.
  induction l as [|kv l IH]; intros Hl; [done|].
  cbn [fmap list_fmap]. rewrite sumCounts_cons. simpl. rewrite IH.
  - unfold spanCount. rewrite (Hl kv) by left. done.
  - intros kv' Hin. apply Hl. by right.
Qed.

(** *** The ages the size pass sorts *)

Lemma agesOf_ids store : ta_id <$> agesOf store = (range (traces store)).*1.
Proof. unfold agesOf. rewrite <- list_fmap_compose. done. Qed.

Lemma elem_of_agesOf store a :
  a ∈ agesOf store
  ↔ ∃ trace, traces store !! ta_id a = Some trace ∧ ta_age a = EndTime trace.
Proof.
  unfold agesOf. rewrite list_elem_of_fmap. split.
  - intros ([id trace] & -> & Hin). exists trace. split; [|done].
    by apply elem_of_range.
  - intros (trace & Hl & Hage). exists (ta_id a, trace). split.
    + destruct a. simpl in *. by subst.
    + by apply elem_of_range.
Qed.

Lemma sorted_ids_NoDup store : NoDup (ta_id <$> sort_ages (agesOf store)).
Proof.
  rewrite sort_ages_perm, agesOf_ids, (range_perm _ (traces store)).
  apply NoDup_fst_map_to_list.
Qed.

Lemma sorted_ids_total store :
  sumCounts store (ta_id <$> sort_ages (agesOf store)) = totalSpans store.
Proof.
  rewrite (sumCounts_perm _ _ (ta_id <$> agesOf store))
    by (by rewrite sort_ages_perm).
  rewrite agesOf_ids, sumCounts_entries.
  - apply sumSpans_perm, range_perm.
  - intros [id trace] Hin. by apply elem_of_range.
Qed.

(** *** What a sweep marks *)

(** When the retention pass found nothing and the cap is exceeded, the
    marked traces are the shortest prefix of the traces in the order of
    their end times that brings the total to the cap. *)
Lemma size_pass_marks now store :
  (retentionPass now store).1 = [] →
  0 < maxSpans store → maxSpans store < totalSpans store →
  ∃ k, (k ≤ length (agesOf store))%nat
    ∧ markedForRemoval now store = ta_id <$> take k (sort_ages (agesOf store))
    ∧ (∀ j, (j < k)%nat →
         maxSpans store
         < totalSpans store
           - sumCounts store (ta_id <$> take j (sort_ages (agesOf store))))
    ∧ totalSpans store
        - sumCounts store (ta_id <$> take k (sort_ages (agesOf store)))
      ≤ maxSpans store.
Proof.
  intros Hnone Hmax Hover. unfold markedForRemoval, sizePass.
  rewrite Hnone, retentionPass_total.
  rewrite (proj2 (Z.gtb_gt _ _)), (proj2 (Z.gtb_gt _ _)) by lia. simpl.
  destruct (takeOldest_spec store (sort_ages (agesOf store)) (totalSpans store) [])
    as (k & Hk & Heq & Hbefore & Hstop).
  assert (Hlen : length (sort_ages (agesOf store)) = length (agesOf store))
    by by rewrite sort_ages_perm.
  exists k. split_and!; [lia|done|done|].
  destruct Hstop as [Hstop| ->]; [done|].
  rewrite firstn_all, sorted_ids_total. lia.
Qed.

(** Otherwise the marked traces are those the retention pass found. *)
Lemma retention_marks now store :
  (retentionPass now store).1 ≠ [] ∨ totalSpans store ≤ maxSpans store
  ∨ maxSpans store ≤ 0 →
  markedForRemoval now store = (retentionPass now store).1.
Proof.
  intros Hcase. unfold markedForRemoval, sizePass. rewrite retentionPass_total.
  destruct (Z.gtb_spec (maxSpans store) 0); simpl; [|done].
  destruct (Z.gtb_spec (totalSpans store) (maxSpans store)); simpl; [|done].
  destruct (retentionPass now store).1; [|done].
  destruct Hcase as [?|[?|?]]; [done|lia|lia].
Qed.

Lemma cleanup_unfold now store :
  0 < maxSpans store ∨ 0 < retention store →
  cleanupOldTraces now store = foldl removeTrace store (markedForRemoval now store).
Proof.
  intros Hlim. unfold cleanupOldTraces.
  destruct (Z.leb_spec (maxSpans store) 0), (Z.leb_spec (retention store) 0);
    simpl; try done. lia.
Qed.

Lemma cleanup_lookup now store id :
  0 < maxSpans store ∨ 0 < retention store →
  traces (cleanupOldTraces now store) !! id
  = if decide (id ∈ markedForRemoval now store) then None else traces store !! id.
Proof. intros Hlim. rewrite cleanup_unfold by done. apply removeTraces_lookup. Qed.

Lemma marked_cases now store :
  ((retentionPass now store).1 = [] ∧ 0 < maxSpans store
   ∧ maxSpans store < totalSpans store)
  ∨ ((retentionPass now store).1 ≠ [] ∨ totalSpans store ≤ maxSpans store
     ∨ maxSpans store ≤ 0).
Proof.
  destruct (retentionPass now store).1; [|right; by left].
  destruct (Z.lt_ge_cases 0 (maxSpans store)); [|right; lia].
  destruct (Z.lt_ge_cases (maxSpans store) (totalSpans store)); [by left|right; lia].
Qed.

(** Every trace a sweep removes ended no later than every trace it keeps. *)
Lemma sweep_oldest_first now store r k tr tk :
  traces store !! r = Some tr →
  traces (cleanupOldTraces now store) !! r = None →
  traces (cleanupOldTraces now store) !! k = Some tk →
  EndTime tr ≤ EndTime tk.
Proof.
  intros Hr Hgone Hkept.
  destruct (decide (0 < maxSpans store ∨ 0 < retention store)) as [Hlim|Hno].
  2: { rewrite cleanup_unlimited in Hgone by lia. congruence. }
  rewrite cleanup_lookup in Hgone, Hkept by done.
  destruct (decide (k ∈ _)) as [|Hk]; [done|].
  destruct (decide (r ∈ _)) as [Hin|]; [|congruence].
  destruct (marked_cases now store) as [(Hnone & Hm & Hover)|Hret'].
  2: { rewrite retention_marks in Hin, Hk by done.
       apply retentionPass_ids in Hin as (tr' & Htr' & Hexp).
       assert (tr' = tr) as -> by congruence.
       apply Z.lt_le_incl, (expired_older now store); [done|].
       destruct (expired now store tk) eqn:E; [|done].
       exfalso. apply Hk, retentionPass_ids. eauto. }
  destruct (size_pass_marks now store Hnone Hm Hover) as (n & _ & Heq & _).
  rewrite Heq in Hin, Hk.
  apply list_elem_of_fmap in Hin as (a & -> & Ha).
  assert (Hb : mkTraceAge k (EndTime tk) ∈ sort_ages (agesOf store)).
  { rewrite sort_ages_perm. apply elem_of_agesOf. eauto. }
  rewrite <- (take_drop n (sort_ages (agesOf store))) in Hb.
  apply elem_of_app in Hb as [Hb|Hb].
  { exfalso. apply Hk. apply list_elem_of_fmap. by exists (mkTraceAge k (EndTime tk)). }
  pose proof (sort_ages_sorted (agesOf store)) as Hsorted.
  rewrite <- (take_drop n (sort_ages (agesOf store))) in Hsorted.
  pose proof (StronglySorted_app_1_elem_of _ _ _ _ _ Hsorted Ha Hb) as Hle.
  assert (Ha' : a ∈ agesOf store).
  { rewrite <- (sort_ages_perm (agesOf store)). by eapply subseteq_take. }
  apply elem_of_agesOf in Ha' as (tr' & Htr' & Hage).
  assert (tr' = tr) as -> by congruence.
  unfold olderEq in Hle. simpl in Hle. lia.
Qed.

(** When the retention pass marks nothing, a sweep brings the number of
    stored spans to the cap. *)
Lemma sweep_cap now store :
  0 < maxSpans store → (retentionPass now store).1 = [] →
  totalSpans (cleanupOldTraces now store) ≤ maxSpans store.
Proof.
  intros Hm Hnone. rewrite cleanup_unfold by auto.
  destruct (Z.lt_ge_cases (maxSpans store) (totalSpans store)) as [Hover|Hfit].
  - destruct (size_pass_marks now store Hnone Hm Hover) as (n & _ & Heq & _ & Hstop).
    rewrite Heq, totalSpans_removeTraces; [done|].
    rewrite fmap_take. eapply sublist_NoDup; [apply sorted_ids_NoDup|apply sublist_take].
  - rewrite retention_marks, Hnone by lia. simpl. lia.
Qed.

(** The size pass stops at the first trace whose removal brings the total
    to the cap: without the youngest trace it removed the total would
    still exceed the cap. *)
Lemma sweep_minimal now store :
  0 < maxSpans store → (retentionPass now store).1 = [] →
  maxSpans store < totalSpans store →
  ∃ r tr, traces store !! r = Some tr
    ∧ traces (cleanupOldTraces now store) !! r = None
    ∧ maxSpans store
      < totalSpans (cleanupOldTraces now store) + Z.of_nat (size (Spans tr)).
Proof.
  intros Hm Hnone Hover.
  destruct (size_pass_marks now store Hnone Hm Hover) as (n & Hn & Heq & Hbefore & Hstop).
  assert (Hlen : length (sort_ages (agesOf store)) = length (agesOf store))
    by by rewrite sort_ages_perm.
  destruct n as [|n]; [simpl in Hstop; lia|].
  destruct (lookup_lt_is_Some_2 (sort_ages (agesOf store)) n) as [a Ha]; [lia|].
  assert (Htake : take (S n) (sort_ages (agesOf store))
                  = take n (sort_ages (agesOf store)) ++ [a])
    by by apply take_S_r.
  assert (Ha' : a ∈ agesOf store).
  { rewrite <- (sort_ages_perm (agesOf store)). by eapply list_elem_of_lookup_2. }
  apply elem_of_agesOf in Ha' as (tr & Htr & _).
  exists (ta_id a), tr. split; [done|].
  rewrite cleanup_lookup by auto. rewrite cleanup_unfold by auto.
  rewrite Heq, Htake. split.
  - rewrite decide_True; [done|]. rewrite fmap_app. apply elem_of_app. right.
    simpl. left.
  - rewrite totalSpans_removeTraces.
    + specialize (Hbefore n ltac:(lia)).
      rewrite fmap_app, sumCounts_app.
      assert (Hlast : sumCounts store (ta_id <$> [a]) = Z.of_nat (size (Spans tr))).
      { simpl. unfold spanCount. rewrite Htr. lia. }
      lia.
    + rewrite <- Htake, fmap_take.
      eapply sublist_NoDup; [apply sorted_ids_NoDup|apply sublist_take].
Qed.

(** When the retention pass marks a trace, the size pass does not run:
    the sweep removes the marked traces and no other. *)
Lemma sweep_retention_only now store id :
  (retentionPass now store).1 ≠ [] →
  traces (cleanupOldTraces now store) !! id = None
  ↔ traces store !! id = None ∨ id ∈ (retentionPass now store).1.
Proof.
  intros Hsome.
  assert (Hret : 0 < retention store).
  { destruct (retentionPass now store).1 as [|i l] eqn:E; [done|].
    assert (Hi : i ∈ (retentionPass now store).1) by (rewrite E; left).
    apply retentionPass_ids in Hi as (tr & _ & Hexp).
    unfold expired in Hexp. apply andb_true_iff in Hexp as [Hr _]. lia. }
  rewrite cleanup_lookup by auto. rewrite retention_marks by auto.
  destruct (decide (id ∈ _)) as [Hin|Hnin].
  - split; [intros _; by right|done].
  - split; [by left|]. by intros [?|?].
Qed.

Lemma filter_fst_NoDup {V} (P : string * V → Prop) `{∀ x, Decision (P x)} l :
  NoDup l.*1 → NoDup (filter P l).*1.
Proof.
  induction l as [|kv l IH]; [done|]. cbn [fmap list_fmap].
  intros [Hnin Hnd]%NoDup_cons. rewrite filter_cons.
  destruct (decide (P kv)); [|by apply IH].
  cbn [fmap list_fmap]. apply NoDup_cons. split; [|by apply IH].
  intros Hin. apply Hnin.
  apply list_elem_of_fmap in Hin as (kv' & -> & [_ Hin]%list_elem_of_filter).
  by apply list_elem_of_fmap_2.
Qed.

Lemma retentionPass_NoDup now store : NoDup (retentionPass now store).1.
Proof.
  unfold retentionPass. rewrite retention_fold. simpl.
  apply filter_fst_NoDup. rewrite (range_perm _ (traces store)).
  apply NoDup_fst_map_to_list.
Qed.

Lemma spanCount_nonneg store id : 0 ≤ spanCount store id.
Proof. unfold spanCount. destruct (traces store !! id); lia. Qed.

Lemma sumCounts_elem store id ids :
  id ∈ ids → spanCount store id ≤ sumCounts store ids.
Proof.
  induction ids as [|i ids IH]; [by intros ?%elem_of_nil|].
  rewrite sumCounts_cons. pose proof (spanCount_nonneg store i).
  intros [->|Hin]%elem_of_cons.
  - assert (0 ≤ sumCounts store ids); [|lia].
    clear. induction ids as [|j ids IH]; [done|].
    rewrite sumCounts_cons. pose proof (spanCount_nonneg store j). lia.
  - specialize (IH Hin). lia.
Qed.

(** When the cap is exceeded by one span and no stored trace is empty, a
    sweep brings the total to the cap whatever the retention pass marks. *)
Lemma sweep_cap_by_one now store :
  0 < maxSpans store → totalSpans store ≤ maxSpans store + 1 →
  tracesNonEmpty store →
  totalSpans (cleanupOldTraces now store) ≤ maxSpans store.
Proof.
  intros Hm Hone Hnonempty.
  destruct (retentionPass now store).1 as [|id ids] eqn:E.
  { by apply sweep_cap. }
  rewrite cleanup_unfold by auto.
  rewrite retention_marks by (left; by rewrite E).
  rewrite totalSpans_removeTraces by apply retentionPass_NoDup.
  assert (Hin : id ∈ (retentionPass now store).1) by (rewrite E; left).
  pose proof (sumCounts_elem store _ _ Hin) as Hge.
  apply retentionPass_ids in Hin as (trace & Htr & _).
  rewrite (spanCount_stored _ _ _ Htr) in Hge.
  specialize (Hnonempty _ _ Htr). lia.
Qed.

Lemma tracesNonEmpty_new max ret : tracesNonEmpty (NewTraceStore max ret).
Proof. intros id trace Hid. cbn in Hid. by rewrite lookup_empty in Hid. Qed.

Lemma AddSpan_write_nonempty sd store :
  tracesNonEmpty store → tracesNonEmpty (AddSpan_write sd store).
Proof.
  intros Hne id trace Hid.
  destruct (decide (id = traceIDOf sd)) as [->|Hother].
  - destruct (AddSpan_write_trace sd store) as (trace' & Htr & Hsp).
    rewrite Htr in Hid. injection Hid as <-. rewrite Hsp.
    apply Nat.neq_0_lt_0, map_size_non_empty_iff.
    intros Hempty. eapply (insert_non_empty (M := gmap string)). exact Hempty.
  - rewrite AddSpan_write_other in Hid by done. by eapply Hne.
Qed.

Lemma AddSpan_nonempty now sd store :
  tracesNonEmpty store → tracesNonEmpty (AddSpan now sd store).
Proof.
  intros Hne id trace Hid. apply AddSpan_lookup_Some in Hid.
  by eapply AddSpan_write_nonempty.
Qed.

(** C3. With a span cap configured, the sweep that ends AddSpan removes
    traces oldest end time first: every removed trace ended no later than
    every kept one. When the call takes the store one span over the cap (the
    eleventh span for a cap of ten) and no trace is empty, the stored span
    count after the call is at most the cap. When the retention pass marks
    nothing, the count after the call is at most the cap whatever it was,
    and the size pass stops as soon as it is: the youngest trace it removed
    was still needed. When the retention pass marks a trace, the size pass
    does not run and exactly the marked traces, those past retention, are
    removed. *)
Theorem size_pass_evicts_oldest now sd store :
  0 < maxSpans store →
  let written := AddSpan_write sd store in
  let after := AddSpan now sd store in
  (∀ r k tr tk,
      traces written !! r = Some tr → traces after !! r = None →
      traces after !! k = Some tk → EndTime tr ≤ EndTime tk)
  ∧ (tracesNonEmpty store → totalSpans written ≤ maxSpans store + 1 →
     totalSpans after ≤ maxSpans store)
  ∧ ((retentionPass now written).1 = [] →
     totalSpans after ≤ maxSpans store
     ∧ (maxSpans store < totalSpans written →
        ∃ r tr, traces written !! r = Some tr ∧ traces after !! r = None
          ∧ maxSpans store < totalSpans after + Z.of_nat (size (Spans tr))))
  ∧ ((retentionPass now written).1 ≠ [] →
     ∀ id, traces after !! id = None
           ↔ traces written !! id = None ∨ id ∈ (retentionPass now written).1)
  ∧ (∀ id, id ∈ (retentionPass now written).1
           ↔ ∃ trace, traces written !! id = Some trace
               ∧ expired now written trace = true).
Proof.
  intros Hm written after.
  assert (Hm' : 0 < maxSpans written) by done.
  change (maxSpans store) with (maxSpans written).
  unfold after, AddSpan. fold written.
  split_and!.
  - intros r k tr tk. apply sweep_oldest_first.
  - intros Hne Hone. apply sweep_cap_by_one; [done..|].
    by apply AddSpan_write_nonempty.
  - intros Hnone. split.
    + by apply sweep_cap.
    + by apply sweep_minimal.
  - intros Hsome id. by apply sweep_retention_only.
  - intros id. apply retentionPass_ids.
Qed.

End Sweep.

Import Scenario.

(** The scenario of C3: a cap of 10, ten spans stored in three traces, and
    an eleventh span in a fourth trace. The sweep removes the trace that
    ended first and nothing else. *)
Lemma size_pass_evicts_oldest_witness :
  let written := AddSpan_write eleventh tenStored in
  let after := AddSpan (H := canonicalRange) 500 eleventh tenStored in
  0 < maxSpans tenStored
  ∧ maxSpans tenStored = 10
  ∧ (retentionPass (H := canonicalRange) 500 written).1 = []
  ∧ totalSpans written = 11
  ∧ totalSpans after ≤ maxSpans tenStored
  ∧ (map_to_list (traces after)).*1
    = [EncodeToString traceC; EncodeToString traceB; EncodeToString traceD].
Proof.
  intros written after.
  assert (Hm : 0 < maxSpans tenStored) by (vm_compute; reflexivity).
  assert (Hnone : (retentionPass (H := canonicalRange) 500 written).1 = [])
    by (vm_compute; reflexivity).
  split_and!; [exact Hm|vm_compute; reflexivity|exact Hnone|vm_compute; reflexivity|
               |vm_compute; reflexivity].
  destruct (size_pass_evicts_oldest (H := canonicalRange) 500 eleventh tenStored Hm)
    as (_ & _ & Hcap & _).
  apply (Hcap Hnone).
Defined.

End SweepSpec.

(** * Properties of the search *)

Module SearchSpec.
Import mcpserver.
Import SweepSpec.

Section SearchLemmas.
Context `{MapRange}.
Variable ParseDuration : string → option Duration.

Lemma insightStep_id trace file acc ctx :
  d_TraceID (insightStep trace file acc ctx).1 = d_TraceID acc.1.
Proof.
  unfold insightStep. destruct acc as [d i]. destruct (String.eqb _ _); [|done].
  by destruct (isErrorOp _).
Qed.

Lemma insightSteps_id trace file acc ctxs :
  d_TraceID (foldl (insightStep trace file) acc ctxs).1 = d_TraceID acc.1.
Proof.
  revert acc. induction ctxs as [|c ctxs IH]; intros acc; simpl; [done|].
  by rewrite IH, insightStep_id.
Qed.

Lemma fileStep_id store trace acc fv :
  d_TraceID (fileStep store trace acc fv).1 = d_TraceID acc.1.
Proof.
  unfold fileStep. simpl.
  generalize (default (mkInsight fv.1 [] [] []) (acc.2 !! fv.1)). intros insight.
  assert (Hgen : ∀ spans a,
    d_TraceID (foldl (λ a span, foldl (insightStep trace fv.1) a (FileContexts span))
                 a spans).1 = d_TraceID a.1).
  { induction spans as [|sp spans IH]; intros a; simpl; [done|].
    by rewrite IH, insightSteps_id. }
  by rewrite Hgen.
Qed.

Lemma fileSteps_id store trace acc fvs :
  d_TraceID (foldl (fileStep store trace) acc fvs).1 = d_TraceID acc.1.
Proof.
  revert acc. induction fvs as [|fv fvs IH]; intros acc; simpl; [done|].
  by rewrite IH, fileStep_id.
Qed.

(** The ids the loop returns: those already found, then the matches among
    the remaining traces, up to the limit. *)
Lemma searchLoop_ids store req fileSet minTime items found fileInsights :
  Limit req ≤ 0 ∨ Z.of_nat (length found) < Limit req →
  d_TraceID <$> (searchLoop store req fileSet minTime items found fileInsights).1
  = (d_TraceID <$> found)
    ++ (if Limit req >? 0
        then take (Z.to_nat (Limit req) - length found)
        else λ l, l)
         (filter (λ kv, matchesSearch req fileSet minTime kv.2 = true) items).*1.
Proof.
  revert found fileInsights.
  induction items as [|kv items IH]; intros found fileInsights Hroom.
  - simpl. destruct (Limit req >? 0); by rewrite ?take_nil, app_nil_r.
  - cbn [searchLoop].
    destruct (outsideTimeRange minTime kv.2) eqn:E1;
      [rewrite filter_cons_False by (unfold matchesSearch; rewrite E1; done);
       by apply IH|].
    destruct (failsErrorsOnly req kv.2) eqn:E2;
      [rewrite filter_cons_False by (unfold matchesSearch; rewrite E1, E2; done);
       by apply IH|].
    destruct (failsFileFilter fileSet kv.2) eqn:E3;
      [rewrite filter_cons_False by (unfold matchesSearch; rewrite E1, E2, E3; done);
       by apply IH|].
    rewrite filter_cons_True by (unfold matchesSearch; rewrite E1, E2, E3; done).
    set (r := foldl (fileStep store kv.2) (newDigest store kv.1 kv.2, fileInsights)
                (range (Files kv.2))).
    assert (Hid : d_TraceID r.1 = kv.1) by (unfold r; by rewrite fileSteps_id).
    cbn [fmap list_fmap]. cbv zeta.
    destruct (Z.gtb_spec (Limit req) 0) as [Hpos|Hnon]; cbn [andb].
    + destruct Hroom as [?|Hroom]; [lia|].
      rewrite length_app. cbn [length].
      destruct (Z.geb_spec (Z.of_nat (length found + 1)) (Limit req)) as [Hfull|Hmore].
      * cbn [fst]. rewrite fmap_app. cbn [fmap list_fmap]. rewrite Hid.
        replace (Z.to_nat (Limit req) - length found)%nat with 1%nat by lia.
        simpl. by rewrite take_0.
      * rewrite IH by (right; rewrite length_app; simpl; lia).
        rewrite fmap_app, length_app. cbn [fmap list_fmap length]. rewrite Hid.
        rewrite <- app_assoc. f_equal.
        replace (Z.to_nat (Limit req) - length found)%nat
          with (S (Z.to_nat (Limit req) - (length found + 1)))%nat by lia.
        done.
    + rewrite IH by (left; lia).
      rewrite fmap_app. cbn [fmap list_fmap]. rewrite Hid, <- app_assoc. done.
Qed.

Lemma fileSet_fold files (m : gmap string bool) f :
  foldl (λ fs f, <[f := true]> fs) m files !! f = Some true →
  m !! f = Some true ∨ f ∈ files.
Proof.
  revert m. induction files as [|g files IH]; intros m; simpl; [by left|].
  intros [Hm|Hin]%IH; [|right; by right].
  destruct (decide (g = f)) as [->|Hne]; [right; left|].
  rewrite lookup_insert_ne in Hm by done. by left.
Qed.

Lemma hasMatchingFile_listed req fs trace :
  fileSetOf req = Some fs → hasMatchingFile fs trace = true →
  ∃ f, f ∈ req_Files req ∧ is_Some (Files trace !! f).
Proof.
  intros Hfs Hhas. unfold hasMatchingFile in Hhas.
  apply existsb_exists in Hhas as ([f b] & Hin & Hf).
  apply list_elem_of_In, elem_of_range in Hin.
  exists f. split; [|by eexists].
  unfold fileSetOf in Hfs. destruct (req_Files req) as [|g files] eqn:E; [done|].
  injection Hfs as <-.
  destruct (fileSet_fold (g :: files) ∅ f) as [El|El];
    [|by rewrite lookup_empty in El|done].
  revert Hf. cbn [fst]. by destruct (foldl _ _ _ !! f) as [[]|].
Qed.

(** C6. The digests SearchTraces returns are those of the traces that pass
    the age cutoff, then the error filter, then the file filter, in the
    order the traces are visited, cut at the limit: with errorsOnly every
    returned trace has status "error", with a file list every returned
    trace touches a listed file, and with a positive limit at most that
    many digests are returned. *)
Theorem search_filters_and_cap now store req :
  let resp := SearchTraces ParseDuration now store req in
  let minTime := minTimeOf ParseDuration now req in
  d_TraceID <$> resp_Traces resp
  = (capped (Limit req)
       (filter (λ kv, matchesSearch req (fileSetOf req) minTime kv.2 = true)
          (range (traces store)))).*1
  ∧ (∀ d, d ∈ resp_Traces resp →
       ∃ trace, traces store !! d_TraceID d = Some trace
         ∧ (IsZero minTime = false → minTime ≤ EndTime trace)
         ∧ (ErrorsOnly req = true → Status trace = "error")
         ∧ (req_Files req ≠ [] →
            ∃ f, f ∈ req_Files req ∧ is_Some (Files trace !! f)))
  ∧ (0 < Limit req → Z.of_nat (length (resp_Traces resp)) ≤ Limit req).
Proof.
  intros resp minTime.
  assert (Hids : d_TraceID <$> resp_Traces resp
    = (capped (Limit req)
         (filter (λ kv, matchesSearch req (fileSetOf req) minTime kv.2 = true)
            (range (traces store)))).*1).
  { unfold resp, SearchTraces. cbn [resp_Traces].
    rewrite searchLoop_ids by (simpl; lia). simpl. rewrite Nat.sub_0_r.
    unfold capped. destruct (Limit req >? 0); [|done]. by rewrite fmap_take. }
  split_and!; [done| |].
  - intros d Hd.
    assert (Hin : d_TraceID d ∈ d_TraceID <$> resp_Traces resp)
      by by apply list_elem_of_fmap_2.
    rewrite Hids in Hin. apply list_elem_of_fmap in Hin as ([id trace] & Hid & Hin).
    simpl in Hid. subst id.
    assert (Hin' : (d_TraceID d, trace)
                   ∈ filter (λ kv, matchesSearch req (fileSetOf req) minTime kv.2 = true)
                       (range (traces store))).
    { unfold capped in Hin. destruct (Limit req >? 0); [|done].
      by eapply subseteq_take. }
    apply list_elem_of_filter in Hin' as [Hmatch Hrange]. simpl in Hmatch.
    apply elem_of_range in Hrange. exists trace. split; [done|].
    unfold matchesSearch in Hmatch.
    apply andb_true_iff in Hmatch as [[Hage Herr]%andb_true_iff Hfile].
    apply negb_true_iff in Hage, Herr, Hfile. split_and!.
    + intros Hnz. unfold outsideTimeRange in Hage. rewrite Hnz in Hage. simpl in Hage.
      unfold Before in Hage. apply Z.ltb_ge in Hage. done.
    + intros Herrs. unfold failsErrorsOnly in Herr. rewrite Herrs in Herr.
      simpl in Herr. apply negb_false_iff in Herr. by apply String.eqb_eq.
    + intros Hfiles. unfold failsFileFilter in Hfile.
      destruct (fileSetOf req) as [fs|] eqn:Hfs.
      * apply negb_false_iff in Hfile. by eapply hasMatchingFile_listed.
      * unfold fileSetOf in Hfs. by destruct (req_Files req).
  - intros Hpos.
    rewrite <- (length_fmap d_TraceID), Hids, length_fmap. unfold capped.
    rewrite (proj2 (Z.gtb_gt _ _)) by lia. rewrite length_take. lia.
Qed.

End SearchLemmas.
End SearchSpec.

(** * Properties of the HTTP backend *)

Module HttpSpec.
Import otlpserver.

Section HttpLemmas.
Context {App : Type}.
Variable protoUnmarshalTraces jsonUnmarshalTraces : list Byte.byte → ExportTraceServiceRequest.
Variable protoUnmarshalLogs jsonUnmarshalLogs : list Byte.byte → ExportLogsServiceRequest.
Context `{MapRange}.

Abbreviation serve :=
  (ServeHTTP (App := App) protoUnmarshalTraces jsonUnmarshalTraces
     protoUnmarshalLogs jsonUnmarshalLogs).

(** C8, as the code has it. A request whose body is read and whose
    Content-Type is neither application/x-protobuf nor application/json is
    answered 406 Not Acceptable, unless it is a logs request and no log
    callback is registered, which is answered 200 OK before the content
    type is looked at. Either way no callback is invoked, no shutdown is
    started and the state behind the callbacks is unchanged. *)
Theorem unsupported_content_type_rejected (hs : HttpServer App) (a : App) (req : Request) data :
  Body req = Some data →
  Header_Get (Header req) "Content-Type" ≠ "application/x-protobuf" →
  Header_Get (Header req) "Content-Type" ≠ "application/json" →
  (¬ logsDiscarded hs req →
   serve hs a req = Responded (mkResponse StatusNotAcceptable a [] false))
  ∧ (logsDiscarded hs req →
     serve hs a req = Responded (mkResponse StatusOK a [] false)).
Proof.
  intros Hbody Hpb Hjson.
  apply String.eqb_neq in Hpb, Hjson.
  assert (Htraces : handleTraces protoUnmarshalTraces jsonUnmarshalTraces hs a req
                    = Responded (mkResponse StatusNotAcceptable a [] false)).
  { unfold handleTraces. by rewrite Hbody, Hpb, Hjson. }
  unfold ServeHTTP, logsDiscarded.
  destruct (String.eqb_spec (RequestURI req) "/v1/traces") as [Ht|Ht].
  { split; [done|]. intros [Hl _]. rewrite Hl in Ht. discriminate. }
  destruct (String.eqb_spec (RequestURI req) "/v1/logs") as [Hl|Hl].
  2: { split; [done|]. by intros [? _]. }
  unfold handleLogs. destruct (logCallback hs) as [cb|] eqn:Hcb.
  - split; [|by intros [_ ?]]. intros _. by rewrite Hbody, Hpb, Hjson.
  - split; [|done]. intros Hn. exfalso. by apply Hn.
Qed.

End HttpLemmas.

Import Scenario.

Lemma unsupported_content_type_rejected_witness :
  let req :=
    mkRequest "POST" "HTTP/1.1" "localhost:4318" "/v1/traces"
      {[ "Content-Type" := ["text/plain"] ]} (Some []) in
  Body req = Some []
  ∧ Header_Get (Header req) "Content-Type" ≠ "application/x-protobuf"
  ∧ Header_Get (Header req) "Content-Type" ≠ "application/json"
  ∧ ServeHTTP noTraces noTraces noLogs noLogs (H := canonicalRange)
      countingServer 0%nat req
    = Responded (mkResponse 406 0%nat [] false).
Proof.
  intros req.
  assert (H1 : Header_Get (Header req) "Content-Type" ≠ "application/x-protobuf")
    by (vm_compute; discriminate).
  assert (H2 : Header_Get (Header req) "Content-Type" ≠ "application/json")
    by (vm_compute; discriminate).
  split_and!; [reflexivity|exact H1|exact H2|].
  apply (unsupported_content_type_rejected noTraces noTraces noLogs noLogs
           (H := canonicalRange) countingServer 0%nat req [] eq_refl H1 H2).
  unfold logsDiscarded. intros [Huri _]. vm_compute in Huri. discriminate.
Defined.

(** C8, as stated, fails for a logs request when no log callback is
    registered: the answer is 200 OK, not 406. *)
Lemma logs_without_callback_counterexample :
  Body plainTextLogs = Some []
  ∧ Header_Get (Header plainTextLogs) "Content-Type" = "text/plain"
  ∧ ∃ r, ServeHTTP noTraces noTraces noLogs noLogs (H := canonicalRange)
           countingServer 0%nat plainTextLogs = Responded r
         ∧ StatusCode r = StatusOK
         ∧ StatusCode r ≠ StatusNotAcceptable.
Proof.
  split; [reflexivity|]. split; [vm_compute; reflexivity|].
  eexists. split; [vm_compute; reflexivity|]. split; [reflexivity|discriminate].
Qed.

End HttpSpec.

(** * Properties of the code analyzer *)

Module AnalyzerSpec.
Import mcpserver.

(** *** Paths *)

Lemma append_cons c a b : String c a +:+ b = String c (a +:+ b).
Proof. done. Qed.

Lemma append_assoc a b c : (a +:+ b) +:+ c = a +:+ b +:+ c.
Proof. induction a as [|x a IH]; [done|]. by rewrite !append_cons, IH. Qed.

Lemma elements_app cur a b :
  elements cur (a +:+ String "/" b) = elements cur a ++ elements EmptyString b.
Proof.
  revert cur. induction a as [|c a IH]; intros cur; [done|].
  rewrite append_cons. cbn [elements].
  destruct (Ascii.eqb c "/"); by rewrite IH.
Qed.

Lemma concat_snoc sep l x :
  ∃ pre, String.concat sep (l ++ [x]) = pre +:+ x.
Proof.
  induction l as [|y l [pre IH]].
  - by exists EmptyString.
  - cbn [app String.concat]. destruct (l ++ [x]) as [|z l'] eqn:E.
    + by destruct l.
    + exists (y +:+ sep +:+ pre). rewrite IH. by rewrite !append_assoc.
Qed.

Lemma append_nonempty pre x :
  x ≠ EmptyString → String.eqb (pre +:+ x) EmptyString = false.
Proof.
  intros Hx. apply String.eqb_neq. destruct pre; [done|]. by rewrite append_cons.
Qed.

(** Joining a file name to any root gives a path that ends in the name. *)
Lemma Join_handler root :
  ∃ pre, filepath_Join root "handler.go" = pre +:+ "handler.go".
Proof.
  unfold filepath_Join. destruct root as [|c root].
  - by exists EmptyString.
  - cbn [String.eqb negb].
    change (String c root +:+ "/" +:+ "handler.go")
      with (String c (root +:+ String "/" "handler.go")).
    unfold Clean.
    change (String c (root +:+ String "/" "handler.go"))
      with (String c root +:+ String "/" "handler.go").
    rewrite elements_app, foldl_app.
    set (out := foldl (cleanStep (Ascii.eqb c "/")) [] _).
    change (elements EmptyString "handler.go") with ["handler.go"].
    cbn [foldl]. change (cleanStep (Ascii.eqb c "/") out "handler.go")
      with ("handler.go" :: out).
    cbn [rev]. destruct (concat_snoc "/" (rev out) "handler.go") as [pre Hpre].
    rewrite Hpre. destruct (Ascii.eqb c "/").
    + exists ("/" +:+ pre). by rewrite append_assoc.
    + rewrite append_nonempty by done. by exists pre.
Qed.

Section AnalyzerLemmas.
Variable unicodeToLower : string → string.
Variable FindStringSubmatch : string → string → list string.
Variable fs : FileSystem.

Abbreviation enrich := (enrichWithFileContents unicodeToLower FindStringSubmatch fs).
Abbreviation readFile := (readFileContents unicodeToLower FindStringSubmatch fs).
Abbreviation fromSpan := (extractFilePathsFromSpan unicodeToLower FindStringSubmatch fs).
Abbreviation fromEvent := (extractFilePathsFromEvent unicodeToLower FindStringSubmatch fs).
Abbreviation fromStack := (processStackTrace unicodeToLower FindStringSubmatch fs).
Abbreviation ofEvent := (analyzeEvent unicodeToLower FindStringSubmatch fs).
Abbreviation analyze := (AnalyzeSpan unicodeToLower FindStringSubmatch fs).
Abbreviation append := (appendEnriched unicodeToLower FindStringSubmatch fs).

(** *** What reading the file changes *)

Lemma inferFunctionName_frame c :
  let c' := inferFunctionName unicodeToLower FindStringSubmatch c in
  FilePath c' = FilePath c ∧ LineStart c' = LineStart c ∧ LineEnd c' = LineEnd c
  ∧ ctx_SpanID c' = ctx_SpanID c ∧ ctx_TraceID c' = ctx_TraceID c
  ∧ Operation c' = Operation c.
Proof.
  unfold inferFunctionName. destruct (String.eqb _ _); [done|].
  by destruct (find _ _).
Qed.

Lemma readFile_frame c :
  FilePath (readFile c) = FilePath c ∧ ctx_SpanID (readFile c) = ctx_SpanID c
  ∧ ctx_TraceID (readFile c) = ctx_TraceID c ∧ Operation (readFile c) = Operation c.
Proof.
  unfold readFileContents. destruct (scanLines fs (FilePath c)); [|done].
  match goal with |- context [inferFunctionName _ _ ?x] =>
    destruct (inferFunctionName_frame x) as (-> & _ & _ & -> & -> & ->) end.
  done.
Qed.

(** A window that starts at a positive line and spans at most 50 lines is
    kept as it is. *)
Lemma readFile_lines c :
  0 < LineStart c → LineStart c < LineEnd c →
  wrap64 (LineEnd c - LineStart c) ≤ 50 →
  LineStart (readFile c) = LineStart c ∧ LineEnd (readFile c) = LineEnd c.
Proof.
  intros Hs He Hw. unfold readFileContents.
  destruct (scanLines fs (FilePath c)); [|done].
  match goal with |- context [inferFunctionName _ _ ?x] =>
    destruct (inferFunctionName_frame x) as (_ & -> & -> & _) end.
  cbn [LineStart LineEnd set_CodeSnapshot set_Lines].
  destruct (Z.leb_spec (LineStart c) 0); [lia|].
  destruct (Z.leb_spec (LineEnd c) (LineStart c)); [lia|].
  destruct (Z.gtb_spec (wrap64 (LineEnd c - LineStart c)) 50); [lia|]. done.
Qed.

(** A call of enrichWithFileContents that returns leaves the context as
    it is or reads the file. *)
Lemma enrich_Some c c' : enrich c = Some c' → c' = c ∨ c' = readFile c.
Proof.
  unfold enrichWithFileContents.
  destruct (String.eqb _ _); [intros [= <-]; by left|].
  destruct (fileExists fs (FilePath c)) as [[]|]; cbn; [| |done].
  - intros [= <-]. by right.
  - intros [= <-]. by left.
Qed.

Lemma enrich_frame c c' :
  enrich c = Some c' →
  FilePath c' = FilePath c ∧ ctx_SpanID c' = ctx_SpanID c
  ∧ ctx_TraceID c' = ctx_TraceID c ∧ Operation c' = Operation c.
Proof. intros [->| ->]%enrich_Some; [done|apply readFile_frame]. Qed.

Lemma enrich_lines c c' :
  enrich c = Some c' →
  0 < LineStart c → LineStart c < LineEnd c →
  wrap64 (LineEnd c - LineStart c) ≤ 50 →
  LineStart c' = LineStart c ∧ LineEnd c' = LineEnd c.
Proof. intros [->| ->]%enrich_Some; [done|apply readFile_lines]. Qed.

(** It panics exactly when the path is not empty and [os.Stat] fails for
    it. *)
Lemma enrich_None c :
  enrich c = None ↔ FilePath c ≠ EmptyString ∧ stat fs (FilePath c) = StatError.
Proof.
  unfold enrichWithFileContents, fileExists.
  destruct (String.eqb_spec (FilePath c) EmptyString) as [Heq|Hne].
  - split; [done|]. by intros [? _].
  - destruct (stat fs (FilePath c)) as [| |[]]; cbn; split; try done; by intros [_ ?].
Qed.

Lemma enrich_returns c : statNeverFails fs → is_Some (enrich c).
Proof.
  intros Hfs. destruct (enrich c) eqn:E; [done|].
  apply enrich_None in E as [_ E]. by apply Hfs in E.
Qed.

(** *** The loops of the analyzer *)

Lemma append_Some acc c l :
  append acc c = Some l →
  ∃ cs c', acc = Some cs ∧ enrich c = Some c' ∧ l = cs ++ [c'].
Proof.
  unfold appendEnriched. destruct acc as [cs|]; [|done]. cbn.
  destruct (enrich c) as [c'|]; [|done]. cbn. intros [= <-]. by eexists _, _.
Qed.

(** A loop that returns started from contexts, not from a panic, and a
    property that every step keeps holds of what it returns. *)
Lemma loop_keeps {X} (P : CodeSpanContext → Prop)
    (step : option (list CodeSpanContext) → X → option (list CodeSpanContext)) :
  (∀ acc x l, step acc x = Some l →
     ∃ cs, acc = Some cs ∧ (Forall P cs → Forall P l)) →
  ∀ xs acc l, foldl step acc xs = Some l →
    ∃ cs, acc = Some cs ∧ (Forall P cs → Forall P l).
Proof.
  intros Hstep xs. induction xs as [|x xs IH]; intros acc l; cbn [foldl].
  - intros ->. by eexists.
  - intros (mid & Hmid & Hl)%IH. apply Hstep in Hmid as (cs & -> & Hcs).
    exists cs. split; [done|]. auto.
Qed.

(** A loop returns when each step returns after a step that did. *)
Lemma loop_returns {X}
    (step : option (list CodeSpanContext) → X → option (list CodeSpanContext)) :
  (∀ acc x, is_Some acc → is_Some (step acc x)) →
  ∀ xs acc, is_Some acc → is_Some (foldl step acc xs).
Proof.
  intros Hstep xs. induction xs as [|x xs IH]; intros acc Hacc; cbn [foldl]; auto.
Qed.

Lemma append_keeps (P : CodeSpanContext → Prop) acc c l :
  (∀ c', enrich c = Some c' → P c') →
  append acc c = Some l →
  ∃ cs, acc = Some cs ∧ (Forall P cs → Forall P l).
Proof.
  intros Hc (cs & c' & -> & Hc' & ->)%append_Some. exists cs. split; [done|].
  intros Hcs. apply Forall_app. split; [done|]. constructor; [auto|constructor].
Qed.

Lemma append_returns acc c : statNeverFails fs → is_Some acc → is_Some (append acc c).
Proof.
  intros Hfs [cs ->]. destruct (enrich_returns c Hfs) as [c' Hc'].
  unfold appendEnriched. cbn. rewrite Hc'. by eexists.
Qed.

(** *** Where the ids of a context come from *)

Lemma fromSpan_ids ca span cs :
  fromSpan ca span = Some cs → Forall (carriesIds span) cs.
Proof.
  unfold extractFilePathsFromSpan. intros Hcs.
  eapply (loop_keeps (carriesIds span)) in Hcs as (nil & [= <-] & Hcs); [by apply Hcs|].
  intros acc attr l. destruct (isFileAttr _ _ _); [|by eexists].
  apply append_keeps. intros c' (_ & Hs & Ht & _)%enrich_frame.
  unfold carriesIds. by rewrite Hs, Ht.
Qed.

Lemma fromEvent_ids ca event cs :
  fromEvent ca event = Some cs → Forall carriesNoIds cs.
Proof.
  unfold extractFilePathsFromEvent. intros Hcs.
  eapply (loop_keeps carriesNoIds) in Hcs as (nil & [= <-] & Hcs); [by apply Hcs|].
  intros acc attr l. destruct (isFileAttr _ _ _); [|by eexists].
  apply append_keeps. intros c' (_ & Hs & Ht & _)%enrich_frame.
  unfold carriesNoIds. by rewrite Hs, Ht.
Qed.

Lemma stackTraceStep_ids ca acc m l :
  stackTraceStep unicodeToLower FindStringSubmatch fs ca acc m = Some l →
  ∃ cs, acc = Some cs ∧ (Forall carriesNoIds cs → Forall carriesNoIds l).
Proof.
  unfold stackTraceStep.
  destruct m as [|m0 [|m1 [|m2 m]]]; try (by eexists).
  destruct (isFileInProject _ _); [|by eexists].
  apply append_keeps. intros c' (_ & Hs & Ht & _)%enrich_frame.
  unfold carriesNoIds. by rewrite Hs, Ht.
Qed.

Lemma fromStack_ids ca event cs :
  fromStack ca event = Some cs → Forall carriesNoIds cs.
Proof.
  unfold processStackTrace. destruct (String.eqb _ _); [by intros [= <-]|].
  intros Hcs.
  eapply (loop_keeps carriesNoIds) in Hcs as (nil & [= <-] & Hcs); [by apply Hcs|].
  intros acc m l. apply stackTraceStep_ids.
Qed.

Lemma analyzeEvent_ids ca event cs :
  ofEvent ca event = Some cs → Forall carriesNoIds cs.
Proof.
  unfold analyzeEvent.
  destruct (if _ || _ then fromStack ca event else Some []) as [st|] eqn:Est; [|done].
  destruct (fromEvent ca event) as [ops|] eqn:Eops; [|done].
  cbn. intros [= <-]. apply Forall_app. split; [|by eapply fromEvent_ids].
  destruct (_ || _); [by eapply fromStack_ids|]. by injection Est as <-.
Qed.

(** The contexts of a span: those of its attributes, then those of each
    event in turn; a panic anywhere is a panic of the whole. *)
Lemma analyze_unfold ca span events :
  analyze ca span events
  = (fromAttrs ← fromSpan ca span;
     fromEvents ← mapM (ofEvent ca) events;
     Some (fromAttrs ++ concat fromEvents)).
Proof.
  unfold AnalyzeSpan. generalize (fromSpan ca span). intros acc.
  revert acc. induction events as [|e events IH]; intros acc; cbn [foldl mapM].
  - destruct acc as [cs|]; [|done]. cbn. by rewrite app_nil_r.
  - rewrite IH. destruct acc as [cs|]; [|done]. cbn.
    destruct (ofEvent ca e) as [found|]; [|done]. cbn.
    destruct (mapM (ofEvent ca) events) as [rest|]; [|done]. cbn.
    by rewrite app_assoc.
Qed.

(** *** When the analyzer returns *)

Lemma fromSpan_returns ca span : statNeverFails fs → is_Some (fromSpan ca span).
Proof.
  intros Hfs. unfold extractFilePathsFromSpan. apply loop_returns; [|done].
  intros acc attr Hacc. destruct (isFileAttr _ _ _); [|done]. by apply append_returns.
Qed.

Lemma fromEvent_returns ca event : statNeverFails fs → is_Some (fromEvent ca event).
Proof.
  intros Hfs. unfold extractFilePathsFromEvent. apply loop_returns; [|done].
  intros acc attr Hacc. destruct (isFileAttr _ _ _); [|done]. by apply append_returns.
Qed.

Lemma fromStack_returns ca event : statNeverFails fs → is_Some (fromStack ca event).
Proof.
  intros Hfs. unfold processStackTrace. destruct (String.eqb _ _); [done|].
  apply loop_returns; [|done].
  intros acc m Hacc. unfold stackTraceStep.
  destruct m as [|m0 [|m1 [|m2 m]]]; try done.
  destruct (isFileInProject _ _); [|done]. by apply append_returns.
Qed.

Lemma analyzeEvent_returns ca event : statNeverFails fs → is_Some (ofEvent ca event).
Proof.
  intros Hfs. unfold analyzeEvent.
  destruct (fromEvent_returns ca event Hfs) as [ops ->].
  destruct (_ || _); [|by eexists].
  destruct (fromStack_returns ca event Hfs) as [st ->]. by eexists.
Qed.

Lemma analyze_returns ca span events :
  statNeverFails fs → is_Some (analyze ca span events).
Proof.
  intros Hfs. unfold AnalyzeSpan. apply loop_returns; [|by apply fromSpan_returns].
  intros acc event [cs ->]. cbn.
  destruct (analyzeEvent_returns ca event Hfs) as [found ->]. by eexists.
Qed.

(** *** Grouping by trace id *)

Lemma group_lookup (l : list CodeSpanContext) (m : gmap string (list CodeSpanContext)) tid :
  foldl (λ result sc,
           <[ctx_TraceID sc := default [] (result !! ctx_TraceID sc) ++ [sc]]> result)
    m l !! tid
  = match filter (λ sc, ctx_TraceID sc = tid) l with
    | [] => m !! tid
    | g => Some (default [] (m !! tid) ++ g)
    end.
Proof.
  revert m. induction l as [|sc l IH]; intros m; [done|].
  cbn [foldl]. rewrite IH.
  destruct (decide (ctx_TraceID sc = tid)) as [Heq|Hne].
  - rewrite filter_cons_True by done. rewrite Heq, lookup_insert_eq. simpl.
    destruct (filter _ l); [done|]. by rewrite <- app_assoc.
  - rewrite filter_cons_False by done. by rewrite lookup_insert_ne.
Qed.

Lemma GetFileTraces_lookup store filePath tid :
  GetFileTraces store filePath !! tid
  = match filter (λ sc, ctx_TraceID sc = tid)
            (default [] (spansByFile store !! filePath)) with
    | [] => None
    | g => Some g
    end.
Proof.
  unfold GetFileTraces. rewrite group_lookup, lookup_empty. simpl.
  by destruct (filter _ _).
Qed.

(** C10. The contexts of a span are those of its attributes followed by
    those of its events; the analyzer returns them on every file system
    where os.Stat fails only for paths that do not exist. Those of the
    attributes carry the hex ids of the span; those of an event, from its
    attributes or from its stack trace, carry no id. GetFileTraces
    therefore files every context without a trace id, and so every event
    and stack trace context, under the empty key, whatever trace it came
    from. *)
Theorem ids_only_from_span_attributes ca span events store filePath :
  analyze ca span events
  = (fromAttrs ← fromSpan ca span;
     fromEvents ← mapM (ofEvent ca) events;
     Some (fromAttrs ++ concat fromEvents))
  ∧ (statNeverFails fs → is_Some (analyze ca span events))
  ∧ (∀ cs, fromSpan ca span = Some cs → Forall (carriesIds span) cs)
  ∧ (∀ event cs,
       (fromEvent ca event = Some cs → Forall carriesNoIds cs)
       ∧ (fromStack ca event = Some cs → Forall carriesNoIds cs)
       ∧ (ofEvent ca event = Some cs → Forall carriesNoIds cs))
  ∧ (∀ sc, sc ∈ default [] (spansByFile store !! filePath) → carriesNoIds sc →
       ∃ group, GetFileTraces store filePath !! EmptyString = Some group
                ∧ sc ∈ group
                ∧ group = filter (λ sc, ctx_TraceID sc = EmptyString)
                            (default [] (spansByFile store !! filePath))).
Proof.
  split_and!.
  - apply analyze_unfold.
  - apply analyze_returns.
  - apply fromSpan_ids.
  - intros event cs. split_and!;
      [apply fromEvent_ids|apply fromStack_ids|apply analyzeEvent_ids].
  - intros sc Hin [Htid _].
    assert (Hf : sc ∈ filter (λ sc, ctx_TraceID sc = EmptyString)
                        (default [] (spansByFile store !! filePath)))
      by by apply list_elem_of_filter.
    rewrite GetFileTraces_lookup.
    destruct (filter _ _) as [|g0 g] eqn:E; [by apply elem_of_nil in Hf|].
    by eexists.
Qed.

(** *** The stack trace scenario *)

Import Scenario.

Lemma exception_matches :
  fileLineRegex_FindAll "handler.go:42: nil pointer"
  = [["handler.go:42"; "handler.go"; "42"]].
Proof. vm_compute. reflexivity. Qed.

Lemma exception_stack ca :
  fromStack ca exceptionEvent
  = if isFileInProject ca (filepath_Join (projectRoot ca) "handler.go")
    then c ← enrich (mkCtx (filepath_Join (projectRoot ca) "handler.go") 42 52
                       EmptyString EmptyString EmptyString "exception" EmptyString);
         Some [c]
    else Some [].
Proof.
  unfold processStackTrace.
  change (findStackTrace unicodeToLower (ev_Attributes exceptionEvent))
    with "handler.go:42: nil pointer".
  rewrite exception_matches. cbn [String.eqb Ascii.eqb Bool.eqb foldl].
  unfold stackTraceStep.
  change (Atoi "42") with 42. change (wrap64 (42 + 10)) with 52.
  change (IsAbs "handler.go") with false. cbn [negb].
  destruct (isFileInProject _ _); [|done].
  unfold appendEnriched. cbn. by destruct (enrich _).
Qed.

Lemma exception_attrs ca : fromEvent ca exceptionEvent = Some [].
Proof.
  unfold extractFilePathsFromEvent, exceptionEvent. cbn [ev_Attributes foldl].
  unfold isFileAttr. cbn [Key].
  change (ToLower unicodeToLower "stack_trace") with "stack_trace".
  change (Contains "stack_trace" "file") with false.
  change (Contains "stack_trace" "path") with false.
  done.
Qed.

(** What the analyzer makes of the span with the exception event, by the
    outcome of the stack trace. *)
Lemma exception_analysis ca span :
  fromSpan ca span = Some [] →
  analyze ca span [exceptionEvent]
  = if isFileInProject ca (filepath_Join (projectRoot ca) "handler.go")
    then c ← enrich (mkCtx (filepath_Join (projectRoot ca) "handler.go") 42 52
                       EmptyString EmptyString EmptyString "exception" EmptyString);
         Some [c]
    else Some [].
Proof.
  intros Hspan. rewrite analyze_unfold, Hspan. cbn [mapM].
  unfold analyzeEvent.
  change (String.eqb (ev_Name exceptionEvent) "exception") with true. cbn [orb].
  rewrite exception_stack, exception_attrs.
  destruct (isFileInProject _ _); [|done]. cbn.
  destruct (enrich _); [|done]. done.
Qed.

(** C9. For a span whose attributes yield no context and whose single
    event is named "exception" and carries stack_trace = "handler.go:42:
    nil pointer": when handler.go joined to the project root passes the
    project check and os.Stat does not fail for it, the analyzer returns
    exactly one context, whose path is the joined path and ends in
    handler.go, whose window is lines 42 to 52 and whose operation is
    "exception"; when the joined path does not pass the project check, the
    analyzer returns no context; when it passes and os.Stat fails for it
    with an error other than that it does not exist, the analyzer
    panics. *)
Theorem exception_stack_trace_context ca span :
  fromSpan ca span = Some [] →
  let path := filepath_Join (projectRoot ca) "handler.go" in
  (isFileInProject ca path = true → stat fs path ≠ StatError →
   ∃ ctx,
     analyze ca span [exceptionEvent] = Some [ctx]
     ∧ FilePath ctx = path
     ∧ (∃ dir, FilePath ctx = dir +:+ "handler.go")
     ∧ LineStart ctx = 42 ∧ LineEnd ctx = 52
     ∧ Operation ctx = "exception")
  ∧ (isFileInProject ca path = false → analyze ca span [exceptionEvent] = Some [])
  ∧ (isFileInProject ca path = true → stat fs path = StatError →
     analyze ca span [exceptionEvent] = None).
Proof.
  intros Hspan path. rewrite (exception_analysis ca span Hspan). fold path.
  split_and!.
  - intros -> Hstat.
    destruct (enrich (mkCtx path 42 52 EmptyString EmptyString EmptyString
                        "exception" EmptyString)) as [ctx|] eqn:E.
    + exists ctx. split; [done|].
      destruct (enrich_frame _ _ E) as (Hp & _ & _ & Hop).
      destruct (enrich_lines _ _ E) as (Hs & He); [done..|].
      rewrite Hp, Hs, He, Hop. split_and!; try done. apply Join_handler.
    + apply enrich_None in E as [_ E]. done.
  - by intros ->.
  - intros -> Hstat.
    assert (E : enrich (mkCtx path 42 52 EmptyString EmptyString EmptyString
                          "exception" EmptyString) = None).
    { apply enrich_None. split; [|done]. cbn [FilePath].
      destruct (Join_handler (projectRoot ca)) as [pre Hpre]. fold path in Hpre.
      rewrite Hpre. intros Hempty. by destruct pre. }
    by rewrite E.
Qed.

End AnalyzerLemmas.

Import Scenario.

Lemma exception_stack_trace_context_witness :
  let span := mkSpan traceA (spanId Byte.x01) [] "handle" [] [exceptionEvent] 1000 2000 in
  extractFilePathsFromSpan (λ s, s) (λ _ _, []) noFiles projAnalyzer span = Some []
  ∧ ∃ ctx,
      AnalyzeSpan (λ s, s) (λ _ _, []) noFiles projAnalyzer span [exceptionEvent]
      = Some [ctx]
      ∧ FilePath ctx = "/proj/handler.go"
      ∧ LineStart ctx = 42 ∧ LineEnd ctx = 52 ∧ Operation ctx = "exception".
Proof.
  intros span.
  assert (H1 : extractFilePathsFromSpan (λ s, s) (λ _ _, []) noFiles projAnalyzer span
               = Some [])
    by (vm_compute; reflexivity).
  assert (H2 : isFileInProject projAnalyzer
                 (filepath_Join (projectRoot projAnalyzer) "handler.go") = true)
    by (vm_compute; reflexivity).
  assert (H3 : stat noFiles (filepath_Join (projectRoot projAnalyzer) "handler.go")
               ≠ StatError) by discriminate.
  split; [exact H1|].
  destruct (exception_stack_trace_context (λ s, s) (λ _ _, []) noFiles
              projAnalyzer span H1) as (Hone & _ & _).
  destruct (Hone H2 H3) as (ctx & Hctx & Hpath & _ & Hs & He & Hop).
  exists ctx. split_and!; [exact Hctx|rewrite Hpath; vm_compute; reflexivity|
                           exact Hs|exact He|exact Hop].
Defined.

(** C9, as stated, fails for a project root that is not a prefix of the
    cleaned path: with the root "." the stack trace path is joined to
    "handler.go", which does not start with ".", and the analyzer returns
    no context. *)
Lemma relative_root_counterexample :
  let ca := mkAnalyzer "." in
  let span := mkSpan traceA (spanId Byte.x01) [] "handle" [] [exceptionEvent] 1000 2000 in
  filepath_Join (projectRoot ca) "handler.go" = "handler.go"
  ∧ isFileInProject ca "handler.go" = false
  ∧ AnalyzeSpan (λ s, s) (λ _ _, []) noFiles ca span [exceptionEvent] = Some [].
Proof. vm_compute. by split_and!. Qed.

End AnalyzerSpec.

(** * Properties of the shutdown *)

Module LifecycleSpec.
Import lifecycle.
Local Open Scope nat_scope.

(** A set of states that holds the start and is closed under [next] holds
    every reachable state. *)
Lemma closed_reachable V s0 s :
  s0 ∈ V → closedUnder V = true → reachable s0 s → s ∈ V.
Proof.
  intros Hstart Hclosed Hreach. induction Hreach as [|s s' _ IH Hstep]; [done|].
  unfold closedUnder in Hclosed. rewrite forallb_forall in Hclosed.
  specialize (Hclosed s (proj1 (list_elem_of_In _ _) IH)).
  rewrite forallb_forall in Hclosed.
  specialize (Hclosed s' (proj1 (list_elem_of_In _ _) Hstep)).
  by apply bool_decide_eq_true in Hclosed.
Qed.

Lemma certified_reachable entries s :
  certified entries = true → reachable (serving entries) s → checkState s = true.
Proof.
  unfold certified. intros [[Hstart Hclosed]%andb_true_iff Hall]%andb_true_iff Hreach.
  apply bool_decide_eq_true in Hstart.
  pose proof (closed_reachable _ _ _ Hstart Hclosed Hreach) as Hin.
  rewrite forallb_forall in Hall. apply Hall. by apply list_elem_of_In.
Qed.

(** The certificate for three callers, whatever each of them calls. *)
Lemma three_callers_certified e1 e2 e3 : certified [e1; e2; e3] = true.
Proof. destruct e1, e2, e3; vm_cast_no_check (eq_refl true). Qed.

Lemma callerOk_spec s c :
  callerOk s c = true → at_pc c = Returned →
  shutdown s ≠ AwaitStopper
  ∧ (entry c = CallStopWait →
     hookCalls s = 1 ∧ gracefulStops s = 1 ∧ serve s = ServeReturned).
Proof.
  unfold callerOk. intros Hok Hret. rewrite Hret in Hok.
  apply andb_true_iff in Hok as [Hs He].
  apply negb_true_iff, bool_decide_eq_false in Hs. split; [done|].
  intros Hentry. rewrite Hentry in He.
  apply andb_true_iff in He as [[Hh Hg]%andb_true_iff Hv].
  apply Nat.eqb_eq in Hh, Hg. by apply bool_decide_eq_true in Hv.
Qed.

Lemma finished_spec s :
  finished s = true →
  Forall (λ c, at_pc c = Returned) (callers s)
  ∧ hookCalls s = 1 ∧ gracefulStops s = 1.
Proof.
  unfold finished. intros [[Hc Hh]%andb_true_iff Hg]%andb_true_iff.
  apply Nat.eqb_eq in Hh, Hg. split; [|done].
  apply Forall_forall. intros c Hin. rewrite forallb_forall in Hc.
  apply (proj1 (bool_decide_eq_true _)), Hc. by apply list_elem_of_In.
Qed.

(** C7, for the gRPC backend. With a serving server and three callers,
    each calling Stop or StopWait, in every state any schedule can reach:
    the hook has run at most once and GracefulStop only after it; a caller
    that has returned has set the shutdown off, and a StopWait caller
    returns only when the hook and GracefulStop have run once and Serve has
    returned; every step uses up one of finitely many steps left, so every
    run ends; and a state without a further step is one where all three
    callers have returned and the shutdown has run exactly once. *)
Theorem grpc_shutdown_once e1 e2 e3 s :
  reachable (serving [e1; e2; e3]) s →
  hookCalls s ≤ 1 ∧ gracefulStops s ≤ hookCalls s
  ∧ (∀ c, c ∈ callers s → at_pc c = Returned →
       shutdown s ≠ AwaitStopper
       ∧ (entry c = CallStopWait →
          hookCalls s = 1 ∧ gracefulStops s = 1 ∧ serve s = ServeReturned))
  ∧ (∀ s', step s s' → stepsLeft s' < stepsLeft s)
  ∧ ((∀ s', ¬ step s s') →
     Forall (λ c, at_pc c = Returned) (callers s)
     ∧ hookCalls s = 1 ∧ gracefulStops s = 1).
Proof.
  intros Hreach.
  pose proof (certified_reachable _ _ (three_callers_certified e1 e2 e3) Hreach) as Hck.
  unfold checkState in Hck.
  apply andb_true_iff in Hck as [[[[Hh Hg]%andb_true_iff Hc]%andb_true_iff
                                    Hd]%andb_true_iff Hf].
  apply Nat.leb_le in Hh, Hg. split_and!; [done|done| | |].
  - intros c Hin. apply callerOk_spec.
    rewrite forallb_forall in Hc. apply Hc. by apply list_elem_of_In.
  - intros s' Hstep. rewrite forallb_forall in Hd.
    apply Nat.ltb_lt, Hd. by apply list_elem_of_In.
  - intros Hstuck. apply finished_spec.
    destruct (next s) as [|s' l] eqn:E; [done|].
    exfalso. apply (Hstuck s'). unfold step. rewrite E. left.
Qed.

Lemma grpc_shutdown_once_witness :
  let s0 := serving [CallStop; CallStopWait; CallStopWait] in
  reachable s0 s0
  ∧ hookCalls s0 ≤ 1
  ∧ (∀ s', step s0 s' → stepsLeft s' < stepsLeft s0).
Proof.
  intros s0.
  assert (Hr : reachable s0 s0) by constructor.
  destruct (grpc_shutdown_once CallStop CallStopWait CallStopWait s0 Hr)
    as (Hh & _ & _ & Hd & _).
  split; [exact Hr|]. split; [exact Hh|exact Hd].
Defined.

(** C7, as stated, fails for the HTTP backend: every Stop call closes the
    server, so three callers close it three times. *)
Lemma http_stop_counterexample :
  closeCalls (http_Stop (http_Stop (http_Stop httpServing))) = 3
  ∧ closeCalls (http_Stop (http_Stop (http_Stop httpServing))) ≠ 1
  ∧ stopperCalls (http_Stop (http_Stop (http_Stop httpServing))) = 0.
Proof. split; [reflexivity|]. split; [discriminate|reflexivity]. Qed.

End LifecycleSpec.

(** * More properties of the trace store *)

Module StoreInvariants.
Import mcpserver.

Section Invariants.
Context `{MapRange}.

(** The trace a write leaves under the id of the span: its window, its
    root span and its spans. *)
Lemma written_trace sd store :
  ∃ trace,
    traces (AddSpan_write sd store) !! traceIDOf sd = Some trace
    ∧ Spans trace
      = <[spanIDOf sd := length (objs store)]> (Spans (getOrCreateTrace sd store))
    ∧ StartTime trace
      = Z.min (sd_StartTime sd) (StartTime (getOrCreateTrace sd store))
    ∧ EndTime trace = Z.max (sd_EndTime sd) (EndTime (getOrCreateTrace sd store))
    ∧ RootSpan trace
      = (if isRootSpan sd then Some (length (objs store))
         else RootSpan (getOrCreateTrace sd store))
    ∧ TraceID trace = TraceID (getOrCreateTrace sd store).
Proof.
  unfold AddSpan_write. simpl. rewrite lookup_insert_eq.
  eexists. split; [reflexivity|].
  match goal with |- context [foldl addFileContext (?b, ?t) ?l] =>
    destruct (StoreSpec.addFileContext_frame b t l) as (-> & -> & -> & -> & ->) end.
  unfold linkSpan. cbn [fst].
  assert (Hs : StartTime (updateTimes sd (getOrCreateTrace sd store))
               = Z.min (sd_StartTime sd) (StartTime (getOrCreateTrace sd store))).
  { unfold updateTimes, Before, After.
    destruct (Z.ltb_spec (sd_StartTime sd) (StartTime (getOrCreateTrace sd store)));
      cbn [EndTime set_StartTime];
      destruct (Z.gtb_spec (sd_EndTime sd) (EndTime (getOrCreateTrace sd store)));
      cbn; lia. }
  assert (He : EndTime (updateTimes sd (getOrCreateTrace sd store))
               = Z.max (sd_EndTime sd) (EndTime (getOrCreateTrace sd store))).
  { unfold updateTimes, Before, After.
    destruct (Z.ltb_spec (sd_StartTime sd) (StartTime (getOrCreateTrace sd store)));
      cbn [EndTime set_StartTime];
      destruct (Z.gtb_spec (sd_EndTime sd) (EndTime (getOrCreateTrace sd store)));
      cbn; lia. }
  assert (Hr : RootSpan (updateTimes sd (getOrCreateTrace sd store))
               = RootSpan (getOrCreateTrace sd store)).
  { unfold updateTimes. by repeat case_match. }
  assert (Ht : TraceID (updateTimes sd (getOrCreateTrace sd store))
               = TraceID (getOrCreateTrace sd store)).
  { unfold updateTimes. by repeat case_match. }
  destruct (isRootSpan sd); cbn.
  - by rewrite StoreSpec.updateTimes_Spans, Hs, He, Ht.
  - destruct (_ !! ParentID sd); cbn;
      by rewrite StoreSpec.updateTimes_Spans, Hs, He, Hr, Ht.
Qed.

(** A write replaces the trace of the span and no other. *)
Lemma totalSpans_write sd store :
  totalSpans (AddSpan_write sd store)
  = totalSpans store - spanCount store (traceIDOf sd)
    + spanCount (AddSpan_write sd store) (traceIDOf sd).
Proof.
  unfold totalSpans, spanCount.
  assert (Hd : delete (traceIDOf sd) (traces (AddSpan_write sd store))
               = delete (traceIDOf sd) (traces store)).
  { unfold AddSpan_write. cbn [traces]. apply delete_insert_eq. }
  destruct (written_trace sd store) as (trace' & Htr & _). rewrite Htr.
  rewrite <- (SweepSpec.sumSpans_perm _ _ (map_to_list_delete _ _ _ Htr)), Hd.
  destruct (traces store !! traceIDOf sd) as [trace|] eqn:E.
  - rewrite <- (SweepSpec.sumSpans_perm _ _ (map_to_list_delete _ _ _ E)). simpl. lia.
  - rewrite delete_id by done. simpl. lia.
Qed.

(** When the size pass does not run, the sweep keeps a trace exactly when
    it is not past retention. *)
Lemma kept_iff_not_expired now store id trace :
  traces store !! id = Some trace →
  maxSpans store ≤ 0 ∨ totalSpans store ≤ maxSpans store →
  is_Some (traces (cleanupOldTraces now store) !! id)
  ↔ retention store ≤ 0 ∨ Sub now (EndTime trace) ≤ retention store.
Proof.
  intros Htr Hcap.
  destruct (decide (0 < maxSpans store ∨ 0 < retention store)) as [Hlim|Hno].
  - rewrite SweepSpec.cleanup_lookup by done.
    rewrite SweepSpec.retention_marks by tauto.
    destruct (decide (id ∈ _)) as [Hin|Hnin].
    + apply SweepSpec.retentionPass_ids in Hin as (trace' & Htr' & Hexp).
      rewrite Htr in Htr'. injection Htr' as <-.
      unfold expired in Hexp. apply andb_true_iff in Hexp as [Hr Ha].
      split; [by intros [? ?]|]. lia.
    + rewrite Htr. split; [|by eexists]. intros _.
      destruct (Z.le_gt_cases (retention store) 0) as [?|Hr]; [by left|right].
      destruct (Z.le_gt_cases (Sub now (EndTime trace)) (retention store)) as [?|Ha];
        [done|].
      exfalso. apply Hnin. apply SweepSpec.retentionPass_ids. exists trace. split; [done|].
      unfold expired. apply andb_true_iff. lia.
  - rewrite StoreSpec.cleanup_unlimited by lia. rewrite Htr. split; [|by eexists].
    intros _. left. lia.
Qed.

(** X1. A span whose id is new to its trace is stored and counted once.
    When the sweep that ends AddSpan keeps the trace, GetSpan returns the
    record and the trace holds one span more than before. While the store,
    with the new span, is within its cap, or has none, the sweep keeps the
    trace exactly when no retention is set or the trace, which ends no
    earlier than the span, is not past retention; and without limits the
    store holds one span more than before. *)
Theorem new_span_counted now sd store :
  ptrsValid store →
  GetSpanPtr store (traceIDOf sd) (spanIDOf sd) = None →
  let after := AddSpan now sd store in
  (is_Some (traces after !! traceIDOf sd) →
   GetSpan after (traceIDOf sd) (spanIDOf sd) = Some (storedRecord sd)
   ∧ spanCount after (traceIDOf sd) = spanCount store (traceIDOf sd) + 1)
  ∧ (maxSpans store ≤ 0 ∨ totalSpans store + 1 ≤ maxSpans store →
     is_Some (traces after !! traceIDOf sd)
     ↔ retention store ≤ 0
       ∨ Sub now (Z.max (sd_EndTime sd) (EndTime (getOrCreateTrace sd store)))
         ≤ retention store)
  ∧ (maxSpans store ≤ 0 → retention store ≤ 0 →
     totalSpans after = totalSpans store + 1).
Proof.
  intros Hv Hnew after.
  destruct (written_trace sd store) as (trace' & Htr & Hsp & _ & Hend & _).
  destruct (StoreSpec.AddSpan_write_config sd store) as [Hmax Hret].
  assert (Hfresh : Spans (getOrCreateTrace sd store) !! spanIDOf sd = None).
  { unfold GetSpanPtr in Hnew. unfold getOrCreateTrace.
    destruct (traces store !! traceIDOf sd); [done|]. apply lookup_empty. }
  assert (Hcount : Z.of_nat (size (Spans trace'))
                   = spanCount store (traceIDOf sd) + 1).
  { rewrite Hsp, map_size_insert_None by done.
    unfold spanCount, getOrCreateTrace.
    destruct (traces store !! traceIDOf sd); cbn; [lia|].
    rewrite map_size_empty. lia. }
  assert (Hw : spanCount (AddSpan_write sd store) (traceIDOf sd)
               = spanCount store (traceIDOf sd) + 1).
  { by rewrite (StoreSpec.spanCount_stored _ _ _ Htr). }
  assert (Htotal : totalSpans (AddSpan_write sd store) = totalSpans store + 1).
  { rewrite totalSpans_write, Hw. lia. }
  split_and!.
  - intros [trace'' Hafter].
    pose proof (StoreSpec.AddSpan_lookup_Some _ _ _ _ _ Hafter) as Hsame.
    rewrite Htr in Hsame. injection Hsame as <-. split.
    + unfold GetSpan, GetSpanPtr. rewrite Hafter, Hsp, lookup_insert_eq.
      unfold after. rewrite StoreSpec.AddSpan_objs.
      by apply StoreSpec.AddSpan_write_new_object.
    + by rewrite (StoreSpec.spanCount_stored _ _ _ Hafter).
  - intros Hcap. unfold after, AddSpan.
    rewrite (kept_iff_not_expired now _ _ _ Htr) by (rewrite Hmax, Htotal; done).
    by rewrite Hret, Hend.
  - intros Hm Hr. unfold after, AddSpan.
    rewrite StoreSpec.cleanup_unlimited by (rewrite ?Hmax, ?Hret; done). done.
Qed.

(** *** The window of a trace *)

Lemma storedRecord_times sd :
  sd_StartTime (storedRecord sd) = sd_StartTime sd
  ∧ sd_EndTime (storedRecord sd) = sd_EndTime sd
  ∧ SpanProto (storedRecord sd) = SpanProto sd
  ∧ FileContexts (storedRecord sd) = FileContexts sd.
Proof. unfold storedRecord. by case_match. Qed.

(** A write leaves the times, the wire span and the contexts of the
    objects allocated before it as they were. *)
Lemma old_object_kept sd store p x :
  (p < length (objs store))%nat →
  objs (AddSpan_write sd store) !! p = Some x →
  ∃ x0, objs store !! p = Some x0
    ∧ sd_StartTime x = sd_StartTime x0 ∧ sd_EndTime x = sd_EndTime x0
    ∧ SpanProto x = SpanProto x0 ∧ FileContexts x = FileContexts x0.
Proof.
  intros Hp. rewrite StoreSpec.AddSpan_write_old_object by done.
  destruct (isRootSpan sd); [intros ->; by eexists|].
  destruct (_ !! ParentID sd) as [q|]; [|intros ->; by eexists].
  case_decide; [|intros ->; by eexists].
  destruct (objs store !! p) as [x0|]; [|done].
  intros [= <-]. by eexists.
Qed.

Lemma write_windowCovers sd store :
  ptrsValid store → windowCovers store → windowCovers (AddSpan_write sd store).
Proof.
  intros Hv Hc id trace sid p x Hid Hsid Hp.
  destruct (decide (id = traceIDOf sd)) as [->|Hother].
  - destruct (written_trace sd store) as (trace' & Htr & Hsp & Hs & He & _).
    rewrite Htr in Hid. injection Hid as <-. rewrite Hs, He. rewrite Hsp in Hsid.
    destruct (decide (sid = spanIDOf sd)) as [->|Hsid'].
    + rewrite lookup_insert_eq in Hsid. injection Hsid as <-.
      rewrite StoreSpec.AddSpan_write_new_object in Hp by done.
      injection Hp as <-.
      destruct (storedRecord_times sd) as (-> & -> & _). lia.
    + rewrite lookup_insert_ne in Hsid by done.
      pose proof (StoreSpec.getOrCreateTrace_valid _ _ _ _ Hv Hsid) as Hlt.
      destruct (old_object_kept _ _ _ _ Hlt Hp) as (x0 & Hx0 & -> & -> & _).
      unfold getOrCreateTrace in Hsid |- *.
      destruct (traces store !! traceIDOf sd) as [t|] eqn:E;
        [|cbn in Hsid; by rewrite lookup_empty in Hsid].
      destruct (Hc _ _ _ _ _ E Hsid Hx0). lia.
  - rewrite StoreSpec.AddSpan_write_other in Hid by done.
    pose proof (Hv _ _ _ _ Hid Hsid) as Hlt.
    destruct (old_object_kept _ _ _ _ Hlt Hp) as (x0 & Hx0 & -> & -> & _).
    by eapply Hc.
Qed.

Lemma AddSpan_windowCovers now sd store :
  ptrsValid store → windowCovers store → windowCovers (AddSpan now sd store).
Proof.
  intros Hv Hc id trace sid p x Hid Hsid Hp.
  rewrite StoreSpec.AddSpan_objs in Hp.
  apply StoreSpec.AddSpan_lookup_Some in Hid.
  by eapply (write_windowCovers sd store).
Qed.

Lemma AddSpans_valid adds store : ptrsValid store → ptrsValid (AddSpans adds store).
Proof.
  revert store. induction adds as [|a adds IH]; intros store Hv; [done|].
  apply IH. by apply StoreSpec.AddSpan_valid.
Qed.

Lemma windowCovers_new max ret : windowCovers (NewTraceStore max ret).
Proof. intros id trace sid p sd Hid. cbn in Hid. by rewrite lookup_empty in Hid. Qed.

(** X2. In a store built by AddSpan calls, the window of every trace covers
    its spans: a trace starts no later and ends no earlier than any span
    GetSpan returns for it, however the spans were ordered and whatever the
    sweeps removed. *)
Theorem trace_window_covers_spans adds max ret id trace sid sd :
  let store := AddSpans adds (NewTraceStore max ret) in
  GetTrace store id = Some trace →
  GetSpan store id sid = Some sd →
  StartTime trace ≤ sd_StartTime sd ∧ sd_EndTime sd ≤ EndTime trace.
Proof.
  intros store Htr Hsp.
  assert (Hinv : ptrsValid store ∧ windowCovers store).
  { subst store. generalize (StoreSpec.ptrsValid_new max ret) (windowCovers_new max ret).
    generalize (NewTraceStore max ret). clear.
    induction adds as [|a adds IH]; intros st Hv Hc; [done|].
    apply IH; [by apply StoreSpec.AddSpan_valid|by apply AddSpan_windowCovers]. }
  destruct Hinv as [_ Hc].
  unfold GetTrace in Htr. unfold GetSpan, GetSpanPtr in Hsp. rewrite Htr in Hsp.
  destruct (Spans trace !! sid) as [p|] eqn:Hp; [|done].
  by eapply Hc.
Qed.

(** *** The root span *)

(** X3. A span without a parent (an empty or all-zero parent id) becomes
    the root span of its trace, replacing any root span stored before: when
    the sweep keeps the trace, its RootSpan is the object just stored, and
    the digest of the trace in ListTraces carries the name of this span. *)
Theorem root_span_replaced now sd store trace :
  ptrsValid store →
  isRootSpan sd = true →
  traces (AddSpan now sd store) !! traceIDOf sd = Some trace →
  RootSpan trace = Some (length (objs store))
  ∧ objs (AddSpan now sd store) !! length (objs store) = Some sd
  ∧ rootName (AddSpan now sd store) trace = Name (SpanProto sd)
  ∧ d_Name (listDigest (AddSpan now sd store) (traceIDOf sd, trace))
    = Name (SpanProto sd).
Proof.
  intros Hv Hroot Hafter.
  destruct (written_trace sd store) as (trace' & Htr & _ & _ & _ & Hr & _).
  apply StoreSpec.AddSpan_lookup_Some in Hafter.
  rewrite Htr in Hafter. injection Hafter as <-.
  rewrite Hroot in Hr.
  assert (Hobj : objs (AddSpan now sd store) !! length (objs store) = Some sd).
  { rewrite StoreSpec.AddSpan_objs, StoreSpec.AddSpan_write_new_object by done.
    unfold storedRecord. by rewrite Hroot. }
  assert (Hname : rootName (AddSpan now sd store) trace' = Name (SpanProto sd)).
  { unfold rootName. by rewrite Hr, Hobj. }
  split_and!; [done|done|done|].
  unfold listDigest. cbn [fst snd].
  assert (Hfiles : ∀ (l : list (string * bool)) d,
            d_Name (foldl (λ d fv, add_Files fv.1 d) d l) = d_Name d).
  { induction l as [|fv l IH]; intros d; [done|]. cbn [foldl]. by rewrite IH. }
  assert (Hctx : ∀ (l : list CodeSpanContext) d,
            d_Name (foldl (λ d ctx, if isErrorOp (Operation ctx)
                                    then incr_ErrorCount d else d) d l) = d_Name d).
  { induction l as [|c l IH]; intros d; [done|]. cbn [foldl]. rewrite IH.
    by destruct (isErrorOp _). }
  assert (Hspans : ∀ (l : list SpanData) d,
            d_Name (foldl (λ d span,
                      foldl (λ d ctx, if isErrorOp (Operation ctx)
                                      then incr_ErrorCount d else d)
                        d (FileContexts span)) d l) = d_Name d).
  { induction l as [|x l IH]; intros d; [done|]. cbn [foldl]. by rewrite IH, Hctx. }
  by rewrite Hspans, Hfiles.
Qed.

(** *** What the file contexts of a span record *)

Lemma addFileContext_status byFile trace ctxs :
  Status (foldl addFileContext (byFile, trace) ctxs).2
  = if existsb (λ c, isErrorOp (Operation c)) ctxs then "error" else Status trace.
Proof.
  revert byFile trace. induction ctxs as [|c ctxs IH]; intros byFile trace; [done|].
  cbn [foldl existsb]. unfold addFileContext at 2. cbn [fst snd].
  rewrite IH. destruct (isErrorOp (Operation c)); cbn; by destruct (existsb _ _).
Qed.

Lemma addFileContext_files byFile trace ctxs f :
  Files (foldl addFileContext (byFile, trace) ctxs).2 !! f
  = if decide (f ∈ FilePath <$> ctxs) then Some true else Files trace !! f.
Proof.
  revert byFile trace. induction ctxs as [|c ctxs IH]; intros byFile trace.
  - cbn. by case_decide as Hin; [apply elem_of_nil in Hin|].
  - cbn [foldl]. unfold addFileContext at 2. cbn [fst snd].
    rewrite IH. cbn [fmap list_fmap].
    assert (Hf : ∀ t, Files (if isErrorOp (Operation c)
                             then set_Status "error" t else t) = Files t).
    { intros t. by destruct (isErrorOp _). }
    rewrite Hf. cbn [Files set_Files].
    destruct (decide (f ∈ FilePath <$> ctxs)) as [Hin|Hnin].
    + rewrite decide_True; [done|by right].
    + destruct (decide (f = FilePath c)) as [->|Hne].
      * rewrite lookup_insert_eq, decide_True; [done|left].
      * rewrite lookup_insert_ne by done. rewrite decide_False; [done|].
        by intros [?|?]%elem_of_cons.
Qed.

(** The status and the files of the trace a write leaves. *)
Lemma written_status sd store trace :
  traces (AddSpan_write sd store) !! traceIDOf sd = Some trace →
  Status trace
  = (if existsb (λ c, isErrorOp (Operation c)) (FileContexts sd) then "error"
     else Status (getOrCreateTrace sd store))
  ∧ ∀ f, Files trace !! f
         = if decide (f ∈ FilePath <$> FileContexts sd) then Some true
           else Files (getOrCreateTrace sd store) !! f.
Proof.
  unfold AddSpan_write. cbn [traces]. rewrite lookup_insert_eq. intros [= <-].
  rewrite addFileContext_status. split.
  - destruct (existsb _ _); [done|]. unfold linkSpan, updateTimes.
    by repeat case_match.
  - intros f. rewrite addFileContext_files. case_decide; [done|].
    unfold linkSpan, updateTimes. by repeat case_match.
Qed.

(** X4. AddSpan marks a trace as failed when the span carries a context
    whose operation is error or exception, and never clears the mark: when
    the sweep keeps the trace, its Status is error if such a context came
    with the span and is what it was otherwise; every file of the contexts
    is among the files of the trace, and the other files are as before. *)
Theorem error_status_is_sticky now sd store trace :
  traces (AddSpan now sd store) !! traceIDOf sd = Some trace →
  (Status trace
   = if existsb (λ c, isErrorOp (Operation c)) (FileContexts sd) then "error"
     else match traces store !! traceIDOf sd with
          | Some old => Status old
          | None => EmptyString
          end)
  ∧ (∀ c, c ∈ FileContexts sd → Files trace !! FilePath c = Some true)
  ∧ (∀ f old, traces store !! traceIDOf sd = Some old →
       f ∉ FilePath <$> FileContexts sd → Files trace !! f = Files old !! f).
Proof.
  intros Hafter%StoreSpec.AddSpan_lookup_Some.
  destruct (written_status _ _ _ Hafter) as [Hs Hf]. split_and!.
  - rewrite Hs. unfold getOrCreateTrace. by destruct (traces store !! traceIDOf sd).
  - intros c Hc. rewrite Hf, decide_True; [done|]. by apply list_elem_of_fmap_2.
  - intros f old Hold Hnin. rewrite Hf, decide_False by done.
    by rewrite (StoreSpec.getOrCreateTrace_stored _ _ _ Hold).
Qed.

(** *** The file index *)

Lemma addFileContext_index byFile trace ctxs f :
  (foldl addFileContext (byFile, trace) ctxs).1 !! f
  = match filter (λ c, FilePath c = f) ctxs with
    | [] => byFile !! f
    | g => Some (default [] (byFile !! f) ++ g)
    end.
Proof.
  revert byFile trace. induction ctxs as [|c ctxs IH]; intros byFile trace; [done|].
  cbn [foldl]. unfold addFileContext at 2. cbn [fst snd]. rewrite IH.
  destruct (decide (FilePath c = f)) as [Heq|Hne].
  - rewrite filter_cons_True by done. rewrite Heq, lookup_insert_eq. cbn.
    destruct (filter _ ctxs); [done|]. by rewrite <- app_assoc.
  - rewrite filter_cons_False by done. by rewrite lookup_insert_ne.
Qed.

Lemma write_index sd store f :
  spansByFile (AddSpan_write sd store) !! f
  = match filter (λ c, FilePath c = f) (FileContexts sd) with
    | [] => spansByFile store !! f
    | g => Some (fileBucket store f ++ g)
    end.
Proof. unfold AddSpan_write. cbn [spansByFile]. apply addFileContext_index. Qed.

Lemma write_bucket sd store f :
  fileBucket (AddSpan_write sd store) f
  = fileBucket store f ++ filter (λ c, FilePath c = f) (FileContexts sd).
Proof.
  unfold fileBucket at 1. rewrite write_index.
  destruct (filter _ _); [|done]. by rewrite app_nil_r.
Qed.

Lemma removeFromFileIndex_lookup id byFile file f :
  removeFromFileIndex id byFile file !! f
  = if decide (f = file)
    then match filter (λ sc, ctx_TraceID sc ≠ id) (default [] (byFile !! file)) with
         | [] => None
         | l => Some l
         end
    else byFile !! f.
Proof.
  unfold removeFromFileIndex.
  destruct (filter _ _) as [|c l] eqn:E; case_decide as Hf.
  - subst f. apply lookup_delete_eq.
  - by apply lookup_delete_ne.
  - subst f. apply lookup_insert_eq.
  - by apply lookup_insert_ne.
Qed.

(** The bucket of [f] after the contexts of trace [id] were taken out of
    the buckets of the files [l]. *)
Lemma removeFiles_bucket {V} id (l : list (string * V)) byFile f :
  default [] (foldl (λ bf kv, removeFromFileIndex id bf kv.1) byFile l !! f)
  = if decide (f ∈ l.*1)
    then filter (λ sc, ctx_TraceID sc ≠ id) (default [] (byFile !! f))
    else default [] (byFile !! f).
Proof.
  revert byFile. induction l as [|kv l IH]; intros byFile.
  - cbn. by case_decide as Hin; [apply elem_of_nil in Hin|].
  - cbn [foldl fmap list_fmap]. rewrite IH.
    assert (Hstep : default [] (removeFromFileIndex id byFile kv.1 !! f)
                    = if decide (f = kv.1)
                      then filter (λ sc, ctx_TraceID sc ≠ id) (default [] (byFile !! f))
                      else default [] (byFile !! f)).
    { rewrite removeFromFileIndex_lookup.
      destruct (decide (f = kv.1)) as [->|Hf]; [|done].
      by destruct (filter _ _). }
    rewrite Hstep.
    destruct (decide (f ∈ l.*1)) as [Hin|Hnin]; destruct (decide (f = kv.1)) as [->|Hne].
    + rewrite decide_True by left. by apply list_filter_filter_l.
    + rewrite decide_True; [done|by right].
    + rewrite decide_True; [done|left].
    + rewrite decide_False; [done|]. by intros [?|?]%elem_of_cons.
Qed.

Lemma removeFiles_nonempty {V} id (l : list (string * V)) byFile :
  (∀ f x, byFile !! f = Some x → x ≠ []) →
  ∀ f x, foldl (λ bf kv, removeFromFileIndex id bf kv.1) byFile l !! f = Some x → x ≠ [].
Proof.
  revert byFile. induction l as [|kv l IH]; intros byFile Hne; [done|].
  cbn [foldl]. apply IH. intros f x. rewrite removeFromFileIndex_lookup.
  case_decide; [|by apply Hne].
  destruct (filter _ _); [done|]. by intros [= <-].
Qed.

Lemma removeTrace_bucket store id f :
  fileBucket (removeTrace store id) f = fileBucket store f
  ∨ fileBucket (removeTrace store id) f
    = filter (λ sc, ctx_TraceID sc ≠ id) (fileBucket store f).
Proof.
  unfold removeTrace, fileBucket. destruct (traces store !! id); [|by left].
  cbn [spansByFile]. rewrite removeFiles_bucket. case_decide; auto.
Qed.

(** What taking traces out does to a bucket: nothing comes in, and the
    contexts that carry none of the ids stay. *)
Lemma removeTraces_bucket store ids f :
  fileBucket (foldl removeTrace store ids) f `sublist_of` fileBucket store f
  ∧ ∀ c, c ∈ fileBucket store f → ctx_TraceID c ∉ ids →
         c ∈ fileBucket (foldl removeTrace store ids) f.
Proof.
  revert store. induction ids as [|id ids IH]; intros store.
  - by split.
  - cbn [foldl]. destruct (IH (removeTrace store id)) as [Hup Hlow]. split.
    + etrans; [exact Hup|].
      destruct (removeTrace_bucket store id f) as [->| ->]; [done|].
      apply sublist_filter.
    + intros c Hc Hnin. apply Hlow.
      * destruct (removeTrace_bucket store id f) as [->| ->]; [done|].
        apply list_elem_of_filter. split; [|done].
        intros Heq. apply Hnin. rewrite Heq. left.
      * intros Hin. apply Hnin. by right.
Qed.

Lemma removeTraces_nonempty store ids :
  noEmptyBucket store → noEmptyBucket (foldl removeTrace store ids).
Proof.
  revert store. induction ids as [|id ids IH]; intros store Hne; [done|].
  cbn [foldl]. apply IH. unfold removeTrace.
  destruct (traces store !! id); [|done].
  intros f x. cbn [spansByFile]. by apply removeFiles_nonempty.
Qed.

Lemma AddSpan_nonemptyBucket now sd store :
  noEmptyBucket store → noEmptyBucket (AddSpan now sd store).
Proof.
  intros Hne.
  assert (Hw : noEmptyBucket (AddSpan_write sd store)).
  { intros f x. rewrite write_index.
    destruct (filter _ _) as [|c g]; [by apply Hne|].
    intros [= <-]. by destruct (fileBucket store f). }
  unfold AddSpan, cleanupOldTraces. case_match; [done|].
  by apply removeTraces_nonempty.
Qed.

(** X5. AddSpan appends the contexts of the span to the index, each under
    its file and in their order, and the sweep that ends the call only takes
    contexts out: the contexts indexed under a file after the call are a
    subsequence of those indexed before followed by the new ones of that
    file; a context whose trace id is the id of a trace that is still stored
    is never taken out; and without limits nothing is. *)
Theorem index_grows_by_span_contexts now sd store f :
  let added := filter (λ c, FilePath c = f) (FileContexts sd) in
  fileBucket (AddSpan now sd store) f `sublist_of` fileBucket store f ++ added
  ∧ (∀ c, c ∈ fileBucket store f ++ added →
       is_Some (traces (AddSpan now sd store) !! ctx_TraceID c) →
       c ∈ fileBucket (AddSpan now sd store) f)
  ∧ (maxSpans store ≤ 0 → retention store ≤ 0 →
     fileBucket (AddSpan now sd store) f = fileBucket store f ++ added).
Proof.
  intros added. subst added. rewrite <- write_bucket. unfold AddSpan.
  split_and!.
  - unfold cleanupOldTraces. case_match; [done|]. apply removeTraces_bucket.
  - intros c Hc Hkept. unfold cleanupOldTraces in *.
    destruct (_ && _); [done|].
    apply removeTraces_bucket; [done|].
    intros Hin. rewrite StoreSpec.removeTraces_lookup in Hkept.
    rewrite decide_True in Hkept by done. by destruct Hkept.
  - intros Hm Hr. rewrite StoreSpec.cleanup_unlimited; [done|done..].
Qed.

(** *** Traces other than that of the span *)

Lemma ptrsDistinct_new max ret : ptrsDistinct (NewTraceStore max ret).
Proof. intros id1 id2 t1 t2 sid1 sid2 p Hid. cbn in Hid. by rewrite lookup_empty in Hid. Qed.

(** The spans of the trace of [sd] after the write: the new one, or one
    that was stored. *)
Lemma written_span sd store trace sid p :
  traces (AddSpan_write sd store) !! traceIDOf sd = Some trace →
  Spans trace !! sid = Some p →
  (sid = spanIDOf sd ∧ p = length (objs store))
  ∨ (sid ≠ spanIDOf sd
     ∧ ∃ old, traces store !! traceIDOf sd = Some old ∧ Spans old !! sid = Some p).
Proof.
  intros Htr Hsid.
  destruct (written_trace sd store) as (trace' & Htr' & Hsp & _).
  rewrite Htr in Htr'. injection Htr' as <-. rewrite Hsp in Hsid.
  destruct (decide (sid = spanIDOf sd)) as [->|Hne].
  - rewrite lookup_insert_eq in Hsid. injection Hsid as <-. by left.
  - rewrite lookup_insert_ne in Hsid by done. right. split; [done|].
    unfold getOrCreateTrace in Hsid.
    destruct (traces store !! traceIDOf sd) as [old|]; [by exists old|].
    cbn in Hsid. by rewrite lookup_empty in Hsid.
Qed.

Lemma write_ptrsDistinct sd store :
  ptrsValid store → ptrsDistinct store → ptrsDistinct (AddSpan_write sd store).
Proof.
  intros Hv Hd id1 id2 t1 t2 sid1 sid2 p H1 Hs1 H2 Hs2.
  destruct (decide (id1 = traceIDOf sd)) as [->|Hne1];
    destruct (decide (id2 = traceIDOf sd)) as [->|Hne2].
  - split; [done|].
    destruct (written_span _ _ _ _ _ H1 Hs1) as [[-> ->]|(Hn1 & o1 & Ho1 & Hp1)];
      destruct (written_span _ _ _ _ _ H2 Hs2) as [[-> Hp]|(Hn2 & o2 & Ho2 & Hp2)].
    + done.
    + pose proof (Hv _ _ _ _ Ho2 Hp2). lia.
    + subst p. pose proof (Hv _ _ _ _ Ho1 Hp1). lia.
    + by destruct (Hd _ _ _ _ _ _ _ Ho1 Hp1 Ho2 Hp2).
  - rewrite StoreSpec.AddSpan_write_other in H2 by done.
    destruct (written_span _ _ _ _ _ H1 Hs1) as [[-> ->]|(Hn1 & o1 & Ho1 & Hp1)].
    + pose proof (Hv _ _ _ _ H2 Hs2). lia.
    + by destruct (Hd _ _ _ _ _ _ _ Ho1 Hp1 H2 Hs2).
  - rewrite StoreSpec.AddSpan_write_other in H1 by done.
    destruct (written_span _ _ _ _ _ H2 Hs2) as [[-> ->]|(Hn2 & o2 & Ho2 & Hp2)].
    + pose proof (Hv _ _ _ _ H1 Hs1). lia.
    + by destruct (Hd _ _ _ _ _ _ _ H1 Hs1 Ho2 Hp2).
  - rewrite StoreSpec.AddSpan_write_other in H1, H2 by done.
    by eapply Hd.
Qed.

Lemma AddSpan_ptrsDistinct now sd store :
  ptrsValid store → ptrsDistinct store → ptrsDistinct (AddSpan now sd store).
Proof.
  intros Hv Hd id1 id2 t1 t2 sid1 sid2 p H1 Hs1 H2 Hs2.
  apply StoreSpec.AddSpan_lookup_Some in H1, H2.
  by eapply (write_ptrsDistinct sd store).
Qed.

(** What holds of every store built by AddSpan calls. *)
Lemma built_store adds max ret :
  let store := AddSpans adds (NewTraceStore max ret) in
  ptrsValid store ∧ ptrsDistinct store ∧ windowCovers store ∧ noEmptyBucket store.
Proof.
  cbn zeta.
  assert (Hnew : noEmptyBucket (NewTraceStore max ret)).
  { intros f l Hf. cbn in Hf. by rewrite lookup_empty in Hf. }
  generalize (StoreSpec.ptrsValid_new max ret) (ptrsDistinct_new max ret)
    (windowCovers_new max ret) Hnew.
  generalize (NewTraceStore max ret). clear.
  induction adds as [|a adds IH]; intros st Hv Hd Hc Hn; [done|].
  apply IH.
  - by apply StoreSpec.AddSpan_valid.
  - by apply AddSpan_ptrsDistinct.
  - by apply AddSpan_windowCovers.
  - by apply AddSpan_nonemptyBucket.
Qed.

(** X6. AddSpan touches one trace: in a store built by AddSpan calls, a
    trace other than that of the added span is either removed by the sweep
    or is as it was, and then each of its spans is the record it was. *)
Theorem other_traces_untouched adds max ret now sd id :
  let store := AddSpans adds (NewTraceStore max ret) in
  id ≠ traceIDOf sd →
  is_Some (GetTrace (AddSpan now sd store) id) →
  GetTrace (AddSpan now sd store) id = GetTrace store id
  ∧ ∀ sid, GetSpan (AddSpan now sd store) id sid = GetSpan store id sid.
Proof.
  intros store Hne [trace Hafter].
  destruct (built_store adds max ret) as (Hv & Hd & _).
  fold store in Hv, Hd. unfold GetTrace in *.
  pose proof (StoreSpec.AddSpan_lookup_Some _ _ _ _ _ Hafter) as Hw.
  rewrite StoreSpec.AddSpan_write_other in Hw by done.
  split; [by rewrite Hafter, Hw|].
  intros sid. unfold GetSpan, GetSpanPtr. rewrite Hafter, Hw.
  destruct (Spans trace !! sid) as [p|] eqn:Hp; [|done].
  rewrite StoreSpec.AddSpan_objs.
  pose proof (Hv _ _ _ _ Hw Hp) as Hlt.
  rewrite StoreSpec.AddSpan_write_old_object by done.
  destruct (isRootSpan sd); [done|].
  destruct (_ !! ParentID sd) as [q|] eqn:Hq; [|done].
  case_decide as Hqp; [|done]. subst q. exfalso.
  assert (Hwt : ∃ t, traces (AddSpan_write sd store) !! traceIDOf sd = Some t
                     ∧ Spans t !! ParentID sd = Some p).
  { destruct (written_trace sd store) as (t & Ht & Hsp & _).
    exists t. split; [done|]. by rewrite Hsp. }
  destruct Hwt as (t & Ht & Hpar).
  destruct (written_span _ _ _ _ _ Ht Hpar) as [[_ ->]|(_ & old & Hold & Hp')].
  - lia.
  - by destruct (Hd _ _ _ _ _ _ _ Hw Hp Hold Hp').
Qed.

(** *** Spans that arrive too late *)

(** X7. With a retention window configured, a span of a trace that ended
    longer ago than the window is dropped by the call that adds it: when the
    later of the end time of the span and that of its trace is older than
    now minus the retention, the sweep that ends AddSpan removes the trace,
    the new span with it, and GetSpan finds nothing. *)
Theorem stale_span_dropped now sd store :
  0 < retention store →
  retention store
  < Sub now (Z.max (sd_EndTime sd)
               (match traces store !! traceIDOf sd with
                | Some old => EndTime old
                | None => sd_EndTime sd
                end)) →
  GetTrace (AddSpan now sd store) (traceIDOf sd) = None
  ∧ GetSpan (AddSpan now sd store) (traceIDOf sd) (spanIDOf sd) = None.
Proof.
  intros Hret Hold.
  assert (Hgone : traces (AddSpan now sd store) !! traceIDOf sd = None).
  { destruct (written_trace sd store) as (trace & Htr & _ & _ & He & _).
    unfold AddSpan. rewrite SweepSpec.cleanup_lookup by (right; done).
    assert (Hin : traceIDOf sd ∈ (retentionPass now (AddSpan_write sd store)).1).
    { apply SweepSpec.retentionPass_ids. exists trace. split; [done|].
      unfold expired. cbn [retention AddSpan_write].
      rewrite He. unfold getOrCreateTrace.
      destruct (traces store !! traceIDOf sd); cbn [EndTime];
        apply andb_true_iff; split; apply Z.gtb_gt; lia. }
    rewrite SweepSpec.retention_marks.
    - by rewrite decide_True.
    - left. intros Hnil. rewrite Hnil in Hin. by apply elem_of_nil in Hin. }
  split; [done|]. unfold GetSpan, GetSpanPtr. by rewrite Hgone.
Qed.

(** *** The sort of the sweep *)

(** X8. The two nested loops that order the traces by end time in
    cleanupOldTraces sort: the result holds the same entries as the input,
    each as often, and every entry ends no later than those after it. *)
Theorem exchange_sort_sorts (ages : list traceAge) :
  sort_ages ages ≡ₚ ages
  ∧ StronglySorted olderEq (sort_ages ages)
  ∧ length (sort_ages ages) = length ages.
Proof.
  split_and!.
  - apply SweepSpec.sort_ages_perm.
  - apply SweepSpec.sort_ages_sorted.
  - by rewrite SweepSpec.sort_ages_perm.
Qed.

End Invariants.
(** *** The properties at the example inputs *)

Import Scenario.

Lemma new_span_counted_witness :
  let store := NewTraceStore 0 0 in
  ptrsValid store
  ∧ GetSpanPtr store (traceIDOf rootOp) (spanIDOf rootOp) = None
  ∧ GetSpan (AddSpan (H := canonicalRange) 6000 rootOp store)
      (traceIDOf rootOp) (spanIDOf rootOp) = Some (storedRecord rootOp)
  ∧ totalSpans (AddSpan (H := canonicalRange) 6000 rootOp store)
    = totalSpans store + 1.
Proof.
  intros store.
  assert (Hv : ptrsValid store) by apply StoreSpec.ptrsValid_new.
  assert (Hn : GetSpanPtr store (traceIDOf rootOp) (spanIDOf rootOp) = None)
    by (vm_compute; reflexivity).
  split; [exact Hv|]. split; [exact Hn|].
  destruct (new_span_counted (H := canonicalRange) 6000 rootOp store Hv Hn)
    as (Hkept & _ & Htotal).
  split.
  - apply Hkept. vm_compute. by eexists.
  - apply Htotal; vm_compute; discriminate.
Defined.

Lemma trace_window_covers_spans_witness :
  let store :=
    AddSpans (H := canonicalRange) [(6000, rootOp); (6000, childOp)]
      (NewTraceStore 0 0) in
  ∃ trace sd,
    GetTrace store (traceIDOf rootOp) = Some trace
    ∧ GetSpan store (traceIDOf rootOp) (spanIDOf childOp) = Some sd
    ∧ StartTime trace ≤ sd_StartTime sd ∧ sd_EndTime sd ≤ EndTime trace.
Proof.
  intros store.
  assert (Ht : is_Some (GetTrace store (traceIDOf rootOp)))
    by (vm_compute; by eexists).
  assert (Hs : is_Some (GetSpan store (traceIDOf rootOp) (spanIDOf childOp)))
    by (vm_compute; by eexists).
  destruct Ht as [trace Ht]. destruct Hs as [sd Hs]. exists trace, sd.
  split; [exact Ht|]. split; [exact Hs|].
  exact (trace_window_covers_spans (H := canonicalRange)
           [(6000, rootOp); (6000, childOp)] 0 0 _ _ _ _ Ht Hs).
Defined.

Lemma root_span_replaced_witness :
  let store := AddSpan (H := canonicalRange) 6000 rootOp (NewTraceStore 0 0) in
  let after := AddSpan (H := canonicalRange) 7000 rootAgain store in
  ptrsValid store
  ∧ isRootSpan rootAgain = true
  ∧ ∃ trace,
      traces after !! traceIDOf rootAgain = Some trace
      ∧ RootSpan trace = Some 1%nat
      ∧ d_Name (listDigest (H := canonicalRange) after (traceIDOf rootAgain, trace))
        = "root-op-retry".
Proof.
  intros store after.
  assert (Hv : ptrsValid store) by apply StoreSpec.AddSpan_valid, StoreSpec.ptrsValid_new.
  assert (Hr : isRootSpan rootAgain = true) by (vm_compute; reflexivity).
  assert (Ht : is_Some (traces after !! traceIDOf rootAgain))
    by (vm_compute; by eexists).
  split; [exact Hv|]. split; [exact Hr|].
  destruct Ht as [trace Ht]. exists trace. split; [exact Ht|].
  destruct (root_span_replaced (H := canonicalRange) 7000 rootAgain store trace Hv Hr Ht)
    as (Hroot & _ & _ & Hname).
  split; [exact Hroot|exact Hname].
Defined.

Lemma error_status_is_sticky_witness :
  let store := AddSpan (H := canonicalRange) 6000 rootOp (NewTraceStore 0 0) in
  ∃ trace,
    traces (AddSpan (H := canonicalRange) 7000 failedOp store) !! traceIDOf failedOp
    = Some trace
    ∧ Status trace = "error"
    ∧ Files trace !! "/proj/a.go" = Some true.
Proof.
  intros store.
  assert (Ht : is_Some (traces (AddSpan (H := canonicalRange) 7000 failedOp store)
                          !! traceIDOf failedOp))
    by (vm_compute; by eexists).
  destruct Ht as [trace Ht]. exists trace. split; [exact Ht|].
  destruct (error_status_is_sticky (H := canonicalRange) 7000 failedOp store trace Ht)
    as (Hs & Hf & _).
  split; [exact Hs|]. apply (Hf failedContext). left.
Defined.

Lemma other_traces_untouched_witness :
  let store := AddSpans (H := canonicalRange) [(6000, rootOp)] (NewTraceStore 0 0) in
  traceIDOf rootOp ≠ traceIDOf eleventh
  ∧ is_Some (GetTrace (AddSpan (H := canonicalRange) 7000 eleventh store)
               (traceIDOf rootOp))
  ∧ GetSpan (AddSpan (H := canonicalRange) 7000 eleventh store)
      (traceIDOf rootOp) (spanIDOf rootOp)
    = GetSpan store (traceIDOf rootOp) (spanIDOf rootOp).
Proof.
  intros store.
  assert (Hne : traceIDOf rootOp ≠ traceIDOf eleventh) by (vm_compute; discriminate).
  assert (Hk : is_Some (GetTrace (AddSpan (H := canonicalRange) 7000 eleventh store)
                          (traceIDOf rootOp)))
    by (vm_compute; by eexists).
  split; [exact Hne|]. split; [exact Hk|].
  destruct (other_traces_untouched (H := canonicalRange) [(6000, rootOp)] 0 0 7000
              eleventh (traceIDOf rootOp) Hne Hk) as [_ Hspans].
  apply Hspans.
Defined.

Lemma stale_span_dropped_witness :
  let store := NewTraceStore 0 oneHour in
  0 < retention store
  ∧ GetSpan (AddSpan (H := canonicalRange) 7200000003000 rootOp store)
      (traceIDOf rootOp) (spanIDOf rootOp) = None.
Proof.
  intros store.
  assert (Hr : 0 < retention store) by reflexivity.
  split; [exact Hr|].
  refine (proj2 (stale_span_dropped (H := canonicalRange) 7200000003000 rootOp store
                   Hr _)).
  vm_compute. reflexivity.
Defined.

End StoreInvariants.
(** * Adding a stored span again *)

Module ReaddSpec.
Import mcpserver StoreSpec SweepSpec StoreInvariants.

Section Readd.
Context `{MapRange}.

(** Writing a stored span again leaves the number of spans as it was. *)
Lemma rewrite_counts sd store trace :
  traces store !! traceIDOf sd = Some trace →
  is_Some (Spans trace !! spanIDOf sd) →
  spanCount (AddSpan_write sd store) (traceIDOf sd) = spanCount store (traceIDOf sd)
  ∧ totalSpans (AddSpan_write sd store) = totalSpans store.
Proof.
  intros Htr Hold.
  destruct (written_trace sd store) as (trace' & Htr' & Hsp & _).
  rewrite (getOrCreateTrace_stored _ _ _ Htr) in Hsp.
  assert (Hc : spanCount (AddSpan_write sd store) (traceIDOf sd)
               = spanCount store (traceIDOf sd)).
  { rewrite (spanCount_stored _ _ _ Htr'), (spanCount_stored _ _ _ Htr), Hsp.
    by rewrite map_size_insert_Some. }
  split; [done|]. rewrite totalSpans_write, Hc. lia.
Qed.

(** C4. For every stored trace and span, AddSpan with a span that has the
    same trace id and span id ends in one of two ways. When the sweep that
    ends the call keeps the trace, the stored record of that span id is
    overwritten and the span count of the trace is as before. When the
    sweep removes the trace, the span is no longer stored and the trace
    counts no span. While the store is within its cap, or has none, the
    sweep keeps the trace exactly when no retention is set or the trace,
    which now ends no earlier than the span, is not past retention. *)
Theorem readd_overwrites_unless_evicted now sd store trace :
  ptrsValid store →
  traces store !! traceIDOf sd = Some trace →
  is_Some (Spans trace !! spanIDOf sd) →
  let after := AddSpan now sd store in
  (is_Some (traces after !! traceIDOf sd) →
   GetSpan after (traceIDOf sd) (spanIDOf sd) = Some (storedRecord sd)
   ∧ spanCount after (traceIDOf sd) = spanCount store (traceIDOf sd))
  ∧ (traces after !! traceIDOf sd = None →
     GetSpan after (traceIDOf sd) (spanIDOf sd) = None
     ∧ spanCount after (traceIDOf sd) = 0)
  ∧ (maxSpans store ≤ 0 ∨ totalSpans store ≤ maxSpans store →
     is_Some (traces after !! traceIDOf sd)
     ↔ retention store ≤ 0
       ∨ Sub now (Z.max (sd_EndTime sd) (EndTime trace)) ≤ retention store).
Proof.
  intros Hv Htr Hold after.
  destruct (written_trace sd store) as (trace' & Htr' & Hsp & _ & Hend & _).
  rewrite (getOrCreateTrace_stored _ _ _ Htr) in Hsp, Hend.
  destruct (rewrite_counts sd store trace Htr Hold) as [Hcount Htotal].
  destruct (AddSpan_write_config sd store) as [Hmax Hret].
  split_and!.
  - intros [trace'' Hafter].
    pose proof (AddSpan_lookup_Some _ _ _ _ _ Hafter) as Hw.
    rewrite Htr' in Hw. injection Hw as <-. split.
    + unfold GetSpan, GetSpanPtr. rewrite Hafter, Hsp, lookup_insert_eq.
      unfold after. rewrite AddSpan_objs. by apply AddSpan_write_new_object.
    + rewrite (spanCount_stored _ _ _ Hafter), <- Hcount.
      by rewrite (spanCount_stored _ _ _ Htr').
  - intros Hnone. unfold GetSpan, GetSpanPtr, spanCount. by rewrite Hnone.
  - intros Hcap. unfold after, AddSpan.
    rewrite (kept_iff_not_expired now _ _ _ Htr') by (rewrite Hmax, Htotal; done).
    by rewrite Hret, Hend.
Qed.

End Readd.

Import Scenario.

Lemma readd_overwrites_unless_evicted_witness :
  let store := AddSpan (H := canonicalRange) 6000 rootOp (NewTraceStore 0 0) in
  ptrsValid store
  ∧ is_Some (GetSpanPtr store (traceIDOf rootAgain) (spanIDOf rootAgain))
  ∧ GetSpan (AddSpan (H := canonicalRange) 7000 rootAgain store)
      (traceIDOf rootAgain) (spanIDOf rootAgain) = Some rootAgain
  ∧ spanCount (AddSpan (H := canonicalRange) 7000 rootAgain store)
      (traceIDOf rootAgain) = 1.
Proof.
  intros store.
  assert (Hv : ptrsValid store) by apply AddSpan_valid, ptrsValid_new.
  assert (Hs : is_Some (GetSpanPtr store (traceIDOf rootAgain) (spanIDOf rootAgain))).
  { vm_compute. by eexists. }
  split; [exact Hv|]. split; [exact Hs|].
  destruct (traces store !! traceIDOf rootAgain) as [trace|] eqn:Htr;
    [|exfalso; revert Htr; vm_compute; discriminate].
  assert (Hold : is_Some (Spans trace !! spanIDOf rootAgain)).
  { unfold GetSpanPtr in Hs. by rewrite Htr in Hs. }
  destruct (readd_overwrites_unless_evicted (H := canonicalRange) 7000 rootAgain
              store trace Hv Htr Hold) as (Hkept & _ & _).
  apply Hkept. vm_compute. by eexists.
Defined.

(** C4, as stated, fails when the sweep that ends the call removes the
    trace: with a retention of one hour, the root span that ends at 5000ns
    is stored, and adding it again two hours later leaves neither the span
    nor its trace in the store. *)
Lemma readd_evicted_counterexample :
  let store := AddSpan (H := canonicalRange) 6000 rootOp (NewTraceStore 0 oneHour) in
  let after := AddSpan (H := canonicalRange) 7200000003000 rootAgain store in
  traceIDOf rootAgain = traceIDOf rootOp
  ∧ spanIDOf rootAgain = spanIDOf rootOp
  ∧ GetSpan store (traceIDOf rootOp) (spanIDOf rootOp) = Some rootOp
  ∧ spanCount store (traceIDOf rootOp) = 1
  ∧ GetSpan after (traceIDOf rootOp) (spanIDOf rootOp) = None
  ∧ spanCount after (traceIDOf rootOp) = 0.
Proof. vm_compute. by split_and!. Qed.

End ReaddSpec.

(** * Properties of the REST handlers *)

Module ApiSpec.
Import mcpserver StoreInvariants.

Section ApiLemmas.
Context `{MapRange}.

Lemma GetFileTraces_empty store f :
  GetFileTraces store f = ∅ ↔ fileBucket store f = [].
Proof.
  split.
  - intros Hempty. unfold fileBucket.
    destruct (default [] (spansByFile store !! f)) as [|c l] eqn:E; [done|].
    exfalso.
    assert (Hl : GetFileTraces store f !! ctx_TraceID c = None)
      by by rewrite Hempty, lookup_empty.
    rewrite AnalyzerSpec.GetFileTraces_lookup, E in Hl.
    by rewrite filter_cons_True in Hl.
  - intros Hnil. apply map_empty. intros tid.
    rewrite AnalyzerSpec.GetFileTraces_lookup. fold (fileBucket store f).
    by rewrite Hnil.
Qed.

Lemma ListFiles_elem store f :
  f ∈ ListFiles store ↔ is_Some (spansByFile store !! f).
Proof.
  unfold ListFiles. rewrite (range_perm _ (spansByFile store)).
  rewrite list_elem_of_fmap. split.
  - intros ([f' l] & -> & Hin%elem_of_map_to_list). by exists l.
  - intros [l Hl]. exists (f, l). split; [done|]. by apply elem_of_map_to_list.
Qed.

(** X9. A file is answered with 404 exactly when ListFiles does not list
    it: in a store built by AddSpan calls no file is indexed with an empty
    list of contexts, so handleGetFileTraces reports the file as not found
    if and only if it is no key of the index; and otherwise it answers with
    the contexts of the file grouped by their trace id, each group in the
    order of the index. *)
Theorem file_not_found_iff_unlisted adds max ret urlPath :
  let store := AddSpans adds (NewTraceStore max ret) in
  let filePath := TrimPrefix urlPath "/api/file/" in
  (handleGetFileTraces store urlPath
   = httpError "File not found in any traces" StatusNotFound
   ↔ filePath ∉ ListFiles store)
  ∧ (filePath ∈ ListFiles store →
     ∃ groups, handleGetFileTraces store urlPath = jsonBody groups
       ∧ ∀ tid, default [] (groups !! tid)
                = filter (λ c, ctx_TraceID c = tid) (fileBucket store filePath)).
Proof.
  intros store filePath.
  destruct (built_store adds max ret) as (_ & _ & _ & Hne). fold store in Hne.
  assert (Hsize : (size (GetFileTraces store filePath) =? 0)%nat = true
                  ↔ filePath ∉ ListFiles store).
  { rewrite Nat.eqb_eq, map_size_empty_iff, GetFileTraces_empty, ListFiles_elem.
    unfold fileBucket. split.
    - intros Hnil [l Hl]. rewrite Hl in Hnil. cbn in Hnil. subst l.
      by apply (Hne _ _ Hl).
    - intros Hnone. destruct (spansByFile store !! filePath); [|done].
      exfalso. by apply Hnone. }
  unfold handleGetFileTraces. fold filePath. split.
  - rewrite <- Hsize. by destruct (_ =? _)%nat.
  - intros Hin. destruct (_ =? _)%nat eqn:E.
    + exfalso. by apply Hsize.
    + eexists. split; [done|]. intros tid.
      rewrite AnalyzerSpec.GetFileTraces_lookup. fold (fileBucket store filePath).
      by destruct (filter _ _).
Qed.

(** *** The digests *)

Lemma countErrors_fold (ctxs : list CodeSpanContext) d :
  let d' := foldl (λ d ctx, if isErrorOp (Operation ctx) then incr_ErrorCount d else d)
              d ctxs in
  d_ErrorCount d'
  = d_ErrorCount d
    + Z.of_nat (length (filter (λ c, isErrorOp (Operation c) = true) ctxs))
  ∧ d_TraceID d' = d_TraceID d ∧ d_Name d' = d_Name d
  ∧ d_Duration d' = d_Duration d ∧ d_SpanCount d' = d_SpanCount d
  ∧ d_Files d' = d_Files d ∧ d_StartTime d' = d_StartTime d
  ∧ d_KeyEvents d' = d_KeyEvents d.
Proof.
  cbn zeta. revert d. induction ctxs as [|c ctxs IH]; intros d.
  - rewrite filter_nil. cbn. split_and!; try done. lia.
  - cbn [foldl]. rewrite filter_cons.
    destruct (IH (if isErrorOp (Operation c) then incr_ErrorCount d else d))
      as (-> & -> & -> & -> & -> & -> & -> & ->).
    destruct (isErrorOp (Operation c)) eqn:E.
    + rewrite decide_True by done. cbn. split_and!; try done. lia.
    + rewrite decide_False by done. by split_and!.
Qed.

Lemma countSpans_fold (spans : list SpanData) d :
  let d' := foldl (λ d span,
              foldl (λ d ctx, if isErrorOp (Operation ctx) then incr_ErrorCount d else d)
                d (FileContexts span)) d spans in
  d_ErrorCount d' = d_ErrorCount d + errorCount spans
  ∧ d_TraceID d' = d_TraceID d ∧ d_Name d' = d_Name d
  ∧ d_Duration d' = d_Duration d ∧ d_SpanCount d' = d_SpanCount d
  ∧ d_Files d' = d_Files d ∧ d_StartTime d' = d_StartTime d
  ∧ d_KeyEvents d' = d_KeyEvents d.
Proof.
  cbn zeta. revert d. induction spans as [|x spans IH]; intros d.
  - unfold errorCount. cbn [mbind list_bind]. rewrite filter_nil. cbn.
    split_and!; try done. lia.
  - cbn [foldl].
    match goal with |- context [foldl _ (foldl ?f d ?l) spans] =>
      destruct (IH (foldl f d l)) as (-> & -> & -> & -> & -> & -> & -> & ->);
      destruct (countErrors_fold l d) as (-> & -> & -> & -> & -> & -> & -> & ->)
    end.
    split_and!; try done.
    unfold errorCount. cbn [mbind list_bind]. rewrite filter_app, length_app. lia.
Qed.

Lemma addFiles_fold (l : list (string * bool)) d :
  let d' := foldl (λ d fv, add_Files fv.1 d) d l in
  d_Files d' = d_Files d ++ l.*1
  ∧ d_ErrorCount d' = d_ErrorCount d
  ∧ d_TraceID d' = d_TraceID d ∧ d_Name d' = d_Name d
  ∧ d_Duration d' = d_Duration d ∧ d_SpanCount d' = d_SpanCount d
  ∧ d_StartTime d' = d_StartTime d ∧ d_KeyEvents d' = d_KeyEvents d.
Proof.
  cbn zeta. revert d. induction l as [|fv l IH]; intros d.
  - cbn. by rewrite app_nil_r.
  - cbn [foldl fmap list_fmap].
    destruct (IH (add_Files fv.1 d)) as (-> & -> & -> & -> & -> & -> & -> & ->).
    cbn. by rewrite <- app_assoc.
Qed.

(** X10. ListTraces returns one digest for each stored trace. The digest
    carries the id of the trace, the number of its spans, its start time and
    its length in whole milliseconds, the name of its root span, each of its
    files once, and the number of error and exception contexts among its
    spans; a digest of ListTraces never has key events. *)
Theorem list_traces_digests store :
  d_TraceID <$> ListTraces store ≡ₚ (map_to_list (traces store)).*1
  ∧ NoDup (d_TraceID <$> ListTraces store)
  ∧ Forall (λ d, ∃ trace,
              traces store !! d_TraceID d = Some trace
              ∧ d_SpanCount d = Z.of_nat (size (Spans trace))
              ∧ d_StartTime d = StartTime trace
              ∧ d_Duration d = Milliseconds (Sub (EndTime trace) (StartTime trace))
              ∧ d_Name d = rootName store trace
              ∧ d_Files d ≡ₚ (map_to_list (Files trace)).*1
              ∧ d_ErrorCount d = errorCount (spansOf store trace)
              ∧ d_KeyEvents d = [])
      (ListTraces store).
Proof.
  assert (Hdigest : ∀ kv,
            let d := listDigest store kv in
            d_TraceID d = kv.1
            ∧ d_SpanCount d = Z.of_nat (size (Spans kv.2))
            ∧ d_StartTime d = StartTime kv.2
            ∧ d_Duration d = Milliseconds (Sub (EndTime kv.2) (StartTime kv.2))
            ∧ d_Name d = rootName store kv.2
            ∧ d_Files d = (range (Files kv.2)).*1
            ∧ d_ErrorCount d = errorCount (spansOf store kv.2)
            ∧ d_KeyEvents d = []).
  { intros kv. cbn zeta. unfold listDigest.
    match goal with |- context [foldl _ (foldl ?f ?d ?l) (spansOf store kv.2)] =>
      destruct (countSpans_fold (spansOf store kv.2) (foldl f d l))
        as (-> & -> & -> & -> & -> & -> & -> & ->);
      destruct (addFiles_fold l d) as (-> & -> & -> & -> & -> & -> & -> & ->)
    end.
    cbn. split_and!; try done. }
  assert (Hids : d_TraceID <$> ListTraces store = (range (traces store)).*1).
  { unfold ListTraces. rewrite <- list_fmap_compose. apply list_fmap_ext.
    intros i kv _. apply Hdigest. }
  split_and!.
  - rewrite Hids. by rewrite (range_perm _ (traces store)).
  - rewrite Hids, (range_perm _ (traces store)). apply NoDup_fst_map_to_list.
  - apply Forall_forall. intros d Hd. unfold ListTraces in Hd.
    apply list_elem_of_fmap in Hd as ([id trace] & -> & Hin).
    destruct (Hdigest (id, trace)) as (E1 & E2 & E3 & E4 & E5 & E6 & E7 & E8).
    exists trace. rewrite E1. split_and!; try done.
    + by apply SweepSpec.elem_of_range.
    + rewrite E6. cbn. by rewrite (range_perm _ (Files trace)).
Qed.

End ApiLemmas.
End ApiSpec.
(** * More properties of the code analyzer *)

Module AnalyzerBounds.
Import mcpserver.

Section Bounds.
Variable unicodeToLower : string → string.
Variable FindStringSubmatch : string → string → list string.
Variable fs : FileSystem.

Abbreviation enrich := (enrichWithFileContents unicodeToLower FindStringSubmatch fs).
Abbreviation analyze := (AnalyzeSpan unicodeToLower FindStringSubmatch fs).

(** *** Files outside the project *)

Lemma each_event (P : CodeSpanContext → Prop) ca events found :
  (∀ event cs,
     analyzeEvent unicodeToLower FindStringSubmatch fs ca event = Some cs →
     Forall P cs) →
  mapM (analyzeEvent unicodeToLower FindStringSubmatch fs ca) events = Some found →
  Forall P (concat found).
Proof.
  intros Hev Hfound%mapM_Some. apply Forall_concat.
  induction Hfound as [|event cs events found Hcs _ IH]; constructor; eauto.
Qed.

(** X11. The analyzer returns no context for a file outside the project:
    every context that AnalyzeSpan returns, whether it comes from an
    attribute of the span, from an attribute of an event or from a stack
    trace, names a file that isFileInProject accepts; with a project root
    configured, the path of every context starts with the root. *)
Theorem contexts_stay_in_project ca span events contexts :
  analyze ca span events = Some contexts →
  Forall (λ c, isFileInProject ca (FilePath c) = true
               ∧ (projectRoot ca ≠ EmptyString →
                  HasPrefix (FilePath c) (projectRoot ca) = true))
    contexts.
Proof.
  set (P := λ c, isFileInProject ca (FilePath c) = true
                 ∧ (projectRoot ca ≠ EmptyString →
                    HasPrefix (FilePath c) (projectRoot ca) = true)).
  assert (Hin : ∀ c c', isFileInProject ca (FilePath c) = true →
                  enrich c = Some c' → P c').
  { intros c c' Hc (Hp & _)%AnalyzerSpec.enrich_frame. unfold P. rewrite Hp.
    split; [done|]. intros Hroot. unfold isFileInProject in Hc.
    destruct (String.eqb_spec (projectRoot ca) EmptyString); [done|done]. }
  assert (Hattr : ∀ (mk : KeyValue → CodeSpanContext) attrs cs,
            (∀ attr, FilePath (mk attr) = GetStringValue attr) →
            foldl (λ contexts attr,
                     if isFileAttr unicodeToLower ca attr
                     then appendEnriched unicodeToLower FindStringSubmatch fs
                            contexts (mk attr)
                     else contexts)
              (Some []) attrs = Some cs →
            Forall P cs).
  { intros mk attrs cs Hmk Hcs.
    eapply (AnalyzerSpec.loop_keeps P) in Hcs as (nil & [= <-] & Hcs);
      [by apply Hcs|].
    intros acc attr l. destruct (isFileAttr _ _ _) eqn:E; [|by eexists].
    apply AnalyzerSpec.append_keeps. intros c'. apply Hin. rewrite Hmk.
    unfold isFileAttr in E. by apply andb_true_iff in E as [_ E]. }
  assert (Hstack : ∀ event cs,
            processStackTrace unicodeToLower FindStringSubmatch fs ca event = Some cs →
            Forall P cs).
  { intros event cs. unfold processStackTrace.
    destruct (String.eqb _ _); [by intros [= <-]|]. intros Hcs.
    eapply (AnalyzerSpec.loop_keeps P) in Hcs as (nil & [= <-] & Hcs);
      [by apply Hcs|].
    intros acc m l. unfold stackTraceStep.
    destruct m as [|m0 [|m1 [|m2 m]]]; try (by eexists).
    destruct (isFileInProject ca _) eqn:E; [|by eexists].
    apply AnalyzerSpec.append_keeps. intros c'. by apply Hin. }
  assert (Hevent : ∀ event cs,
            analyzeEvent unicodeToLower FindStringSubmatch fs ca event = Some cs →
            Forall P cs).
  { intros event cs. unfold analyzeEvent.
    destruct (if _ || _ then _ else Some []) as [st|] eqn:Est; [|done].
    destruct (extractFilePathsFromEvent _ _ _ ca event) as [ops|] eqn:Eops; [|done].
    cbn. intros [= <-]. apply Forall_app. split.
    - destruct (_ || _); [by eapply Hstack|]. by injection Est as <-.
    - unfold extractFilePathsFromEvent in Eops.
      by apply (Hattr (λ attr, mkCtx (GetStringValue attr) 0 0 EmptyString
                                 EmptyString EmptyString
                                 (inferOperationFromEvent unicodeToLower event)
                                 EmptyString)) in Eops. }
  rewrite AnalyzerSpec.analyze_unfold.
  destruct (extractFilePathsFromSpan _ _ _ ca span) as [fromAttrs|] eqn:Eattrs; [|done].
  destruct (mapM _ events) as [found|] eqn:Efound; [|done].
  cbn. intros [= <-]. apply Forall_app. split.
  - unfold extractFilePathsFromSpan in Eattrs.
    by apply (Hattr (λ attr, mkCtx (GetStringValue attr) 0 0 EmptyString
                               (Sprintf_x (SpanId span)) (Sprintf_x (TraceId span))
                               (inferOperationFromSpan unicodeToLower span)
                               EmptyString)) in Eattrs.
  - by eapply each_event.
Qed.

(** *** Panics *)



(** *** The snapshot *)

Lemma numberedFrom_above n lines p : p ∈ numberedFrom n lines → n < p.1.
Proof.
  revert n. induction lines as [|t lines IH]; intros n; [by intros ?%elem_of_nil|].
  cbn [numberedFrom]. intros [->|Hin%IH]%elem_of_cons; cbn; lia.
Qed.

Lemma numberedFrom_lookup n lines p :
  p ∈ numberedFrom n lines → lines !! Z.to_nat (p.1 - n - 1) = Some p.2.
Proof.
  revert n. induction lines as [|t lines IH]; intros n; [by intros ?%elem_of_nil|].
  cbn [numberedFrom]. intros [->|Hin]%elem_of_cons.
  - cbn. by replace (n + 1 - n - 1) with 0 by lia.
  - pose proof (numberedFrom_above _ _ _ Hin).
    replace (Z.to_nat (p.1 - n - 1)) with (S (Z.to_nat (p.1 - (n + 1) - 1))) by lia.
    by apply IH.
Qed.

Lemma window_length lo hi n lines :
  Z.of_nat (length (filter (inWindow lo hi) (numberedFrom n lines)))
  ≤ Z.max 0 (hi - Z.max lo (n + 1) + 1).
Proof.
  revert n. induction lines as [|t lines IH]; intros n; [cbn; lia|].
  cbn [numberedFrom]. rewrite filter_cons. specialize (IH (n + 1)).
  destruct (decide (inWindow lo hi (n + 1, t))) as [[H1 H2]|Hout];
    cbn [length fst] in *; lia.
Qed.

(** The scanner loop collects the lines of the window and stops after it:
    no line it leaves unread is in the window. *)
Lemma scanLoop_window lineStart lineEnd n lines acc :
  scanLoop lineStart lineEnd n lines acc
  = acc ++ (snapshotLine
              <$> filter (inWindow (wrap64 (lineStart - 5)) lineEnd)
                    (numberedFrom n lines)).
Proof.
  revert n acc. induction lines as [|t lines IH]; intros n acc.
  - cbn. by rewrite app_nil_r.
  - cbn [scanLoop numberedFrom]. rewrite filter_cons.
    destruct (Z.gtb_spec (n + 1) lineEnd) as [Hpast|Hin].
    + rewrite decide_False by (unfold inWindow; cbn; lia).
      replace (n + 1 <=? lineEnd) with false by (symmetry; apply Z.leb_gt; lia).
      rewrite andb_false_r.
      assert (Hnone : filter (inWindow (wrap64 (lineStart - 5)) lineEnd)
                        (numberedFrom (n + 1) lines) = []).
      { destruct (filter _ _) as [|p l] eqn:E; [done|].
        assert (Hp : p ∈ filter (inWindow (wrap64 (lineStart - 5)) lineEnd)
                           (numberedFrom (n + 1) lines)) by (rewrite E; left).
        apply list_elem_of_filter in Hp as [[_ Hhi] Hp%numberedFrom_above]. lia. }
      rewrite Hnone. cbn. by rewrite app_nil_r.
    + rewrite IH.
      destruct (Z.geb_spec (n + 1) (wrap64 (lineStart - 5))) as [Hlo|Hlo].
      * replace (n + 1 <=? lineEnd) with true by (symmetry; apply Z.leb_le; lia).
        cbn [andb]. rewrite decide_True by (unfold inWindow; cbn; lia).
        cbn [fmap list_fmap]. by rewrite <- app_assoc.
      * cbn [andb]. by rewrite decide_False by (unfold inWindow; cbn; lia).
Qed.

Lemma inferFunctionName_snapshot c :
  CodeSnapshot (inferFunctionName unicodeToLower FindStringSubmatch c) = CodeSnapshot c.
Proof.
  unfold inferFunctionName. destruct (String.eqb _ _); [done|].
  by destruct (find _ _).
Qed.

(** X12. When the file of a context can be read, enrichWithFileContents
    shows a bounded window of it: the window starts at line 1 or later and
    is at most 50 lines long, and the snapshot is, joined by newlines, the
    lines of the file numbered from five before the start of the window to
    its end, each as its number, a colon and the text of the line: at most
    56 lines, whatever the length of the file. *)
Theorem snapshot_is_the_window c lines :
  FilePath c ≠ EmptyString →
  stat fs (FilePath c) = FileInfo false →
  scanLines fs (FilePath c) = Some lines →
  LineStart c ≤ maxInt64 - 50 → LineEnd c ≤ maxInt64 →
  ∃ c',
    enrich c = Some c'
    ∧ let shown := filter (inWindow (LineStart c' - 5) (LineEnd c')) (numbered lines) in
      LineStart c' = Z.max 1 (LineStart c)
      ∧ LineStart c' < LineEnd c' ≤ LineStart c' + 50
      ∧ CodeSnapshot c' = Join (snapshotLine <$> shown) (String "010" EmptyString)
      ∧ (length shown ≤ 56)%nat
      ∧ Forall (λ p, lines !! Z.to_nat (p.1 - 1) = Some p.2) shown.
Proof.
  intros Hpath Hstat Hlines Hs He.
  assert (H63 : maxInt64 = 9223372036854775807) by reflexivity.
  exists (readFileContents unicodeToLower FindStringSubmatch fs c). split.
  { unfold enrichWithFileContents, fileExists. rewrite Hstat.
    by destruct (String.eqb_spec (FilePath c) EmptyString). }
  cbn zeta. unfold readFileContents. rewrite Hlines.
  set (ls := if LineStart c <=? 0 then 1 else LineStart c).
  set (le1 := if LineEnd c <=? ls then wrap64 (ls + 20) else LineEnd c).
  set (le := if wrap64 (le1 - ls) >? 50 then wrap64 (ls + 50) else le1).
  assert (Hls : ls = Z.max 1 (LineStart c)).
  { unfold ls. destruct (Z.leb_spec (LineStart c) 0); lia. }
  assert (Hw : ∀ z, -100 ≤ z ≤ maxInt64 → wrap64 z = z).
  { intros z Hz. unfold wrap64. rewrite Z.mod_small; lia. }
  assert (Hle1 : ls < le1 ≤ maxInt64).
  { unfold le1. destruct (Z.leb_spec (LineEnd c) ls); [|lia].
    rewrite Hw by lia. lia. }
  assert (Hle : ls < le ≤ ls + 50).
  { unfold le. rewrite (Hw (le1 - ls)) by lia.
    destruct (Z.gtb_spec (le1 - ls) 50); [rewrite Hw by lia|]; lia. }
  destruct (AnalyzerSpec.inferFunctionName_frame unicodeToLower FindStringSubmatch
              (set_CodeSnapshot
                 (Join (scanLoop ls le 0 lines []) (String "010" EmptyString))
                 (set_Lines ls le c))) as (_ & -> & -> & _).
  rewrite inferFunctionName_snapshot.
  cbn [LineStart LineEnd CodeSnapshot set_CodeSnapshot set_Lines].
  split_and!; [done|lia|lia| | |].
  - rewrite scanLoop_window, (Hw (ls - 5)) by lia. done.
  - pose proof (window_length (ls - 5) le 0 lines). unfold numbered. lia.
  - apply Forall_forall. intros p [_ Hp]%list_elem_of_filter.
    apply numberedFrom_lookup in Hp. by replace (p.1 - 1) with (p.1 - 0 - 1) by lia.
Qed.

End Bounds.

(** *** The matches of the stack trace pattern *)

Lemma spanLen_take p s : Forall (λ c, p c = true) (take (spanLen p s) s).
Proof.
  induction s as [|c s IH]; [constructor|]. cbn [spanLen].
  destruct (p c) eqn:E; [|constructor]. cbn. by constructor.
Qed.

Lemma matchLine_digits s ds rest :
  matchLine s = Some (ds, rest) → ds ≠ [] ∧ Forall (λ c, isDigit c = true) ds.
Proof.
  unfold matchLine. destruct s as [|c s]; [done|].
  destruct (Ascii.eqb c ":"); [|done].
  destruct (spanLen isDigit s) as [|n] eqn:E; [done|].
  intros [= <- <-]. split.
  - destruct s; [done|]. done.
  - rewrite <- E. apply spanLen_take.
Qed.

Lemma matchExtFrom_digits m s r :
  matchExtFrom m s = Some r → r.1.2 ≠ [] ∧ Forall (λ c, isDigit c = true) r.1.2.
Proof.
  induction m as [|m IH]; [done|]. cbn [matchExtFrom].
  destruct (matchLine (drop (S m) s)) as [[ds rest]|] eqn:E; [|done].
  intros [= <-]. cbn. by eapply matchLine_digits.
Qed.

Lemma matchPathFrom_shape k s r :
  matchPathFrom k s = Some r →
  r.1.1 ≠ [] ∧ r.1.2 ≠ [] ∧ Forall (λ c, isDigit c = true) r.1.2.
Proof.
  induction k as [|k IH]; [done|]. cbn [matchPathFrom].
  destruct (matchExt (drop (S k) s)) as [e|] eqn:E; [|done].
  intros [= <-]. cbn [fst snd].
  unfold matchExt in E. destruct (drop (S k) s) as [|c s'] eqn:Hd; [done|].
  destruct (Ascii.eqb c "."); [|done].
  apply matchExtFrom_digits in E as [? ?]. split; [|done].
  destruct s; [done|]. done.
Qed.

Lemma digits_string ds :
  Forall (λ c, isDigit c = true) ds →
  allDigits (String.string_of_list_ascii ds) = true
  ∧ 0 ≤ decimal 0 (String.string_of_list_ascii ds).
Proof.
  intros Hds.
  assert (Hgen : ∀ acc, 0 ≤ acc →
            allDigits (String.string_of_list_ascii ds) = true
            ∧ 0 ≤ decimal acc (String.string_of_list_ascii ds)).
  { induction Hds as [|c ds Hc _ IH]; intros acc Hacc; [done|].
    cbn [String.string_of_list_ascii allDigits decimal]. rewrite Hc. cbn [andb].
    apply IH. unfold isDigit in Hc. cbn zeta in Hc.
    apply andb_true_iff in Hc as [Hc _]. apply N.leb_le in Hc. lia. }
  by apply Hgen.
Qed.

Lemma findAll_shape n s :
  Forall (λ m, ∃ g1 g2, m = [g1 +:+ ":" +:+ g2; g1; g2]
                 ∧ g1 ≠ EmptyString ∧ g2 ≠ EmptyString
                 ∧ allDigits g2 = true ∧ 0 ≤ Atoi g2 ≤ maxInt64)
    (findAll n s).
Proof.
  revert s. induction n as [|n IH]; intros s; [constructor|]. cbn [findAll].
  destruct (matchAt s) as [r|] eqn:E.
  - constructor; [|apply IH].
    unfold matchAt in E. apply matchPathFrom_shape in E as (H1 & H2 & Hd).
    apply digits_string in Hd as [Hd Hpos].
    eexists _, _. split; [reflexivity|].
    assert (Hne : ∀ l, l ≠ [] → String.string_of_list_ascii l ≠ EmptyString).
    { intros [|c l]; [done|]. done. }
    split_and!; [by apply Hne|by apply Hne|done| |].
    + unfold Atoi. rewrite Hd.
      destruct (String.string_of_list_ascii r.1.2); [done|].
      assert (0 ≤ maxInt64) by done. lia.
    + unfold Atoi. rewrite Hd.
      destruct (String.string_of_list_ascii r.1.2); [done|]. lia.
  - destruct s; [constructor|apply IH].
Qed.

(** X13. Every match that processStackTrace takes from a stack trace has
    the form file:line: the match holds the whole text and its two groups,
    so the guard on its length always holds, the file part is not empty,
    and the line part is a non-empty string of decimal digits, so the
    conversion of the line number cannot fail on its syntax and gives a
    number from 0 to the largest int. *)
Theorem stack_trace_matches_are_file_line stackTrace :
  Forall (λ m, ∃ file line,
            m = [file +:+ ":" +:+ line; file; line]
            ∧ file ≠ EmptyString ∧ line ≠ EmptyString
            ∧ allDigits line = true ∧ 0 ≤ Atoi line ≤ maxInt64)
    (fileLineRegex_FindAll stackTrace).
Proof. apply findAll_shape. Qed.

(** *** The snapshot of a small file *)

Import Scenario.

Lemma snapshot_is_the_window_witness :
  let c := mkCtx "/proj/main.go" 2 0 EmptyString EmptyString EmptyString
             "read" EmptyString in
  FilePath c ≠ EmptyString
  ∧ stat mainGoOnly (FilePath c) = FileInfo false
  ∧ scanLines mainGoOnly (FilePath c) = Some mainGoLines
  ∧ LineStart c ≤ maxInt64 - 50 ∧ LineEnd c ≤ maxInt64
  ∧ ∃ c',
      enrichWithFileContents (λ s, s) (λ _ _, []) mainGoOnly c = Some c'
      ∧ LineStart c' = 2 ∧ LineStart c' < LineEnd c' ≤ LineStart c' + 50
      ∧ (length (filter (inWindow (LineStart c' - 5) (LineEnd c'))
                   (numbered mainGoLines)) ≤ 56)%nat.
Proof.
  intros c.
  assert (H1 : FilePath c ≠ EmptyString) by discriminate.
  assert (H2 : stat mainGoOnly (FilePath c) = FileInfo false) by reflexivity.
  assert (H3 : scanLines mainGoOnly (FilePath c) = Some mainGoLines) by reflexivity.
  assert (H4 : LineStart c ≤ maxInt64 - 50) by (vm_compute; discriminate).
  assert (H5 : LineEnd c ≤ maxInt64) by (vm_compute; discriminate).
  split_and!; [exact H1|exact H2|exact H3|exact H4|exact H5|].
  destruct (snapshot_is_the_window (λ s, s) (λ _ _, []) mainGoOnly c mainGoLines
              H1 H2 H3 H4 H5) as (c' & Hc' & Hs & Hw & _ & Hlen & _).
  exists c'. split_and!; [exact Hc'|exact Hs|apply Hw|apply Hw|exact Hlen].
Defined.

(** *** The contexts of a span of the project *)

Lemma contexts_stay_in_project_witness :
  AnalyzeSpan (λ s, s) (λ _ _, []) noFiles projAnalyzer eventSpan (Events eventSpan)
  = Some [mkCtx "/proj/a.go" 0 0 EmptyString EmptyString EmptyString "unknown"
            EmptyString]
  ∧ Forall (λ c, isFileInProject projAnalyzer (FilePath c) = true
                 ∧ (projectRoot projAnalyzer ≠ EmptyString →
                    HasPrefix (FilePath c) (projectRoot projAnalyzer) = true))
      [mkCtx "/proj/a.go" 0 0 EmptyString EmptyString EmptyString "unknown"
         EmptyString].
Proof.
  assert (Hret : AnalyzeSpan (λ s, s) (λ _ _, []) noFiles projAnalyzer eventSpan
                   (Events eventSpan)
                 = Some [mkCtx "/proj/a.go" 0 0 EmptyString EmptyString EmptyString
                           "unknown" EmptyString])
    by (vm_compute; reflexivity).
  split; [exact Hret|].
  exact (contexts_stay_in_project (λ s, s) (λ _ _, []) noFiles projAnalyzer eventSpan
           (Events eventSpan) _ Hret).
Defined.

End AnalyzerBounds.
(** * Properties of the ingestion path *)

Module IngestSpec.
Import mcpserver otlpserver.

Section Loops.
Context {App : Type}.

Lemma untilDone_fmap {X Y St} (g : Y → X) (body : St → X → St * bool) ys st :
  untilDone (λ st y, body st (g y)) ys st = untilDone body (g <$> ys) st.
Proof.
  revert st. induction ys as [|y ys IH]; intros st; [done|].
  cbn. destruct (body st (g y)).2; [done|]. apply IH.
Qed.

Lemma untilDone_app {X St} (body : St → X → St * bool) xs ys st :
  untilDone body (xs ++ ys) st
  = if (untilDone body xs st).2 then untilDone body xs st
    else untilDone body ys (untilDone body xs st).1.
Proof.
  revert st. induction xs as [|x xs IH]; intros st.
  - cbn. by destruct (untilDone body ys st).
  - cbn. destruct (body st x).2; [done|]. apply IH.
Qed.

Lemma untilDone_true {X St} (body : St → X → St * bool) xs st :
  (untilDone body xs st).2 = true →
  untilDone body xs st = ((untilDone body xs st).1, true).
Proof. intros E. rewrite <- E. by destruct (untilDone body xs st). Qed.

Lemma untilDone_bind {X Y St} (f : X → list Y) (body : St → Y → St * bool) xs st :
  untilDone (λ st x, untilDone body (f x) st) xs st = untilDone body (xs ≫= f) st.
Proof.
  revert st. induction xs as [|x xs IH]; intros st; [done|].
  cbn [untilDone mbind list_bind]. rewrite untilDone_app.
  destruct (untilDone body (f x) st).2 eqn:E; [|apply IH].
  symmetry. by apply untilDone_true.
Qed.

Lemma untilDone_ext {X St} (body1 body2 : St → X → St * bool) xs st :
  (∀ st x, body1 st x = body2 st x) →
  untilDone body1 xs st = untilDone body2 xs st.
Proof.
  intros Hext. revert st. induction xs as [|x xs IH]; intros st; [done|].
  cbn. rewrite Hext. destruct (body2 st x).2; [done|]. apply IH.
Qed.

Lemma untilDone_never {X St} (body : St → X → St * bool) xs st :
  (∀ s x, (body s x).2 = false) →
  untilDone body xs st = (foldl (λ s x, (body s x).1) st xs, false).
Proof.
  intros Hnever. revert st. induction xs as [|x xs IH]; intros st; [done|].
  cbn. rewrite Hnever. apply IH.
Qed.

(** A loop that can return runs its body on a prefix of the list: on all
    of it when no call returned true, and up to the first call that did. *)
Lemma untilDone_prefix {X St} (body : St → X → St * bool) xs st :
  ∃ n, (n ≤ length xs)%nat
    ∧ (untilDone body xs st).1 = foldl (λ s x, (body s x).1) st (take n xs)
    ∧ ((untilDone body xs st).2 = false → n = length xs)
    ∧ ((untilDone body xs st).2 = true → (0 < n)%nat)
    ∧ (∀ k x, xs !! k = Some x → (k < n)%nat →
         (body (foldl (λ s x, (body s x).1) st (take k xs)) x).2
         = (untilDone body xs st).2 && bool_decide (S k = n)).
Proof.
  revert st. induction xs as [|x xs IH]; intros st.
  - exists 0%nat. cbn. split_and!; [lia|done|done|done|]. intros k x _ Hk. lia.
  - cbn [untilDone]. destruct (body st x).2 eqn:E.
    + exists 1%nat. cbn. split_and!; [lia|done|done|lia|].
      intros [|k] y Hy Hk; [|lia]. by injection Hy as <-.
    + destruct (IH (body st x).1) as (n & Hn & Hst & Hall & Hpos & Hans).
      exists (S n). cbn. split_and!; [lia|done| |lia|].
      * intros Hf. by rewrite Hall.
      * intros [|k] y Hy Hk.
        -- injection Hy as <-. cbn. rewrite E.
           destruct (untilDone body xs (body st x).1).2 eqn:Er; [|done].
           cbn. rewrite bool_decide_eq_false_2; [done|]. specialize (Hpos eq_refl). lia.
        -- cbn in Hy |- *. rewrite (Hans k y Hy) by lia.
           f_equal. apply bool_decide_ext. lia.
Qed.

Lemma doCallback_flat (cb : TraceCallback App) req headers meta st :
  doCallback cb req headers meta st
  = untilDone (deliver cb headers meta) (requestSpans req) st.
Proof.
  unfold doCallback, requestSpans.
  rewrite <- untilDone_bind. apply untilDone_ext. intros st1 resource.
  rewrite <- untilDone_bind. apply untilDone_ext. intros st2 ss.
  exact (untilDone_fmap (λ span, (span, resource)) (deliver cb headers meta)
           (otlpserver.Spans ss) st2).
Qed.

(** The calls a run of the loop logs. *)
Lemma deliver_log (cb : TraceCallback App) headers meta xs (st : App * list Call) :
  (foldl (λ s x, (deliver cb headers meta s x).1) st xs).2
  = st.2 ++ ((λ x : Span * ResourceSpans, TraceCall x.1 (Events x.1) x.2 headers meta) <$> xs)
  ∧ (foldl (λ s x, (deliver cb headers meta s x).1) st xs).1
    = foldl (λ a (x : Span * ResourceSpans), (cb a x.1 (Events x.1) x.2 headers meta).1) st.1 xs.
Proof.
  revert st. induction xs as [|x xs IH]; intros st.
  - cbn. by rewrite app_nil_r.
  - cbn [foldl fmap list_fmap]. destruct (IH (deliver cb headers meta st x).1) as [-> ->].
    cbn. by rewrite <- app_assoc.
Qed.

(** X14. doCallback hands the spans of a request to the callback one by
    one, in the order of the request (resource by resource, scope by scope),
    each with the resource it came under and the same headers and metadata,
    threading the state of the application through the calls. It stops
    after the first call that answers true and then reports true; when no
    call answers true every span has been delivered and it reports false:
    of the calls made, the last one answered true when doCallback reports
    true, and no other did. *)
Theorem doCallback_delivers_in_order (cb : TraceCallback App) req headers meta (a : App) :
  let r := doCallback cb req headers meta (a, []) in
  ∃ n, (n ≤ length (requestSpans req))%nat
    ∧ r.1.2 = (λ x : Span * ResourceSpans, TraceCall x.1 (Events x.1) x.2 headers meta)
                <$> take n (requestSpans req)
    ∧ r.1.1 = foldl (λ a (x : Span * ResourceSpans), (cb a x.1 (Events x.1) x.2 headers meta).1) a
                (take n (requestSpans req))
    ∧ (r.2 = false → n = length (requestSpans req))
    ∧ (r.2 = true → (0 < n)%nat)
    ∧ (∀ k (x : Span * ResourceSpans),
         requestSpans req !! k = Some x → (k < n)%nat →
         (cb (foldl (λ a (x : Span * ResourceSpans),
                       (cb a x.1 (Events x.1) x.2 headers meta).1) a
                (take k (requestSpans req)))
             x.1 (Events x.1) x.2 headers meta).2
         = r.2 && bool_decide (S k = n)).
Proof.
  cbn zeta. rewrite doCallback_flat.
  destruct (untilDone_prefix (deliver cb headers meta) (requestSpans req) (a, []))
    as (n & Hn & Hst & Hall & Hpos & Hans).
  exists n. rewrite Hst.
  destruct (deliver_log cb headers meta (take n (requestSpans req)) (a, [])) as [-> ->].
  split_and!; try done.
  intros k x Hx Hk. rewrite <- (Hans k x Hx Hk).
  destruct (deliver_log cb headers meta (take k (requestSpans req)) (a, [])) as [_ Hk1].
  unfold deliver at 1. cbn [snd]. by rewrite Hk1.
Qed.

Lemma doLogCallback_flat (cb : LogCallback App) req headers meta st :
  doLogCallback cb req headers meta st
  = untilDone (deliverLog cb headers meta) (requestLogs req) st.
Proof.
  unfold doLogCallback, requestLogs.
  rewrite <- untilDone_bind. apply untilDone_ext. intros st1 resource.
  rewrite <- untilDone_bind. apply untilDone_ext. intros st2 sl.
  exact (untilDone_fmap (λ record, (record, resource)) (deliverLog cb headers meta)
           (LogRecords sl) st2).
Qed.

Lemma deliverLog_log (cb : LogCallback App) headers meta xs (st : App * list Call) :
  (foldl (λ s x, (deliverLog cb headers meta s x).1) st xs).2
  = st.2 ++ ((λ x : LogRecord * ResourceLogs, LogCall x.1 x.2 headers meta) <$> xs)
  ∧ (foldl (λ s x, (deliverLog cb headers meta s x).1) st xs).1
    = foldl (λ a (x : LogRecord * ResourceLogs), (cb a x.1 x.2 headers meta).1) st.1 xs.
Proof.
  revert st. induction xs as [|x xs IH]; intros st.
  - cbn. by rewrite app_nil_r.
  - cbn [foldl fmap list_fmap].
    destruct (IH (deliverLog cb headers meta st x).1) as [-> ->].
    cbn. by rewrite <- app_assoc.
Qed.

Section Http.
Variable protoUnmarshalLogs jsonUnmarshalLogs : list Byte.byte → ExportLogsServiceRequest.
Context `{MapRange}.

(** *** The headers a callback sees *)

Lemma headers_fold (g : string → string) (l : list (string * list string))
    (m : gmap string string) k :
  foldl (λ headers (kv : string * list string), <[kv.1 := g kv.1]> headers) m l !! k
  = if decide (k ∈ l.*1) then Some (g k) else m !! k.
Proof.
  revert m. induction l as [|kv l IH]; intros m.
  - cbn. by case_decide as Hin; [apply elem_of_nil in Hin|].
  - cbn [foldl fmap list_fmap]. rewrite IH.
    destruct (decide (k ∈ l.*1)) as [Hin|Hnin].
    + rewrite decide_True; [done|by right].
    + destruct (decide (k = kv.1)) as [->|Hne].
      * rewrite lookup_insert_eq, decide_True; [done|left].
      * rewrite lookup_insert_ne by done. rewrite decide_False; [done|].
        by intros [?|?]%elem_of_cons.
Qed.

(** X17. The headers handed to a callback hold one entry for each header
    of the request and no other: the entry of a header is its first value
    (the empty string when it has none), whatever the order in which the
    loop visits the headers; further values of a header are not passed
    on. *)
Theorem callback_headers_first_value (req : Request) k :
  requestHeaders req !! k
  = match Header req !! k with
    | Some (v :: _) => Some v
    | Some [] => Some EmptyString
    | None => None
    end.
Proof.
  unfold requestHeaders.
  rewrite (headers_fold (Header_Get (Header req))), lookup_empty.
  destruct (Header req !! k) as [vs|] eqn:E.
  - rewrite decide_True.
    + unfold Header_Get. rewrite E. by destruct vs.
    + rewrite (range_perm _ (Header req)). apply list_elem_of_fmap.
      exists (k, vs). split; [done|]. by apply elem_of_map_to_list.
  - rewrite decide_False; [done|].
    rewrite (range_perm _ (Header req)).
    intros ([k' vs] & -> & Hin%elem_of_map_to_list)%list_elem_of_fmap.
    cbn in E. by rewrite E in Hin.
Qed.

(** X16. With a log callback registered, a logs request in one of the two
    supported encodings is answered 200 OK, whatever the body decodes to:
    its records are handed to the callback in the order of the request up
    to the first call that answers true, and the graceful shutdown is
    started exactly when a call answered true, which then was the last
    call. *)
Theorem logs_delivered_in_order (hs : HttpServer App) cb (a : App) (req : Request) data :
  logCallback hs = Some cb →
  Body req = Some data →
  Header_Get (Header req) "Content-Type" = "application/x-protobuf"
  ∨ Header_Get (Header req) "Content-Type" = "application/json" →
  let msg := if String.eqb (Header_Get (Header req) "Content-Type")
                  "application/x-protobuf"
             then protoUnmarshalLogs data else jsonUnmarshalLogs data in
  ∃ n r,
    handleLogs protoUnmarshalLogs jsonUnmarshalLogs hs a req = Responded r
    ∧ StatusCode r = StatusOK
    ∧ (n ≤ length (requestLogs msg))%nat
    ∧ invoked r
      = (λ x : LogRecord * ResourceLogs,
           LogCall x.1 x.2 (requestHeaders req) (requestMeta req))
          <$> take n (requestLogs msg)
    ∧ app r
      = foldl (λ a (x : LogRecord * ResourceLogs),
                 (cb a x.1 x.2 (requestHeaders req) (requestMeta req)).1) a
          (take n (requestLogs msg))
    ∧ (stopWaitStarted r = false → n = length (requestLogs msg))
    ∧ (stopWaitStarted r = true → (0 < n)%nat)
    ∧ (∀ k (x : LogRecord * ResourceLogs),
         requestLogs msg !! k = Some x → (k < n)%nat →
         (cb (foldl (λ a (x : LogRecord * ResourceLogs),
                       (cb a x.1 x.2 (requestHeaders req) (requestMeta req)).1) a
                (take k (requestLogs msg)))
             x.1 x.2 (requestHeaders req) (requestMeta req)).2
         = stopWaitStarted r && bool_decide (S k = n)).
Proof.
  intros Hcb Hbody Hct msg. unfold handleLogs. rewrite Hcb, Hbody.
  assert (Hdec :
    (if String.eqb (Header_Get (Header req) "Content-Type") "application/x-protobuf"
     then Some (protoUnmarshalLogs data)
     else if String.eqb (Header_Get (Header req) "Content-Type") "application/json"
          then Some (jsonUnmarshalLogs data) else None) = Some msg).
  { subst msg. destruct Hct as [-> | ->]; done. }
  rewrite Hdec, doLogCallback_flat.
  destruct (untilDone_prefix (deliverLog cb (requestHeaders req) (requestMeta req))
              (requestLogs msg) (a, [])) as (n & Hn & Hst & Hall & Hpos & Hans).
  exists n. eexists. split; [reflexivity|]. cbn [StatusCode invoked app stopWaitStarted].
  rewrite Hst.
  destruct (deliverLog_log cb (requestHeaders req) (requestMeta req)
              (take n (requestLogs msg)) (a, [])) as [-> ->].
  split_and!; try done.
  intros k x Hx Hk. rewrite <- (Hans k x Hx Hk).
  destruct (deliverLog_log cb (requestHeaders req) (requestMeta req)
              (take k (requestLogs msg)) (a, [])) as [_ Hk1].
  unfold deliverLog at 1. cbn [snd]. by rewrite Hk1.
Qed.

End Http.
End Loops.

(** *** A request of two log records *)

Import Scenario.

Lemma logs_delivered_in_order_witness :
  let hs := mkHttpServer (λ (n : nat) _ _ _ _ _, (n, false))
              (Some (λ (n : nat) _ _ _ _, (S n, false))) in
  logCallback hs = Some (λ (n : nat) _ _ _ _, (S n, false))
  ∧ Body jsonLogs = Some []
  ∧ (Header_Get (Header jsonLogs) "Content-Type" = "application/x-protobuf"
     ∨ Header_Get (Header jsonLogs) "Content-Type" = "application/json")
  ∧ ∃ n r,
      handleLogs (H := canonicalRange) noLogs twoLogs hs 0%nat jsonLogs = Responded r
      ∧ StatusCode r = StatusOK
      ∧ (stopWaitStarted r = true → (0 < n)%nat).
Proof.
  intros hs.
  assert (Hcb : logCallback hs = Some (λ (n : nat) _ _ _ _, (S n, false)))
    by reflexivity.
  assert (Hb : Body jsonLogs = Some []) by reflexivity.
  assert (Hc : Header_Get (Header jsonLogs) "Content-Type" = "application/x-protobuf"
               ∨ Header_Get (Header jsonLogs) "Content-Type" = "application/json")
    by (right; vm_compute; reflexivity).
  split; [exact Hcb|]. split; [exact Hb|]. split; [exact Hc|].
  destruct (logs_delivered_in_order (H := canonicalRange) noLogs twoLogs hs _ 0%nat
              jsonLogs [] Hcb Hb Hc) as (n & r & Hr & Hs & _ & _ & _ & _ & Hpos & _).
  exists n, r. split; [exact Hr|]. split; [exact Hs|exact Hpos].
Defined.

End IngestSpec.
(** * Properties of the command line: severities and allowed origins *)

Module SeveritySpec.
Import otlpclient.

(** X19. The two severity conversions agree on the six supported
    severities and fall back to INFO elsewhere: turning a number into its
    name and back gives the number when it is one of the six and INFO
    otherwise, so the name of a number is always one of the six names; and
    turning a string into a number and back gives the upper-case name for a
    name spelled all in upper or all in lower case, and INFO for every
    other string. *)
Theorem severity_round_trip :
  (∀ n, LogSeverityStringToInt (LogSeverityIntToString n)
        = if bool_decide (n ∈ supportedSeverities) then n else SEVERITY_NUMBER_INFO)
  ∧ (∀ n, LogSeverityIntToString n ∈ severityNames)
  ∧ (∀ s, LogSeverityStringToInt s ∈ supportedSeverities)
  ∧ (∀ s, s ∈ severityNames →
        LogSeverityIntToString (LogSeverityStringToInt s) = s
        ∧ LogSeverityIntToString (LogSeverityStringToInt (lowerASCII s)) = s)
  ∧ (∀ s, s ∉ severityNames → s ∉ lowerASCII <$> severityNames →
        LogSeverityIntToString (LogSeverityStringToInt s) = "INFO").
Proof.
  split_and!.
  - intros n. unfold LogSeverityIntToString.
    repeat match goal with
           | |- context [n =? ?b] =>
               destruct (Z.eqb_spec n b) as [->|?]; [vm_compute; reflexivity|]
           end.
    rewrite bool_decide_eq_false_2; [reflexivity|].
    unfold supportedSeverities. rewrite !elem_of_cons, elem_of_nil.
    intros [?|[?|[?|[?|[?|[?|[]]]]]]]; done.
  - intros n. unfold LogSeverityIntToString, severityNames.
    repeat (destruct (_ =? _); [rewrite !elem_of_cons; by auto 10|]).
    rewrite !elem_of_cons; by auto 10.
  - intros s. unfold LogSeverityStringToInt, supportedSeverities.
    repeat (destruct (_ || _); [rewrite !elem_of_cons; by auto 10|]).
    rewrite !elem_of_cons; by auto 10.
  - intros s. unfold severityNames. rewrite !elem_of_cons, elem_of_nil.
    intros [->|[->|[->|[->|[->|[->|[]]]]]]]; by split.
  - intros s Hup Hlow. unfold LogSeverityStringToInt.
    assert (Hno : ∀ a b, a ∈ severityNames → b = lowerASCII a →
              String.eqb s a || String.eqb s b = false).
    { intros a b Ha ->. apply orb_false_iff. split; apply String.eqb_neq.
      - by intros ->.
      - intros ->. apply Hlow. by apply list_elem_of_fmap_2. }
    rewrite !Hno; [reflexivity|..]; try reflexivity;
      unfold severityNames; rewrite !elem_of_cons; auto 10.
Qed.

End SeveritySpec.

Module OriginSpec.
Import mcpserver otelcli AnalyzerSpec.

Lemma append_nil_r a : a +:+ EmptyString = a.
Proof. induction a as [|x a IH]; [done|]. rewrite append_cons. by rewrite IH. Qed.

Lemma free_snoc sep cur c :
  free sep cur = true → Ascii.eqb c sep = false →
  free sep (cur +:+ String c EmptyString) = true.
Proof.
  intros Hcur Hc. induction cur as [|x cur IH].
  - change (free sep (String c EmptyString) = true). cbn [free]. by rewrite Hc.
  - rewrite append_cons. cbn [free] in Hcur |- *.
    apply andb_true_iff in Hcur as [-> Hcur]. by apply IH.
Qed.

Lemma splitAt_nonempty sep cur s : splitAt sep cur s ≠ [].
Proof.
  revert cur. induction s as [|c s IH]; intros cur; [done|].
  cbn [splitAt]. destruct (Ascii.eqb c sep); [done|apply IH].
Qed.

Lemma splitAt_join sep cur s :
  String.concat (String sep EmptyString) (splitAt sep cur s) = cur +:+ s.
Proof.
  revert cur. induction s as [|c s IH]; intros cur.
  - cbn. by rewrite append_nil_r.
  - cbn [splitAt]. destruct (Ascii.eqb_spec c sep) as [->|Hne].
    + cbn [String.concat].
      destruct (splitAt sep EmptyString s) as [|p ps] eqn:E.
      { by apply splitAt_nonempty in E. }
      rewrite <- E, IH. done.
    + rewrite IH, append_assoc. done.
Qed.

Lemma splitAt_free sep cur s :
  free sep cur = true → Forall (λ p, free sep p = true) (splitAt sep cur s).
Proof.
  revert cur. induction s as [|c s IH]; intros cur Hcur.
  - by repeat constructor.
  - cbn [splitAt]. destruct (Ascii.eqb c sep) eqn:E.
    + constructor; [done|]. by apply IH.
    + by apply IH, free_snoc.
Qed.

(** X20. Splitting the list of allowed origins loses nothing: joining the
    origins of splitAllowedOrigins with commas gives back the text of the
    flag, there is always at least one origin, and no origin contains a
    comma. *)
Theorem split_origins_round_trip origins :
  Join (splitAllowedOrigins origins) "," = origins
  ∧ splitAllowedOrigins origins ≠ []
  ∧ Forall (λ origin, free "," origin = true) (splitAllowedOrigins origins).
Proof.
  unfold splitAllowedOrigins, Join.
  destruct (String.eqb_spec origins "*") as [->|Hne].
  - split_and!; [done|done|by repeat constructor].
  - unfold Split. split_and!.
    + apply (splitAt_join "," EmptyString).
    + apply splitAt_nonempty.
    + by apply splitAt_free.
Qed.

Lemma CheckOrigin_spec allowed origin :
  CheckOrigin allowed origin = true ↔ "*" ∈ allowed ∨ origin ∈ allowed.
Proof.
  induction allowed as [|o allowed IH]; cbn [CheckOrigin].
  - split; [done|]. by intros [?%elem_of_nil|?%elem_of_nil].
  - rewrite !elem_of_cons.
    destruct (String.eqb_spec o "*") as [->|Hstar].
    { split; [intros _|done]. left. by left. }
    destruct (String.eqb_spec o origin) as [->|Hne].
    { split; [intros _|done]. right. by left. }
    rewrite IH. split.
    + intros [?|?]; [left|right]; by right.
    + intros [[?|?]|[?|?]]; [congruence|by left|congruence|by right].
Qed.

(** X21. The websocket upgrader accepts a request exactly when the list
    of allowed origins holds the wildcard or the Origin header of the
    request. For the value of the flag this means: an empty flag and the
    flag * accept every origin, and so does any list with * among its
    entries; otherwise the header must be one of the entries between the
    commas, and a request without Origin header is accepted only when one
    entry is empty. *)
Theorem origin_accepted_iff_listed allowOrigins requestOrigin :
  (CheckOrigin (allowedOriginsOf allowOrigins) requestOrigin = true
   ↔ allowOrigins = EmptyString
     ∨ "*" ∈ Split allowOrigins ","
     ∨ requestOrigin ∈ Split allowOrigins ",")
  ∧ (∀ allowed, CheckOrigin allowed requestOrigin = true
                ↔ "*" ∈ allowed ∨ requestOrigin ∈ allowed).
Proof.
  split; [|intros allowed; apply CheckOrigin_spec].
  rewrite CheckOrigin_spec. unfold allowedOriginsOf, splitAllowedOrigins.
  destruct (String.eqb_spec allowOrigins EmptyString) as [->|Hne]; cbn [negb].
  - split; [by left|]. intros _. left. left.
  - destruct (String.eqb_spec allowOrigins "*") as [->|Hstar].
    + split; [|intros _; left; left]. intros _. right. left. cbn. left.
    + split; [by right|]. by intros [?|?].
Qed.

End OriginSpec.

(** * The shutdown of the gRPC server, for any number of callers *)

Module ShutdownInvariant.
Import lifecycle.
Local Open Scope nat_scope.

Lemma passes_refl i o : passes i o o.
Proof. split; by left. Qed.

Lemma callerInv_frame i j so dn so' dn' c :
  j ≠ i → passes i so so' → passes i dn dn' →
  callerInv so dn j c → callerInv so' dn' j c.
Proof.
  intros Hne [Hh1 Hd1] [Hh2 Hd2].
  destruct c as [e [[] pc|]]; unfold callerInv; cbn [at_pc entry].
  - destruct pc; cbn; intuition congruence.
  - destruct pc; cbn; intuition congruence.
  - intuition congruence.
Qed.

Lemma Inv_serving entries : Inv (serving entries).
Proof.
  split; cbn; try done; try (by left).
  - intros i c Hi. rewrite list_lookup_fmap in Hi.
    destruct (entries !! i); simplify_eq/=. by split_and!.
  - intros ph i. by destruct ph.
Qed.

(** *** The callers after a step *)

Lemma callers_setCaller i pc s j e pc0 :
  callers s !! i = Some (mkCaller e pc0) →
  callers (setCaller i pc s) !! j
  = if decide (j = i) then Some (mkCaller e pc) else callers s !! j.
Proof.
  intros Hi. unfold setCaller. cbn [callers]. case_decide as Hj.
  - subst j. by rewrite list_lookup_alter_eq, Hi.
  - by rewrite list_lookup_alter_ne.
Qed.

Lemma step_cases s s' :
  step s s' →
  (∃ i, callerStep i s = Some s') ∨ shutdownStep s = Some s' ∨ serveStep s = Some s'.
Proof.
  unfold step, next. rewrite !elem_of_app, list_elem_of_omap.
  intros [(i & _ & Hi)|[Hin|Hin]]; [eauto|right; left|right; right].
  - destruct (shutdownStep s); [|by apply elem_of_nil in Hin].
    by apply list_elem_of_singleton in Hin as ->.
  - destruct (serveStep s); [|by apply elem_of_nil in Hin].
    by apply list_elem_of_singleton in Hin as ->.
Qed.

Lemma storing_other ph s s' :
  holder (onceOf ph s') = holder (onceOf ph s) →
  (∀ i, holder (onceOf ph s) = Some i → callers s' !! i = callers s !! i) →
  storing ph s' = storing ph s.
Proof.
  intros Hh Hc. unfold storing. rewrite Hh.
  destruct (holder (onceOf ph s)) as [i|]; [|done]. by rewrite Hc.
Qed.

Lemma storing_holder ph s i c :
  holder (onceOf ph s) = Some i → callers s !! i = Some c →
  storing ph s = bool_decide (at_pc c = Running ph OnceStore).
Proof. intros Hh Hi. unfold storing. by rewrite Hh, Hi. Qed.

Lemma storing_free ph s : holder (onceOf ph s) = None → storing ph s = false.
Proof. intros Hh. unfold storing. by rewrite Hh. Qed.

Lemma storing_setCaller_holder ph s i pc e pc0 :
  callers s !! i = Some (mkCaller e pc0) →
  holder (onceOf ph s) = Some i →
  storing ph (setCaller i pc s) = bool_decide (pc = Running ph OnceStore).
Proof.
  intros Hi Hh.
  rewrite (storing_holder ph _ i (mkCaller e pc)); [done|by destruct ph|].
  rewrite (callers_setCaller _ _ _ _ _ _ Hi). by case_decide.
Qed.

Lemma storing_setCaller_other ph s i pc :
  holder (onceOf ph s) ≠ Some i →
  storing ph (setCaller i pc s) = storing ph s.
Proof.
  intros Hh. apply storing_other; [by destruct ph|].
  intros j Hj. unfold setCaller; cbn [callers].
  apply list_lookup_alter_ne. congruence.
Qed.

(** *** The invariant is kept *)

Lemma Inv_shutdownStep s s' : Inv s → shutdownStep s = Some s' → Inv s'.
Proof.
  intros [] Hstep. unfold shutdownStep in Hstep.
  assert (Hst : ∀ ph, storing ph s' = storing ph s).
  { intros ph. apply storing_other; destruct (shutdown s), ph; by simplify_eq/=. }
  destruct (shutdown s) eqn:Hsh; simplify_eq/=.
  - split; cbn; rewrite ?Hst; try done; lia.
  - split; cbn; rewrite ?Hst; try done; lia.
Qed.

Lemma Inv_serveStep s s' : Inv s → serveStep s = Some s' → Inv s'.
Proof.
  intros [] Hstep. unfold serveStep in Hstep.
  assert (Hst : ∀ ph, storing ph s' = storing ph s).
  { intros ph. apply storing_other;
      destruct (serve s), (serverStopped s), (stopdone s), ph; by simplify_eq/=. }
  destruct (serve s) eqn:Hsv; [destruct (serverStopped s) eqn:Hss|
                               destruct (stopdone s) eqn:Hsd|]; simplify_eq/=.
  - split; cbn; rewrite ?Hst; try done.
    destruct inv_chan0 as [?|[? ?]]; [by left|congruence].
  - split; cbn; rewrite ?Hst; try done.
    + intros _. by apply inv_serve0.
    + by right.
Qed.

(** What a step of caller [i] has to show: the state [X] before the pc of
    [i] is set has the callers of [s], its counters and pcs fit, its two
    [Once] changed only where [i] may, and the new pc of [i] fits them. *)
Lemma Inv_update s X i e pc0 pc' :
  Inv s → callers s !! i = Some (mkCaller e pc0) →
  callers X = callers s →
  hookCalls X = match shutdown X with CallGracefulStop | ShutdownDone => 1 | _ => 0 end →
  gracefulStops X = match shutdown X with ShutdownDone => 1 | _ => 0 end →
  serverStopped X = match shutdown X with ShutdownDone => true | _ => false end →
  (serve X ≠ Serving → serverStopped X = true) →
  (stopdone X = 0 ∨ (stopdone X = 1 ∧ serve X = ServeReturned)) →
  passes i (stoponce s) (stoponce X) → passes i (doneonce s) (doneonce X) →
  callerInv (stoponce X) (doneonce X) i (mkCaller e pc') →
  bool_decide (shutdown X = AwaitStopper)
  = negb (done (stoponce X) || storing InStop (setCaller i pc' X)) →
  bool_decide (serve X = ServeReturned) && (stopdone X =? 0)
  = (done (doneonce X) || storing InWait (setCaller i pc' X)) →
  Inv (setCaller i pc' X).
Proof.
  intros HI Hi Hc H1 H2 H3 H4 H5 Hso Hdn Hnew Hsent Hrecv.
  assert (Hi' : callers X !! i = Some (mkCaller e pc0)) by by rewrite Hc.
  split; cbn [hookCalls gracefulStops serverStopped serve stopdone shutdown
              stoponce doneonce setCaller]; try done.
  - intros j c. rewrite (callers_setCaller _ _ _ _ _ _ Hi').
    destruct (decide (j = i)) as [->|Hj].
    + by intros [= <-].
    + rewrite Hc. intros Hjc.
      eapply callerInv_frame; [exact Hj|exact Hso|exact Hdn|].
      by apply (inv_callers _ HI).
  - intros ph j Hh. rewrite (callers_setCaller _ _ _ _ _ _ Hi').
    destruct (decide (j = i)) as [->|Hj]; [done|]. rewrite Hc.
    assert (Hold : holder (onceOf ph s) = Some j).
    { destruct ph; cbn in Hh |- *.
      - destruct Hso as [[Heq|[_ [?|?]]] _]; congruence.
      - destruct Hdn as [[Heq|[_ [?|?]]] _]; congruence. }
    by apply (inv_holder _ HI ph).
Qed.

Ltac storing_norm Hi :=
  repeat match goal with
  | |- context [storing ?ph (setCaller ?i ?pc ?X)] =>
      first
        [ rewrite (storing_setCaller_holder ph X i pc _ _ Hi) by (cbn; congruence)
        | rewrite (storing_setCaller_other ph X i pc) by (cbn; congruence) ]
  end.

(** The clause of a channel after the step, from the clause before it. *)
Ltac channel Hi Hold :=
  storing_norm Hi; unfold storing in Hold |- *; cbn in Hold |- *;
  repeat match goal with
  | H : holder _ = _ |- _ => progress (rewrite ?H in Hold; rewrite ?H)
  | H : done _ = _ |- _ => progress (rewrite ?H in Hold; rewrite ?H)
  end;
  rewrite ?Hi in Hold; cbn in Hold |- *;
  rewrite ?orb_true_r, ?orb_false_r in Hold |- *; cbn in Hold |- *;
  try done.

Ltac new_caller :=
  unfold callerInv, holds, doneAt; cbn; split_and?; try done; try congruence.

Ltac side HI Hi Hsent Hrecv :=
  lazymatch goal with
  | |- callerInv _ _ _ _ => new_caller
  | |- passes _ _ _ => first [apply passes_refl | split; cbn; auto]
  | |- bool_decide (shutdown _ = _) = _ => channel Hi Hsent
  | |- bool_decide (serve _ = _) && _ = _ => channel Hi Hrecv
  | |- _ => try done; try (by apply HI)
  end.

Lemma Inv_callerStep s s' i : Inv s → callerStep i s = Some s' → Inv s'.
Proof.
  intros HI Hstep. unfold callerStep in Hstep.
  destruct (callers s !! i) as [[e [ph pc|]]|] eqn:Hi; [|done..].
  pose proof (inv_callers _ HI _ _ Hi) as Hci.
  pose proof (inv_sent _ HI) as Hsent.
  pose proof (inv_received _ HI) as Hrecv.
  unfold callerInv, holds, doneAt in Hci.
  destruct ph, pc; cbn in Hstep, Hci; destruct_and?.
  all: repeat match type of Hstep with
       | context [done ?o] => destruct (done o) eqn:?
       | context [holder ?o] => destruct (holder o) eqn:?
       end; simplify_eq.
  all: try (eapply (Inv_update s _ i e _ _ HI Hi); side HI Hi Hsent Hrecv; fail).
  all: try destruct e; cbn [afterDo].
  all: try (eapply (Inv_update s _ i _ _ _ HI Hi); side HI Hi Hsent Hrecv; fail).
  - (* the function of stoponce: stopper <- struct{}{} *)
    destruct (shutdown s) eqn:Hsh; simplify_eq.
    pose proof (inv_hook _ HI) as G1. pose proof (inv_graceful _ HI) as G2.
    pose proof (inv_stopped _ HI) as G3. rewrite Hsh in G1, G2, G3.
    eapply (Inv_update s _ i _ _ _ HI Hi); side HI Hi Hsent Hrecv.
  - destruct (shutdown s) eqn:Hsh; simplify_eq.
    pose proof (inv_hook _ HI) as G1. pose proof (inv_graceful _ HI) as G2.
    pose proof (inv_stopped _ HI) as G3. rewrite Hsh in G1, G2, G3.
    eapply (Inv_update s _ i _ _ _ HI Hi); side HI Hi Hsent Hrecv.
  - (* the function of doneonce: <-stopdone *)
    destruct (stopdone s) as [|n] eqn:Hsd; simplify_eq.
    destruct (inv_chan _ HI) as [?|[Hone Hsv]]; [congruence|].
    assert (n = 0) as -> by congruence.
    eapply (Inv_update s _ i _ _ _ HI Hi); side HI Hi Hsent Hrecv.
    + by left.
    + rewrite Hsv. done.
Qed.

Lemma Inv_step s s' : Inv s → step s s' → Inv s'.
Proof.
  intros HI [(i & Hstep)|[Hstep|Hstep]]%step_cases.
  - by eapply Inv_callerStep.
  - by eapply Inv_shutdownStep.
  - by eapply Inv_serveStep.
Qed.

Lemma Inv_reachable entries s : reachable (serving entries) s → Inv s.
Proof.
  induction 1 as [|s s' _ IH Hstep]; [apply Inv_serving|by eapply Inv_step].
Qed.

(** *** Every step uses up one of the steps left *)

Lemma sum_alter {A} (f : A → nat) (g : A → A) i l x :
  l !! i = Some x →
  sum_list (f <$> alter g i l) + f x = sum_list (f <$> l) + f (g x).
Proof.
  revert i. induction l as [|y l IH]; intros [|i] Hi; simplify_eq/=; [lia|].
  specialize (IH _ Hi). lia.
Qed.

Lemma rank_setCaller i pc s e pc0 :
  callers s !! i = Some (mkCaller e pc0) →
  sum_list (callerRank <$> callers (setCaller i pc s)) + callerRank (mkCaller e pc0)
  = sum_list (callerRank <$> callers s) + callerRank (mkCaller e pc).
Proof.
  intros Hi. unfold setCaller. cbn [callers].
  by rewrite (sum_alter callerRank _ _ _ _ Hi).
Qed.

Lemma callerStep_decreases i s s' :
  callerStep i s = Some s' → stepsLeft s' < stepsLeft s.
Proof.
  unfold callerStep.
  destruct (callers s !! i) as [[e [ph pc|]]|] eqn:Hi; [|done..].
  unfold stepsLeft. intros Hstep.
  destruct ph, pc, e; cbn in Hstep;
    repeat match type of Hstep with
    | context [done ?o] => destruct (done o)
    | context [holder ?o] => destruct (holder o)
    | context [match shutdown ?s with _ => _ end] => destruct (shutdown s) eqn:Hsh
    | context [match stopdone ?s with _ => _ end] => destruct (stopdone s) eqn:Hsd
    end; simplify_eq;
    match goal with
    | |- context [callers (setCaller i ?pc ?X)] =>
        pose proof (rank_setCaller i pc X _ _ Hi) as Hr
    end;
    cbn in Hr |- *; rewrite ?Hsh; cbn; lia.
Qed.

Lemma step_decreases s s' : step s s' → stepsLeft s' < stepsLeft s.
Proof.
  intros [(i & Hstep)|[Hstep|Hstep]]%step_cases.
  - by eapply callerStep_decreases.
  - unfold shutdownStep in Hstep. unfold stepsLeft.
    destruct (shutdown s) eqn:E; simplify_eq; cbn; rewrite ?E; cbn; lia.
  - unfold serveStep in Hstep. unfold stepsLeft.
    destruct (serve s) eqn:E; [destruct (serverStopped s)|destruct (stopdone s)|];
      simplify_eq; cbn; rewrite ?E; cbn; lia.
Qed.

(** *** A run ends only when the shutdown is complete *)

Lemma stuck_cases s :
  (∀ s', ¬ step s s') →
  (∀ i c, callers s !! i = Some c → callerStep i s = None)
  ∧ shutdownStep s = None ∧ serveStep s = None.
Proof.
  intros Hstuck. unfold step, next in Hstuck. split_and!.
  - intros i c Hi. destruct (callerStep i s) as [s'|] eqn:E; [|done].
    exfalso. apply (Hstuck s'). apply elem_of_app. left.
    apply list_elem_of_omap. exists i. split; [|done].
    apply elem_of_seq. apply lookup_lt_Some in Hi. lia.
  - destruct (shutdownStep s) as [s'|] eqn:E; [|done].
    exfalso. apply (Hstuck s'). rewrite !elem_of_app. right. left. cbn. left.
  - destruct (serveStep s) as [s'|] eqn:E; [|done].
    exfalso. apply (Hstuck s'). rewrite !elem_of_app. right. right. cbn. left.
Qed.

(** The function passed to [Do] does not block for ever: while a caller
    is about to send on [stopper] the goroutine is waiting for it, and while
    a caller is about to receive from [stopdone], the goroutine or [Serve]
    can take a step or the value is in the channel. *)
Lemma body_not_stuck s i e ph :
  Inv s → callers s !! i = Some (mkCaller e (Running ph OnceBody)) →
  callerStep i s = None → shutdownStep s = None → serveStep s = None → False.
Proof.
  intros HI Hi Hstep Hsh Hsv.
  pose proof (inv_callers _ HI _ _ Hi) as Hci.
  pose proof (inv_sent _ HI) as Hsent.
  pose proof (inv_received _ HI) as Hrecv.
  unfold callerStep in Hstep. rewrite Hi in Hstep.
  unfold callerInv, holds, doneAt in Hci.
  destruct ph; cbn in Hstep, Hci.
  - destruct Hci as (Hh & _ & Hd).
    rewrite (storing_holder InStop s i _ Hh Hi) in Hsent. cbn in Hsent.
    rewrite Hd in Hsent. cbn in Hsent. apply bool_decide_eq_true in Hsent.
    by rewrite Hsent in Hstep.
  - destruct Hci as (Hh & _ & Hd & _ & Hso).
    rewrite (storing_holder InWait s i _ Hh Hi) in Hrecv. cbn in Hrecv.
    rewrite Hd in Hrecv. cbn in Hrecv.
    rewrite Hso in Hsent. cbn in Hsent. apply bool_decide_eq_false in Hsent.
    destruct (stopdone s) as [|n] eqn:Hsd; [|done]. cbn in Hrecv.
    rewrite andb_true_r in Hrecv. apply bool_decide_eq_false in Hrecv.
    pose proof (inv_stopped _ HI) as Hstopped.
    unfold serveStep in Hsv. unfold shutdownStep in Hsh.
    destruct (serve s) eqn:Es; [|by rewrite Hsd in Hsv|done].
    destruct (serverStopped s) eqn:Ess; [done|].
    destruct (shutdown s); done.
Qed.

Lemma stuck_returned s :
  Inv s → (∀ s', ¬ step s s') → Forall (λ c, at_pc c = Returned) (callers s).
Proof.
  intros HI (Hcallers & Hsh & Hsv)%stuck_cases.
  apply Forall_lookup. intros i [e [ph pc|]] Hi; [exfalso|done].
  pose proof (Hcallers _ _ Hi) as Hstep.
  destruct (decide (pc = OnceBody)) as [->|Hbody].
  { by eapply body_not_stuck. }
  unfold callerStep in Hstep. rewrite Hi in Hstep. cbn zeta in Hstep.
  destruct pc; try done; try (by destruct (done _)).
  destruct (holder (onceOf ph s)) as [h|] eqn:Hh; [|done].
  destruct (inv_holder _ HI _ _ Hh) as [[eh pch] Hch].
  pose proof (inv_callers _ HI _ _ Hch) as Hci.
  pose proof (Hcallers _ _ Hch) as Hhstep.
  unfold callerStep in Hhstep. rewrite Hch in Hhstep. cbn zeta in Hhstep.
  unfold callerInv, holds in Hci.
  destruct pch as [phh pcc|]; cbn in Hci.
  - assert (phh = ph) as ->.
    { destruct ph, phh; cbn in Hh, Hci; destruct_and?; done. }
    assert (Hlocked : locked pcc = true).
    { destruct ph; cbn in Hh, Hci; destruct_and?;
        destruct (locked pcc); done. }
    destruct pcc; try done; try (by destruct (done _)).
    eapply (body_not_stuck s h); try done.
    unfold callerStep. by rewrite Hch.
  - destruct ph; cbn in Hh; destruct_and?; done.
Qed.

Lemma length_step s s' : step s s' → length (callers s') = length (callers s).
Proof.
  intros [(i & Hstep)|[Hstep|Hstep]]%step_cases.
  - unfold callerStep in Hstep.
    destruct (callers s !! i) as [[e [ph pc|]]|]; [|done..].
    destruct ph, pc; cbn in Hstep;
      repeat match type of Hstep with
      | context [done ?o] => destruct (done o)
      | context [holder ?o] => destruct (holder o)
      | context [match shutdown ?s with _ => _ end] => destruct (shutdown s)
      | context [match stopdone ?s with _ => _ end] => destruct (stopdone s)
      end; simplify_eq; cbn; by rewrite length_alter.
  - unfold shutdownStep in Hstep. destruct (shutdown s); by simplify_eq.
  - unfold serveStep in Hstep.
    destruct (serve s); [destruct (serverStopped s)|destruct (stopdone s)|];
      by simplify_eq.
Qed.

Lemma length_reachable entries s :
  reachable (serving entries) s → length (callers s) = length entries.
Proof.
  induction 1 as [|s s' _ IH Hstep].
  - cbn. by rewrite length_fmap.
  - by rewrite (length_step _ _ Hstep).
Qed.

(** What the invariant says of a caller that has returned. *)
Lemma returned_caller s c :
  Inv s → c ∈ callers s → at_pc c = Returned →
  shutdown s ≠ AwaitStopper
  ∧ (entry c = CallStopWait →
     hookCalls s = 1 ∧ gracefulStops s = 1 ∧ serve s = ServeReturned).
Proof.
  intros HI [i Hi]%list_elem_of_lookup Hret.
  pose proof (inv_callers _ HI _ _ Hi) as Hci.
  unfold callerInv in Hci. rewrite Hret in Hci.
  destruct Hci as (_ & _ & Hso & Hdn).
  pose proof (inv_sent _ HI) as Hsent. rewrite Hso in Hsent. cbn in Hsent.
  apply bool_decide_eq_false in Hsent. split; [done|].
  intros Hdone%Hdn.
  pose proof (inv_received _ HI) as Hrecv. rewrite Hdone in Hrecv. cbn in Hrecv.
  apply andb_true_iff in Hrecv as [Hsv%bool_decide_eq_true _].
  assert (Hstopped : serverStopped s = true).
  { apply (inv_serve _ HI). by rewrite Hsv. }
  pose proof (inv_stopped _ HI) as Hst. pose proof (inv_hook _ HI) as Hh.
  pose proof (inv_graceful _ HI) as Hg.
  destruct (shutdown s); first [done | by rewrite Hstopped in Hst].
Qed.

(** X18. The shutdown of the gRPC server for any number of callers. In
    every state that callers of Stop and StopWait (at least one, each
    running either of the two) can reach from a serving server, in any
    interleaving with the shutdown goroutine and with Serve: the stop
    function given to NewGrpcServer has been called at most once and
    GracefulStop at most as often; when a caller has returned, the value on
    stopper has been sent and received, and when that caller ran StopWait,
    the stop function and GracefulStop have each run once and Serve has
    returned; every step uses up one of the steps left, so every run ends;
    and in a state without a further step every caller has returned and the
    stop function and GracefulStop have each run exactly once. *)
Theorem grpc_shutdown_once_any_callers entries s :
  entries ≠ [] →
  reachable (serving entries) s →
  hookCalls s ≤ 1 ∧ gracefulStops s ≤ hookCalls s
  ∧ (∀ c, c ∈ callers s → at_pc c = Returned →
       shutdown s ≠ AwaitStopper
       ∧ (entry c = CallStopWait →
          hookCalls s = 1 ∧ gracefulStops s = 1 ∧ serve s = ServeReturned))
  ∧ (∀ s', step s s' → stepsLeft s' < stepsLeft s)
  ∧ ((∀ s', ¬ step s s') →
     Forall (λ c, at_pc c = Returned) (callers s)
     ∧ hookCalls s = 1 ∧ gracefulStops s = 1).
Proof.
  intros Hsome Hreach.
  pose proof (Inv_reachable _ _ Hreach) as HI.
  pose proof (inv_hook _ HI) as Hh. pose proof (inv_graceful _ HI) as Hg.
  split_and!.
  - destruct (shutdown s); lia.
  - destruct (shutdown s); lia.
  - intros c. by apply returned_caller.
  - apply step_decreases.
  - intros Hstuck. pose proof (stuck_returned _ HI Hstuck) as Hall.
    split; [done|].
    destruct (callers s) as [|c cs] eqn:Hcs.
    { apply length_reachable in Hreach. rewrite Hcs in Hreach.
      destruct entries; done. }
    assert (Hc : c ∈ callers s) by (rewrite Hcs; left).
    apply Forall_cons in Hall as [Hret _].
    destruct (returned_caller _ _ HI Hc Hret) as [Hsent _].
    apply stuck_cases in Hstuck as (_ & Hsh & _). unfold shutdownStep in Hsh.
    destruct (shutdown s); done.
Qed.

Lemma grpc_shutdown_once_any_callers_witness :
  [CallStop; CallStopWait] ≠ []
  ∧ reachable (serving [CallStop; CallStopWait]) (serving [CallStop; CallStopWait])
  ∧ hookCalls (serving [CallStop; CallStopWait]) ≤ 1.
Proof.
  assert (Hne : [CallStop; CallStopWait] ≠ []) by discriminate.
  pose proof (reach_start (serving [CallStop; CallStopWait])) as Hr.
  split; [exact Hne|]. split; [exact Hr|].
  exact (proj1 (grpc_shutdown_once_any_callers _ _ Hne Hr)).
Defined.

End ShutdownInvariant.
